(** * lambdi: a dependency-injection container for serverless handlers

    A verification development for [src/container.ts] and [src/loadenv.ts].

    The container memoises promises.  Its behaviour depends on the order in
    which the JavaScript event loop runs promise reactions, so the embedding
    has three layers:

    - [Js]: plain values, truthiness, symbols and the user callbacks
      (factories and disposers) with the results they produce;
    - [Runtime]: a promise heap, the microtask queue and the operations the
      source uses ([Promise.resolve], [then], [catch], [Promise.allSettled],
      [async] functions and [await]), with callbacks defunctionalised;
    - [Minimal] and [Registry]: the two versions of the [Container] class
      found in [src/container.ts], written against that runtime, and
      [Loadenv] for the environment loader. *)

From Stdlib Require Import ZArith Lia.
From stdpp Require Import base countable gmap strings list.

(** ** JavaScript values *)

Module Js.

(** Index of a promise in the promise heap. *)
Abbreviation pid := nat.

(** Plain (non-promise) values.  [VError msg] is [new Error(msg)];
    [VArray n] is the array of [n] settlement records that
    [Promise.allSettled] produces; what a record says is read from the
    promise it belongs to. *)
Inductive value :=
  | VUndefined
  | VNull
  | VBool (b : bool)
  | VNum (n : Z)
  | VStr (s : string)
  | VObj (o : nat)
  | VError (msg : string)
  | VArray (len : nat).

(** What a variable of type [unknown] holds in this program: a plain value
    or a reference to a promise. *)
Inductive jsval :=
  | JVal (v : value)
  | JPromise (p : pid).

(** [ToBoolean]. *)
Definition truthy_value (v : value) : bool :=
  match v with
  | VUndefined | VNull => false
  | VBool b => b
  | VNum n => negb (n =? 0)%Z
  | VStr s => negb (String.eqb s EmptyString)
  | VObj _ | VError _ | VArray _ => true
  end.

Definition truthy (x : jsval) : bool :=
  match x with
  | JVal v => truthy_value v
  | JPromise _ => true
  end.

(** How a promise settles. *)
Inductive outcome :=
  | Ful (v : value)
  | Rej (e : value).

(** [Symbol(description)]: a fresh identity carrying a label. *)
Record symbol := Symbol { sym_id : nat; description : string }.

#[global] Instance symbol_eq_dec : EqDecision symbol.
Proof. solve_decision. Defined.

#[global] Instance symbol_countable : Countable symbol.
Proof.
  refine (inj_countable' (fun s => (sym_id s, description s))
                         (fun p => Symbol (fst p) (snd p)) _).
  intros []; reflexivity.
Defined.

(** [interface InjectionToken<T> { readonly key: symbol }] *)
Record InjectionToken := { key : symbol }.

(** A creation function.  [fname] identifies the function object;
    [behaviour n] is what its invocation number [n] (counted from 0) does:
    return a plain value, throw, or return a promise that the environment
    settles later. *)
Inductive fres :=
  | FReturn (v : value)
  | FThrow (e : value)
  | FAsync.

Record factory := { fname : nat; behaviour : nat -> fres }.

(** A [dispose] callback, of type [(value) => Promise<void> | void]. *)
Inductive dres :=
  | DReturn
  | DThrow (e : value)
  | DAsync.

Record disposer := { dname : nat; dbehaviour : value -> nat -> dres }.

End Js.
Export Js.

(** ** Promises and the microtask queue *)

Module Runtime.

(** The result of a computation: a value, or an exception. *)
Inductive res (A : Type) :=
  | Val (a : A)
  | Thrown (e : value).
Arguments Val {A} a.
Arguments Thrown {A} e.

Section Types.

(** [H] are the program's own callbacks, [C] its container objects. *)
Context {H C : Type}.

Inductive rhandler :=
  | HAdopt                      (* the resolving functions of [target] *)
  | HSettledElem (a : nat)      (* element callbacks of [Promise.allSettled] *)
  | HUser (h : H).

(** A reaction registered by [then]: the callback and the promise that its
    result settles. *)
Record reaction := { handler : rhandler; target : pid }.

Inductive cell :=
  | Pending (rs : list reaction)
  | Settled (o : outcome).

Inductive job :=
  | JReact (rx : reaction) (o : outcome)   (* PromiseReactionJob *)
  | JThenable (r p : pid).                 (* NewPromiseResolveThenableJob *)

(** Bookkeeping of one [Promise.allSettled] call. *)
Record agg := { remaining : nat; total : nat; result : pid }.

Record state := {
  promises : list cell;
  queue : list job;
  containers : list C;
  aggs : list agg;
  next_symbol : nat;
  externals : list pid;             (* promises the environment settles *)
  factory_log : list nat;           (* factory invocations, oldest first *)
  dispose_log : list (nat * value); (* disposer invocations, oldest first *)
  console : list (string * list value)
    (* calls of console.warn/error: the first argument, a string in this
       program, and the arguments after it *)
}.

Definition set_promises (f : list cell -> list cell) (st : state) : state :=
  {| promises := f (promises st); queue := queue st;
     containers := containers st; aggs := aggs st;
     next_symbol := next_symbol st; externals := externals st;
     factory_log := factory_log st; dispose_log := dispose_log st;
     console := console st |}.

Definition set_queue (f : list job -> list job) (st : state) : state :=
  {| promises := promises st; queue := f (queue st);
     containers := containers st; aggs := aggs st;
     next_symbol := next_symbol st; externals := externals st;
     factory_log := factory_log st; dispose_log := dispose_log st;
     console := console st |}.

Definition set_containers (f : list C -> list C) (st : state) : state :=
  {| promises := promises st; queue := queue st;
     containers := f (containers st); aggs := aggs st;
     next_symbol := next_symbol st; externals := externals st;
     factory_log := factory_log st; dispose_log := dispose_log st;
     console := console st |}.

Definition set_aggs (f : list agg -> list agg) (st : state) : state :=
  {| promises := promises st; queue := queue st;
     containers := containers st; aggs := f (aggs st);
     next_symbol := next_symbol st; externals := externals st;
     factory_log := factory_log st; dispose_log := dispose_log st;
     console := console st |}.

Definition set_next_symbol (f : nat -> nat) (st : state) : state :=
  {| promises := promises st; queue := queue st;
     containers := containers st; aggs := aggs st;
     next_symbol := f (next_symbol st); externals := externals st;
     factory_log := factory_log st; dispose_log := dispose_log st;
     console := console st |}.

Definition set_externals (f : list pid -> list pid) (st : state) : state :=
  {| promises := promises st; queue := queue st;
     containers := containers st; aggs := aggs st;
     next_symbol := next_symbol st; externals := f (externals st);
     factory_log := factory_log st; dispose_log := dispose_log st;
     console := console st |}.

Definition set_factory_log (f : list nat -> list nat) (st : state) : state :=
  {| promises := promises st; queue := queue st;
     containers := containers st; aggs := aggs st;
     next_symbol := next_symbol st; externals := externals st;
     factory_log := f (factory_log st); dispose_log := dispose_log st;
     console := console st |}.

Definition set_dispose_log
    (f : list (nat * value) -> list (nat * value)) (st : state) : state :=
  {| promises := promises st; queue := queue st;
     containers := containers st; aggs := aggs st;
     next_symbol := next_symbol st; externals := externals st;
     factory_log := factory_log st; dispose_log := f (dispose_log st);
     console := console st |}.

Definition set_console
    (f : list (string * list value) -> list (string * list value))
    (st : state) : state :=
  {| promises := promises st; queue := queue st;
     containers := containers st; aggs := aggs st;
     next_symbol := next_symbol st; externals := externals st;
     factory_log := factory_log st; dispose_log := dispose_log st;
     console := f (console st) |}.

(** *** Computations: state passing with exceptions *)

Definition M (A : Type) : Type := state -> res A * state.

Definition ret {A} (a : A) : M A := fun st => (Val a, st).

Definition bind {A B} (m : M A) (k : A -> M B) : M B :=
  fun st =>
    match m st with
    | (Val a, st') => k a st'
    | (Thrown e, st') => (Thrown e, st')
    end.

Definition throw {A} (e : value) : M A := fun st => (Thrown e, st).

(** [try m catch (e) { h e }] *)
Definition try_catch {A} (m : M A) (h : value -> M A) : M A :=
  fun st =>
    match m st with
    | (Val a, st') => (Val a, st')
    | (Thrown e, st') => h e st'
    end.

Definition gets {A} (f : state -> A) : M A := fun st => (Val (f st), st).
Definition modify (f : state -> state) : M unit := fun st => (Val tt, f st).

Fixpoint array_map {A B} (f : A -> M B) (l : list A) : M (list B) :=
  match l with
  | [] => ret []
  | a :: l' => bind (f a) (fun b => bind (array_map f l') (fun bs => ret (b :: bs)))
  end.

End Types.

Arguments rhandler : clear implicits.
Arguments reaction : clear implicits.
Arguments cell : clear implicits.
Arguments job : clear implicits.
Arguments state : clear implicits.
Arguments M : clear implicits.

Declare Scope js_scope.
Delimit Scope js_scope with js.
Notation "'let*' x ':=' m 'in' k" := (bind m (fun x => k))
  (at level 10, x name, m at level 100, k at level 200) : js_scope.
Notation "m ';;' k" := (bind m (fun _ => k))
  (at level 100, k at level 200, right associativity) : js_scope.
Open Scope js_scope.

(** *** Promise operations *)

Section Ops.

Context {H C : Type}.

Local Abbreviation M := (M H C).
Local Abbreviation state := (state H C).
Local Abbreviation job := (job H).
Local Abbreviation cell := (cell H).
Local Abbreviation reaction := (reaction H).
Local Abbreviation rhandler := (rhandler H).

Definition enqueue (j : job) : M unit :=
  modify (set_queue (fun q => q ++ [j])).

(** A new promise object in the given state; its index is its identity. *)
Definition new_promise (c : cell) : M pid :=
  fun st => (Val (length (promises st)),
             set_promises (fun h => h ++ [c]) st).

(** Fulfil or reject [p].  A promise settles once: later attempts are
    ignored.  Its reactions are scheduled in registration order. *)
Definition settle (p : pid) (o : outcome) : M unit :=
  fun st =>
    match promises st !! p with
    | Some (Pending rs) =>
        (Val tt,
         set_queue (fun q => q ++ map (fun rx => JReact rx o) rs)
           (set_promises (fun h => <[p := Settled o]> h) st))
    | _ => (Val tt, st)
    end.

(** The [resolve] function of promise [p]: a promise argument is adopted
    through a microtask, anything else fulfils [p]. *)
Definition resolve_promise (p : pid) (x : jsval) : M unit :=
  match x with
  | JPromise t => enqueue (JThenable p t)
  | JVal v => settle p (Ful v)
  end.

(** PerformPromiseThen. *)
Definition register (p : pid) (rx : reaction) : M unit :=
  fun st =>
    match promises st !! p with
    | Some (Pending rs) =>
        (Val tt, set_promises (fun h => <[p := Pending (rs ++ [rx])]> h) st)
    | Some (Settled o) => enqueue (JReact rx o) st
    | None => (Val tt, st)
    end.

(** [p.then(h)]: the derived promise is returned. *)
Definition then_ (p : pid) (h : rhandler) : M pid :=
  let* d := new_promise (Pending []) in
  register p {| handler := h; target := d |} ;;
  ret d.

(** [Promise.reject(e)] *)
Definition Promise_reject (e : value) : M pid :=
  new_promise (Settled (Rej e)).

(** [console.warn(line, ...args)], [console.error(line, ...args)] *)
Definition console_log (line : string) (args : list value) : M unit :=
  modify (set_console (fun l => l ++ [(line, args)])).

(** [Promise.resolve(x)] *)
Definition Promise_resolve (x : jsval) : M pid :=
  match x with
  | JPromise p => ret p
  | JVal v => new_promise (Settled (Ful v))
  end.

Definition new_agg (n : nat) (r : pid) : M nat :=
  fun st => (Val (length (aggs st)),
             set_aggs (fun l => l ++ [{| remaining := n; total := n; result := r |}]) st).

(** [Promise.allSettled(xs)] *)
Definition Promise_allSettled (xs : list jsval) : M pid :=
  let* r := new_promise (Pending []) in
  let* a := new_agg (length xs) r in
  array_map (fun x => let* p := Promise_resolve x in then_ p (HSettledElem a)) xs ;;
  (if length xs =? 0 then settle r (Ful (VArray 0)) else ret tt) ;;
  ret r.

(** One element of an [allSettled] call has settled. *)
Definition settled_elem (a : nat) : M unit :=
  fun st =>
    match aggs st !! a with
    | Some g =>
        let g' := {| remaining := pred (remaining g); total := total g;
                     result := result g |} in
        let st' := set_aggs (fun l => <[a := g']> l) st in
        if remaining g' =? 0
        then settle (result g) (Ful (VArray (total g))) st'
        else (Val tt, st')
    | None => (Val tt, st)
    end.

(** An [async] function: the promise it returns is created first, the body
    runs synchronously up to its first [await] or its end, and an exception
    escaping the body rejects the returned promise. *)
Definition async_fn (body : pid -> M unit) : M pid :=
  let* r := new_promise (Pending []) in
  try_catch (body r) (fun e => settle r (Rej e)) ;;
  ret r.

(** [await p; rest] inside an async function returning [r]: [rest] is the
    reaction [h], and its result settles [r]. *)
Definition await_ (p : pid) (h : H) (r : pid) : M unit :=
  register p {| handler := HUser h; target := r |}.

(** *** User callbacks *)

Definition invoke_factory (f : factory) : M jsval :=
  let* n := gets (fun st => count_occ Nat.eq_dec (factory_log st) (fname f)) in
  modify (set_factory_log (fun l => l ++ [fname f])) ;;
  match behaviour f n with
  | FReturn v => ret (JVal v)
  | FThrow e => throw e
  | FAsync =>
      let* q := new_promise (Pending []) in
      modify (set_externals (fun l => q :: l)) ;;
      ret (JPromise q)
  end.

Definition invoke_disposer (d : disposer) (v : value) : M jsval :=
  let* n := gets (fun st =>
         length (filter (fun e => fst e = dname d) (dispose_log st))) in
  modify (set_dispose_log (fun l => l ++ [(dname d, v)])) ;;
  match dbehaviour d v n with
  | DReturn => ret (JVal VUndefined)
  | DThrow e => throw e
  | DAsync =>
      let* q := new_promise (Pending []) in
      modify (set_externals (fun l => q :: l)) ;;
      ret (JPromise q)
  end.

(** [Symbol(description)] *)
Definition fresh_symbol (desc : string) : M symbol :=
  fun st => (Val (Symbol (next_symbol st) desc), set_next_symbol S st).

(** [export const token = (description) => ({ key: Symbol(description) })] *)
Definition token (desc : string) : M InjectionToken :=
  let* s := fresh_symbol desc in
  ret {| key := s |}.

(** *** The event loop *)

(** The program's callbacks: handler, target promise, settled outcome. *)
Variable run_handler : H -> pid -> outcome -> M jsval.

(** PromiseReactionJob: the callback's result resolves the target, an
    exception rejects it. *)
Definition run_reaction (rx : reaction) (o : outcome) : M unit :=
  match handler rx with
  | HAdopt => settle (target rx) o
  | HSettledElem a =>
      settled_elem a ;;
      settle (target rx) (Ful VUndefined)
  | HUser h =>
      try_catch
        (let* x := run_handler h (target rx) o in resolve_promise (target rx) x)
        (fun e => settle (target rx) (Rej e))
  end.

Definition run_job (j : job) : M unit :=
  match j with
  | JReact rx o => run_reaction rx o
  | JThenable r p => register p {| handler := HAdopt; target := r |}
  end.

(** One turn of the microtask loop. *)
Definition tick : M unit :=
  fun st =>
    match queue st with
    | [] => (Val tt, st)
    | j :: q => run_job j (set_queue (fun _ => q) st)
    end.

(** The environment settles a promise it owns. *)
Definition env_settle (q : pid) (o : outcome) : M unit :=
  fun st =>
    if bool_decide (q ∈ externals st) then settle q o st else (Val tt, st).

Definition exec {A} (m : M A) (st : state) : state := snd (m st).

Fixpoint ticks (n : nat) (st : state) : state :=
  match n with
  | 0 => st
  | S n' => ticks n' (exec tick st)
  end.

End Ops.

End Runtime.

Export Runtime.

(** ** What an operation leaves alone

    [keeps proj m]: running [m] does not change what [proj] reads. *)

Section Projections.
Context {H C X : Type} (proj : state H C -> X).

Definition keeps {A} (m : M H C A) : Prop :=
  forall st, proj (snd (m st)) = proj st.

(** [proj] does not read the promise heap, the queue, the [allSettled]
    counters, the set of external promises or the logs. *)
Record heap_independent : Prop := {
  ind_promises : forall f st, proj (set_promises f st) = proj st;
  ind_queue : forall f st, proj (set_queue f st) = proj st;
  ind_aggs : forall f st, proj (set_aggs f st) = proj st;
  ind_externals : forall f st, proj (set_externals f st) = proj st;
  ind_factory_log : forall f st, proj (set_factory_log f st) = proj st;
  ind_dispose_log : forall f st, proj (set_dispose_log f st) = proj st;
  ind_console : forall f st, proj (set_console f st) = proj st
}.

End Projections.

(** ** The container (second version in [src/container.ts])

    [resolve(token, factory, opts)] with no separate registration step. *)

Module Minimal.

(** Index of a [Container] object in the object heap. *)
Abbreviation cid := nat.

(** [interface FactoryOptions { dispose?: (value) => Promise<void> | void }] *)
Record FactoryOptions := { dispose : option disposer }.

(** The default [opts = {}]. *)
Definition no_options : FactoryOptions := {| dispose := None |}.

(** An element of [disposers]: the closure [() => opts.dispose!(v)]. *)
Record thunk := { dispose_fn : disposer; bound : value }.

(** [class Container]: [singletons] is a [Map<symbol, unknown>]. *)
Record Container := {
  singletons : gmap symbol jsval;
  disposers : list thunk
}.

(** [new Container()] *)
Definition empty_container : Container :=
  {| singletons := ∅; disposers := [] |}.

(** The closures that [resolve] and [disposeAll] hand to the runtime. *)
Inductive handler :=
  | HFactory (f : factory)
      (* [factory], passed to [Promise.resolve().then] *)
  | HOnOk (c : cid) (k : symbol) (opts : FactoryOptions)
      (* [v => { singletons.set(k, v); if (opts.dispose) ...; return v }] *)
  | HOnErr (c : cid) (k : symbol)
      (* [e => { singletons.delete(k); throw e }], passed to [catch] *)
  | HDisposeResume (c : cid).
      (* the rest of [disposeAll] after its [await] *)

Abbreviation state := (Runtime.state handler Container).
Abbreviation M := (Runtime.M handler Container).
Abbreviation job := (Runtime.job handler).
Abbreviation cell := (Runtime.cell handler).
Abbreviation reaction := (Runtime.reaction handler).

(** Field access on [this]. *)
Definition this (c : cid) (st : state) : Container :=
  default empty_container (containers st !! c).

Definition update (c : cid) (f : Container -> Container) : M unit :=
  modify (set_containers (alter f c)).

Definition set_singletons (f : gmap symbol jsval -> gmap symbol jsval)
    (x : Container) : Container :=
  {| singletons := f (singletons x); disposers := disposers x |}.

Definition set_disposers (f : list thunk -> list thunk)
    (x : Container) : Container :=
  {| singletons := singletons x; disposers := f (disposers x) |}.

(** [this.singletons.get(k)]: [undefined] when the key is absent. *)
Definition singletons_get (c : cid) (k : symbol) : M jsval :=
  gets (fun st => default (JVal VUndefined) (singletons (this c st) !! k)).

Definition singletons_set (c : cid) (k : symbol) (x : jsval) : M unit :=
  update c (set_singletons (insert k x)).

Definition singletons_delete (c : cid) (k : symbol) : M unit :=
  update c (set_singletons (delete k)).

Definition singletons_clear (c : cid) : M unit :=
  update c (set_singletons (fun _ => ∅)).

Definition disposers_push (c : cid) (d : thunk) : M unit :=
  update c (set_disposers (fun l => l ++ [d])).

(** The bodies of the closures. A handler given to [then] alone lets a
    rejection pass, one given to [catch] lets a value pass. *)
Definition run_handler (h : handler) (tgt : pid) (o : outcome) : M jsval :=
  match h, o with
  | HFactory f, Ful _ => invoke_factory f
  | HOnOk c k opts, Ful v =>
      singletons_set c k (JVal v) ;;
      match dispose opts with
      | Some d => disposers_push c {| dispose_fn := d; bound := v |}
      | None => ret tt
      end ;;
      ret (JVal v)
  | HOnErr c k, Rej e =>
      singletons_delete c k ;;
      throw e
  | HOnErr c k, Ful v => ret (JVal v)
  | HDisposeResume c, Ful _ =>
      singletons_clear c ;;
      update c (set_disposers (fun _ => [])) ;;
      ret (JVal VUndefined)
  | _, Rej e => throw e
  end.

(** [async resolve<T>(t, factory, opts = {})] *)
Definition resolve (c : cid) (t : InjectionToken) (factory : factory)
    (opts : FactoryOptions) : M pid :=
  async_fn (fun r =>
    let* existing := singletons_get c (key t) in
    if truthy existing then resolve_promise r existing
    else
      let* p0 := Promise_resolve (JVal VUndefined) in
      let* p1 := then_ p0 (HUser (HFactory factory)) in
      let* p2 := then_ p1 (HUser (HOnOk c (key t) opts)) in
      let* creation := then_ p2 (HUser (HOnErr c (key t))) in
      singletons_set c (key t) (JPromise creation) ;;
      resolve_promise r (JPromise creation)).

(** [async disposeAll()]: the body, for the promise [r] that the call
    returns, and the method. *)
Definition disposeAll_body (c : cid) (r : pid) : M unit :=
  let* ds := gets (fun st => disposers (this c st)) in
  let* xs := array_map (fun fn => invoke_disposer (dispose_fn fn) (bound fn)) ds in
  let* all := Promise_allSettled xs in
  await_ all (HDisposeResume c) r.

Definition disposeAll (c : cid) : M pid := async_fn (disposeAll_body c).

(** [createScope()] *)
Definition createScope (c : cid) : M cid :=
  let* child := (fun st => (Val (length (containers st)),
                            set_containers (fun l => l ++ [empty_container]) st)) in
  let* m := gets (fun st => singletons (this c st)) in
  update child (set_singletons (fun _ => m)) ;;
  ret child.

(** What can happen next: a call from user code, a turn of the microtask
    loop, or the environment settling a promise that a callback returned. *)
Inductive event :=
  | EToken (desc : string)
  | EResolve (c : cid) (t : InjectionToken) (f : factory) (opts : FactoryOptions)
  | EDisposeAll (c : cid)
  | ECreateScope (c : cid)
  | ETick
  | ESettle (q : pid) (o : outcome).

Definition step (ev : event) (st : state) : state :=
  match ev with
  | EToken desc => exec (token desc) st
  | EResolve c t f opts => exec (resolve c t f opts) st
  | EDisposeAll c => exec (disposeAll c) st
  | ECreateScope c => exec (createScope c) st
  | ETick => exec (tick run_handler) st
  | ESettle q o => exec (env_settle q o) st
  end.

Definition run (tr : list event) (st : state) : state :=
  fold_left (fun s ev => step ev s) tr st.

(** [export const container = new Container()]: the process starts with the
    global container, at index 0. *)
Definition container : cid := 0.

Definition init : state :=
  {| promises := []; queue := []; containers := [empty_container];
     aggs := []; next_symbol := 0; externals := [];
     factory_log := []; dispose_log := []; console := [] |}.

(** The settled outcome of a promise, if any. *)
Definition outcome_of (st : state) (p : pid) : option outcome :=
  match promises st !! p with
  | Some (Settled o) => Some o
  | _ => None
  end.

Definition entry (st : state) (c : cid) (k : symbol) : option jsval :=
  singletons (this c st) !! k.

(** [proj] does not read container [c]. *)
Definition ignores {X : Type} (proj : state -> X) (c : cid) : Prop :=
  forall f st, proj (set_containers (alter f c) st) = proj st.

(** *** Vocabulary of the properties

    Names for the reactions, states and runs that the statements about the
    container speak of. *)

Definition rx (h : handler) (d : pid) : reaction :=
  {| Runtime.handler := HUser h; target := d |}.

Definition adopt (r : pid) : reaction :=
  {| Runtime.handler := HAdopt; target := r |}.

(** Settling a pending promise schedules its reactions. *)
Definition settled (p : pid) (o : outcome) (rs : list reaction) (st : state) : state :=
  set_queue (fun q => q ++ map (fun r => JReact r o) rs)
    (set_promises (fun h => <[p := Settled o]> h) st).

(** The state after the synchronous part of a [resolve] that finds no
    usable entry: five new promises (the returned one, [Promise.resolve()],
    and the three links of the chain), the factory job, and the entry. *)
Definition after_miss (c : cid) (k : symbol) (f : factory) (opts : FactoryOptions)
    (st : state) : state :=
  let n := length (promises st) in
  set_queue (fun q => q ++ [JReact (rx (HFactory f) (n + 2)) (Ful VUndefined);
                            JThenable n (n + 4)])
    (set_containers (alter (set_singletons (insert k (JPromise (n + 4)))) c)
      (set_promises (fun h => h ++ [Pending []; Settled (Ful VUndefined);
                                    Pending [rx (HOnOk c k opts) (n + 3)];
                                    Pending [rx (HOnErr c k) (n + 4)];
                                    Pending []]) st)).

Definition pop (q : list job) (st : state) : state := set_queue (fun _ => q) st.

(** What a factory call does to the state besides settling its target. *)
Definition called (f : factory) (st : state) : state :=
  set_factory_log (fun l => l ++ [fname f]) st.

Definition times_called (f : factory) (st : state) : nat :=
  count_occ Nat.eq_dec (factory_log st) (fname f).

(** The container after the creation step has stored the value. *)
Definition stored (k : symbol) (opts : FactoryOptions) (v : value)
    (x : Container) : Container :=
  match dispose opts with
  | Some d =>
      set_disposers (fun l => l ++ [{| dispose_fn := d; bound := v |}])
        (set_singletons (insert k (JVal v)) x)
  | None => set_singletons (insert k (JVal v)) x
  end.

(** The container that a closure works on. *)
Definition names (h : handler) : option cid :=
  match h with
  | HFactory _ => None
  | HOnOk c _ _ | HOnErr c _ | HDisposeResume c => Some c
  end.

Definition job_names (j : job) : option cid :=
  match j with
  | JReact x _ =>
      match Runtime.handler x with
      | HUser h => names h
      | _ => None
      end
  | JThenable _ _ => None
  end.

(** An event that is not a call on container [c] and not a turn that runs
    a closure of [c]. *)
Definition elsewhere (c : cid) (ev : event) (st : state) : Prop :=
  match ev with
  | EResolve c' _ _ _ | EDisposeAll c' => c' <> c
  | ECreateScope _ => c <> length (containers st)
  | ETick => forall j q, queue st = j :: q -> job_names j <> Some c
  | EToken _ | ESettle _ _ => True
  end.

(** *** One creation, from the call to its end *)

(** How a creation function completes: in the call itself, or through a
    promise that the environment settles later. *)
Inductive how := Sync | Async.

(** Invocation number [n] of [f] completes with outcome [o] in way [w]. *)
Definition completes (w : how) (f : factory) (n : nat) (o : outcome) : Prop :=
  match w, o with
  | Sync, Ful v => behaviour f n = FReturn v
  | Sync, Rej e => behaviour f n = FThrow e
  | Async, _ => behaviour f n = FAsync
  end.

(** The turns of the event loop that take a creation with [k] waiting
    callers to its end; [q] is the promise that an asynchronous factory
    returned. *)
Definition attempt (w : how) (q : pid) (o : outcome) (k : nat) : list event :=
  match w with
  | Sync => repeat ETick (3 + 2 * k)
  | Async => repeat ETick (2 + k) ++ ESettle q o :: repeat ETick (3 + k)
  end.

(** The container once a creation has completed. *)
Definition completed (k : symbol) (opts : FactoryOptions) (o : outcome)
    (x : Container) : Container :=
  match o with
  | Ful v => stored k opts v x
  | Rej _ => set_singletons (delete k) x
  end.

Definition finished (w : how) (c : cid) (k : symbol) (f : factory)
    (opts : FactoryOptions) (o : outcome) (st : state) : state :=
  {| promises := promises st ++
       [Settled o; Settled (Ful VUndefined); Settled o; Settled o; Settled o] ++
       match w with Sync => [] | Async => [Settled o] end;
     queue := [];
     containers := alter (completed k opts o) c (containers st);
     aggs := aggs st;
     next_symbol := next_symbol st;
     externals := match w with
                  | Sync => externals st
                  | Async => (length (promises st) + 5) :: externals st
                  end;
     factory_log := factory_log st ++ [fname f];
     dispose_log := dispose_log st;
     console := console st |}.

(** *** Concurrent callers

    The promise of [Promise.resolve().then(factory)] and the promise put in
    the cache by a [resolve] that starts a creation in state [st0]: the
    third and the fifth promise that the call allocates. *)
Definition factory_promise (st0 : state) : pid := length (promises st0) + 2.

Definition creation_promise (st0 : state) : pid := length (promises st0) + 4.

(** [concurrent c t f opts st0 st R]: in [st0] the call
    [resolve(t, f, opts)] on [c] is made; [st] is reached from there by
    further [resolve] calls for [t] on [c], each issued while the creation
    function has not completed, by turns of the event loop and by the
    environment settling promises handed out since; [R] lists the promises
    returned to the callers. *)
Inductive concurrent (c : cid) (t : InjectionToken) (f : factory)
    (opts : FactoryOptions) (st0 : state) : state -> list pid -> Prop :=
  | conc_first r st :
      resolve c t f opts st0 = (Val r, st) ->
      concurrent c t f opts st0 st [r]
  | conc_call st R g o r st' :
      concurrent c t f opts st0 st R ->
      outcome_of st (factory_promise st0) = None ->
      resolve c t g o st = (Val r, st') ->
      concurrent c t f opts st0 st' (R ++ [r])
  | conc_tick st R :
      concurrent c t f opts st0 st R ->
      concurrent c t f opts st0 (step ETick st) R
  | conc_settle st R q o :
      concurrent c t f opts st0 st R ->
      q ∉ externals st0 ->
      concurrent c t f opts st0 (step (ESettle q o) st) R.

(** *** Concrete programs *)

Definition NUMBER : InjectionToken := {| key := Symbol 0 "number" |}.

Definition OTHER : InjectionToken := {| key := Symbol 1 "other" |}.

Definition boom : value := VError "boom".

(** [() => 0], [() => 1], [() => 7] *)
Definition zero : factory := {| fname := 1; behaviour := fun _ => FReturn (VNum 0) |}.

Definition one : factory := {| fname := 2; behaviour := fun _ => FReturn (VNum 1) |}.

Definition seven : factory := {| fname := 3; behaviour := fun _ => FReturn (VNum 7) |}.

(** [() => { if (++attempt === 1) throw new Error('boom'); return 42 }] *)
Definition fails_once : factory :=
  {| fname := 4;
     behaviour := fun n => if n =? 0 then FThrow boom else FReturn (VNum 42) |}.

(** [async () => ...]: every call returns a new promise *)
Definition slow : factory := {| fname := 5; behaviour := fun _ => FAsync |}.

(** A second asynchronous factory, a function of its own. *)
Definition later : factory := {| fname := 6; behaviour := fun _ => FAsync |}.

(** Disposers: one that returns, one that throws in the call itself *)
Definition close : disposer := {| dname := 1; dbehaviour := fun _ _ => DReturn |}.

Definition faulty : disposer := {| dname := 2; dbehaviour := fun _ _ => DThrow boom |}.

Definition with_dispose (d : disposer) : FactoryOptions := {| dispose := Some d |}.

(** Two callers share the creation of an asynchronous factory. *)
Definition shared_run : state :=
  run (EResolve 0 NUMBER slow no_options :: EResolve 0 NUMBER one no_options ::
       repeat ETick 4 ++ ESettle 6 (Ful (VNum 9)) :: repeat ETick 5) init.

Definition disposed_run : list event :=
  EResolve 0 NUMBER seven (with_dispose close) :: repeat ETick 5.

(** *** The chain of one creation

    The invariant of the creation that [resolve(t, f1, opts1)] starts on
    [c] in state [st0]: [n] is the promise returned to the first caller,
    [p1], [p2] and [p3] are the promises of [.then(factory)], of
    [.then(v => ...)] and of [.catch(e => ...)], [k] is the key of the
    token. *)

Section Creation.
Context (st0 : state) (c : cid) (k : symbol) (f1 : factory)
  (opts1 : FactoryOptions) (n p1 p2 p3 : pid).

Definition is_chain (j : job) : bool :=
  match j with
  | JThenable r _ => r =? p1
  | JReact x _ =>
      match Runtime.handler x with
      | HAdopt => target x =? p1
      | _ => true
      end
  end.

Definition chain (st : state) : list job := List.filter is_chain (queue st).

Definition follower (st : state) (R : list pid) (j : job) : Prop :=
  (exists r, r ∈ R /\ j = JThenable r p3) \/
  (exists r o, r ∈ R /\ j = JReact (adopt r) o /\
               promises st !! p3 = Some (Settled o)).

Definition caller_ok (st : state) (r : pid) : Prop :=
  (exists o, promises st !! r = Some (Settled o) /\
             promises st !! p3 = Some (Settled o)) \/
  (promises st !! r = Some (Pending []) /\
   (JThenable r p3 ∈ queue st \/
    (exists rs, promises st !! p3 = Some (Pending rs) /\ adopt r ∈ rs) \/
    (exists o, JReact (adopt r) o ∈ queue st))).

Definition waiting3 (st : state) (R : list pid) : Prop :=
  exists rs, promises st !! p3 = Some (Pending rs) /\
             Forall (fun x => exists r, r ∈ R /\ x = adopt r) rs.

Definition pending1 (st : state) : Prop :=
  promises st !! p1 = Some (Pending [rx (HOnOk c k opts1) p2]).

Definition pending2 (st : state) : Prop :=
  promises st !! p2 = Some (Pending [rx (HOnErr c k) p3]).

Definition installed (st : state) : Prop :=
  entry st c k = Some (JPromise p3).

Definition ran (st : state) : Prop :=
  factory_log st = factory_log st0 ++ [fname f1].

Inductive ext_done (st : state) : Prop :=
  | ext_none : externals st = externals st0 -> ext_done st
  | ext_some q o :
      externals st = q :: externals st0 ->
      promises st !! q = Some (Settled o) -> ext_done st.

Inductive phase (st : state) (R : list pid) : Prop :=
  | PhA :
      chain st = [JReact (rx (HFactory f1) p1) (Ful VUndefined)] ->
      pending1 st -> pending2 st -> waiting3 st R -> installed st ->
      factory_log st = factory_log st0 -> externals st = externals st0 ->
      phase st R
  | PhB q :
      chain st = [JThenable p1 q] ->
      pending1 st -> pending2 st -> waiting3 st R -> installed st ->
      ran st -> externals st = q :: externals st0 ->
      n + 5 <= q -> q ∉ R ->
      (promises st !! q = Some (Pending []) \/
       exists o, promises st !! q = Some (Settled o)) ->
      phase st R
  | PhC q :
      chain st = [] ->
      pending1 st -> pending2 st -> waiting3 st R -> installed st ->
      ran st -> externals st = q :: externals st0 ->
      n + 5 <= q -> q ∉ R ->
      promises st !! q = Some (Pending [adopt p1]) ->
      phase st R
  | PhD o :
      chain st = [JReact (adopt p1) o] ->
      pending1 st -> pending2 st -> waiting3 st R -> installed st ->
      ran st -> ext_done st ->
      phase st R
  | PhE o :
      chain st = [JReact (rx (HOnOk c k opts1) p2) o] ->
      promises st !! p1 = Some (Settled o) ->
      pending2 st -> waiting3 st R -> installed st ->
      ran st -> ext_done st ->
      phase st R
  | PhF o :
      chain st = [JReact (rx (HOnErr c k) p3) o] ->
      promises st !! p1 = Some (Settled o) ->
      promises st !! p2 = Some (Settled o) ->
      waiting3 st R ->
      ran st -> ext_done st ->
      phase st R
  | PhG o :
      chain st = [] ->
      promises st !! p1 = Some (Settled o) ->
      promises st !! p2 = Some (Settled o) ->
      promises st !! p3 = Some (Settled o) ->
      ran st -> ext_done st ->
      phase st R.

Record inv (st : state) (R : list pid) : Prop := {
  inv_range : Forall (fun r => r = n \/ n + 5 <= r) R;
  inv_phase : phase st R;
  inv_jobs : Forall (fun j => is_chain j = true \/ follower st R j) (queue st);
  inv_callers : Forall (caller_ok st) R
}.

End Creation.

(** *** Growth of the heap and of the queue *)

(** The heap only grows, and a settled promise stays settled. *)
Definition heap_le (st st' : state) : Prop :=
  length (promises st) <= length (promises st') /\
  forall p o, promises st !! p = Some (Settled o) ->
              promises st' !! p = Some (Settled o).

(** Inside one call or one job, jobs are only added, at the end of the
    queue. *)
Definition grows (st st' : state) : Prop :=
  heap_le st st' /\ queue st `prefix_of` queue st'.

Definition mono {A} (m : M A) : Prop := forall st, grows st (m st).2.

(** *** Who may settle a promise

    A reaction or a job that can settle promise [r] is a capability on [r].
    [clean] says that every capability on [r] in the state is [allowed];
    [Side] says where [r] is in its life, and [Exit] that it has left that
    stage. *)

Section Capabilities.
Context (r : pid) (allowed : reaction -> Prop) (Side Exit : state -> Prop).

Definition rx_ok (x : reaction) : Prop := target x = r -> allowed x.

Definition job_ok (j : job) : Prop :=
  match j with
  | JThenable r' _ => r' <> r
  | JReact x _ => rx_ok x
  end.

Definition cell_ok (cl : cell) : Prop :=
  match cl with
  | Pending rs => Forall rx_ok rs
  | Settled _ => True
  end.

Record clean (st : state) : Prop := {
  clean_queue : Forall job_ok (queue st);
  clean_cells : Forall cell_ok (promises st);
  clean_ext : r ∉ externals st;
  clean_aggs : Forall (fun g => result g <> r) (aggs st)
}.

Definition guarded (st : state) : Prop := Side st /\ clean st.

Definition on_val {A} (G : A -> Prop) (x : res A) : Prop :=
  match x with
  | Val a => G a
  | Thrown _ => True
  end.

Definition safe {A} (G : A -> Prop) (m : M A) : Prop :=
  forall st, guarded st -> (guarded (m st).2 /\ on_val G (m st).1) \/ Exit (m st).2.

Definition any {A} : A -> Prop := fun _ => True.
Definition other : pid -> Prop := fun d => d <> r.

End Capabilities.

(** No reaction is allowed on a promise that does not exist yet. *)
Definition nobody (x : reaction) : Prop := False.

(** Nothing in the state refers to a promise that is not in the heap. *)
Definition wf (st : state) : Prop :=
  forall r, length (promises st) <= r -> clean r nobody st.

(** The reaction that runs the rest of [disposeAll] after its [await]. *)
Definition resume (c : cid) (r : pid) (x : reaction) : Prop :=
  x = rx (HDisposeResume c) r.

Definition pending (r : pid) (st : state) : Prop :=
  exists rs, promises st !! r = Some (Pending rs).

(** [r] is pending, and only the rest of [disposeAll] can settle it. *)
Definition owned (c : cid) (r : pid) (st : state) : Prop :=
  guarded r (resume c r) (pending r) st.

Definition never (st : state) : Prop := False.

(** *** Calls of disposers *)

(** The log entries of calling the disposers [ds], in order. *)
Definition invoked (ds : list thunk) : list (nat * value) :=
  map (fun d => (dname (dispose_fn d), bound d)) ds.

(** With the log [log] behind it, the next call of [d] throws [e]. *)
Definition throws_at (log : list (nat * value)) (d : thunk) (e : value) : Prop :=
  dbehaviour (dispose_fn d) (bound d)
    (length (filter (fun x => fst x = dname (dispose_fn d)) log)) = DThrow e.

(** None of the first [k] disposers of [ds] throws when they are called in
    order with the log [log] behind them. *)
Definition quiet (log : list (nat * value)) (ds : list thunk) (k : nat) : Prop :=
  forall i d e, i < k -> ds !! i = Some d ->
    ~ throws_at (log ++ invoked (take i ds)) d e.

(** [st'] differs from [st] in the promise heap, the queue and the
    [allSettled] counters at most. *)
Definition same_user (st st' : state) : Prop :=
  containers st' = containers st /\ dispose_log st' = dispose_log st /\
  factory_log st' = factory_log st /\ externals st' = externals st.

(** [m] works on the promise heap, the queue and the counters only. *)
Definition internal {A} (m : M A) : Prop := forall st, same_user st (m st).2.

(** [m] does not throw. *)
Definition returns {A} (m : M A) : Prop := forall st, exists a, (m st).1 = Val a.

(** No call of [d] throws. *)
Definition never_throws (d : thunk) : Prop :=
  forall n e, dbehaviour (dispose_fn d) (bound d) n <> DThrow e.

End Minimal.


(** ** The container with a registration step (first version in
    [src/container.ts])

    [register(token, factory, options)] stores how to build a value and
    [resolve(token)] builds it. *)

Module Registry.

Abbreviation cid := nat.

Record FactoryOptions := { dispose : option disposer }.

(** [type RegisteredFactory = () => T | Promise<T>]: a factory given to
    [register], or the closure [() => value] made by [registerValue]. *)
Inductive RegisteredFactory :=
  | Given (f : Js.factory)
  | Constant (v : value).

Record Registration := {
  factory : RegisteredFactory;
  options : option FactoryOptions;
  isSingleton : bool
}.

(** An element of [disposers]. *)
Record pending_disposer := { instancePromise : pid; disposeFn : disposer }.

Record Container := {
  registrations : gmap symbol Registration;
  resolvedInstances : gmap symbol pid;
  disposers : list pending_disposer
}.

Definition empty_container : Container :=
  {| registrations := ∅; resolvedInstances := ∅; disposers := [] |}.

Inductive handler :=
  | HFactory (f : RegisteredFactory)          (* [() => factory()] *)
  | HValue                                    (* [value => value] *)
  | HCatch (c : cid) (k : symbol) (single : bool)
      (* the [catch] callback of [resolve]; its [instancePromise] is the
         promise that [catch] returns, the reaction's target *)
  | HAwaitInstance (d : disposer)
      (* the rest of the [map] callback of [disposeAll] after its [await] *)
  | HDispose (d : disposer) (v : value)       (* [() => disposeFn(instance)] *)
  | HDisposeResume (c : cid) (disposePromises : list pid).
      (* the rest of [disposeAll] after its [await] *)

Abbreviation state := (Runtime.state handler Container).
Abbreviation M := (Runtime.M handler Container).

Definition this (c : cid) (st : state) : Container :=
  default empty_container (containers st !! c).

Definition update (c : cid) (f : Container -> Container) : M unit :=
  modify (set_containers (alter f c)).

Definition set_registrations
    (f : gmap symbol Registration -> gmap symbol Registration)
    (x : Container) : Container :=
  {| registrations := f (registrations x);
     resolvedInstances := resolvedInstances x; disposers := disposers x |}.

Definition set_resolvedInstances (f : gmap symbol pid -> gmap symbol pid)
    (x : Container) : Container :=
  {| registrations := registrations x;
     resolvedInstances := f (resolvedInstances x); disposers := disposers x |}.

Definition set_disposers (f : list pending_disposer -> list pending_disposer)
    (x : Container) : Container :=
  {| registrations := registrations x;
     resolvedInstances := resolvedInstances x; disposers := f (disposers x) |}.

Definition quote : string := String (Ascii.ascii_of_nat 34) EmptyString.

Definition already_registered (k : symbol) : string :=
  "DI Container: Token " +:+ description k +:+ " already registered. Overwriting.".

Definition no_registration (k : symbol) : string :=
  "DI Container: No registration found for token " +:+ quote +:+
  description k +:+ quote +:+ ".".

Definition warn_if_registered (c : cid) (k : symbol) : M unit :=
  let* known := gets (fun st => registrations (this c st) !! k) in
  match known with
  | Some _ => console_log (already_registered k) []
  | None => ret tt
  end.

(** [register(t, factory, options)] *)
Definition register (c : cid) (t : InjectionToken) (f : Js.factory)
    (opts : option FactoryOptions) : M unit :=
  warn_if_registered c (key t) ;;
  update c (set_registrations (insert (key t)
    {| factory := Given f; options := opts; isSingleton := true |})) ;;
  update c (set_resolvedInstances (delete (key t))).

(** [registerValue(t, value, options)] *)
Definition registerValue (c : cid) (t : InjectionToken) (v : value)
    (opts : option FactoryOptions) : M unit :=
  warn_if_registered c (key t) ;;
  update c (set_registrations (insert (key t)
    {| factory := Constant v; options := opts; isSingleton := true |})) ;;
  let* instancePromise := Promise_resolve (JVal v) in
  update c (set_resolvedInstances (insert (key t) instancePromise)) ;;
  match opts with
  | Some {| dispose := Some d |} =>
      update c (set_disposers (fun l =>
        l ++ [{| instancePromise := instancePromise; disposeFn := d |}]))
  | _ => ret tt
  end.

(** The first arguments of the two [console.error] calls of [disposeAll]. *)
Definition dispose_error : string :=
  "DI Container: Error during dispose for an instance related to token (description might be lost):".

Definition dispose_failed : string := "DI Container: A dispose function failed:".

(** [results.forEach(result => { if (result.status === 'rejected')
    console.error(..., result.reason) })].  The record [results[i]] says how
    [disposePromises[i]] settled; when [allSettled] has fulfilled its
    promise every one of them is settled for good, so the callback is
    given the promises and reads the settlement of each. *)
Definition report_failures (disposePromises : list pid) : M unit :=
  array_map (fun p =>
    let* result := gets (fun st => promises st !! p) in
    match result with
    | Some (Settled (Rej reason)) => console_log dispose_failed [reason]
    | _ => ret tt
    end) disposePromises ;;
  ret tt.

Definition call_factory (f : RegisteredFactory) : M jsval :=
  match f with
  | Given g => invoke_factory g
  | Constant v => ret (JVal v)
  end.

Definition run_handler (h : handler) (tgt : pid) (o : outcome) : M jsval :=
  match h, o with
  | HFactory f, Ful _ => call_factory f
  | HValue, Ful v => ret (JVal v)
  | HCatch c k single, Rej e =>
      (if single then update c (set_resolvedInstances (delete k)) else ret tt) ;;
      update c (set_disposers
        (filter (fun d => instancePromise d <> tgt))) ;;
      throw e
  | HCatch _ _ _, Ful v => ret (JVal v)
  | HAwaitInstance d, Ful instance =>
      let* p0 := Promise_resolve (JVal VUndefined) in
      let* p := then_ p0 (HUser (HDispose d instance)) in
      ret (JPromise p)
  | HAwaitInstance d, Rej e =>
      console_log dispose_error [e] ;;
      let* p := Promise_reject e in
      ret (JPromise p)
  | HDispose d v, Ful _ => invoke_disposer d v
  | HDisposeResume c disposePromises, Ful _ =>
      report_failures disposePromises ;;
      update c (set_resolvedInstances (fun _ => ∅)) ;;
      ret (JVal VUndefined)
  | _, Rej e => throw e
  end.

(** [async resolve<T>(t)] *)
Definition resolve (c : cid) (t : InjectionToken) : M pid :=
  async_fn (fun r =>
    let* cached := gets (fun st => resolvedInstances (this c st) !! key t) in
    match cached with
    | Some p => resolve_promise r (JPromise p)
    | None =>
        let* registration := gets (fun st => registrations (this c st) !! key t) in
        match registration with
        | None => throw (VError (no_registration (key t)))
        | Some reg =>
            let* p0 := Promise_resolve (JVal VUndefined) in
            let* p1 := then_ p0 (HUser (HFactory (factory reg))) in
            let* p2 := then_ p1 (HUser HValue) in
            let* instancePromise :=
              then_ p2 (HUser (HCatch c (key t) (isSingleton reg))) in
            (if isSingleton reg then
               update c (set_resolvedInstances (insert (key t) instancePromise)) ;;
               match options reg with
               | Some {| dispose := Some d |} =>
                   update c (set_disposers (fun l =>
                     l ++ [{| instancePromise := instancePromise;
                              disposeFn := d |}]))
               | _ => ret tt
               end
             else ret tt) ;;
            resolve_promise r (JPromise instancePromise)
        end
    end).

(** [async disposeAll()] *)
Definition disposeAll (c : cid) : M pid :=
  async_fn (fun r =>
    let* currentDisposers := gets (fun st => disposers (this c st)) in
    update c (set_disposers (fun _ => [])) ;;
    let* disposePromises :=
      array_map (fun d =>
        async_fn (fun r' =>
          await_ (instancePromise d) (HAwaitInstance (disposeFn d)) r'))
        currentDisposers in
    let* all := Promise_allSettled (map JPromise disposePromises) in
    await_ all (HDisposeResume c disposePromises) r).

(** [createScope()] *)
Definition createScope (c : cid) : M cid :=
  let* child := (fun st => (Val (length (containers st)),
                            set_containers (fun l => l ++ [empty_container]) st)) in
  let* parent := gets (this c) in
  update child (set_resolvedInstances (fun _ => resolvedInstances parent)) ;;
  update child (set_registrations (fun _ => registrations parent)) ;;
  ret child.

Definition init : state :=
  {| promises := []; queue := []; containers := [empty_container];
     aggs := []; next_symbol := 0; externals := [];
     factory_log := []; dispose_log := []; console := [] |}.

Definition outcome_of (st : state) (p : pid) : option outcome :=
  match promises st !! p with
  | Some (Settled o) => Some o
  | _ => None
  end.

(** *** Concrete programs *)

Definition T0 : InjectionToken := {| key := Symbol 0 "db" |}.

Definition NUMBER : InjectionToken := {| key := Symbol 0 "number" |}.

Definition OTHER : InjectionToken := {| key := Symbol 1 "other" |}.

Definition disposing (d : disposer) : option FactoryOptions :=
  Some {| dispose := Some d |}.

(** Two tokens are registered with a disposer each, the first of which
    throws when called, and both are resolved. *)
Definition two_resolved (faulty close : disposer) (seven one : Js.factory) : state :=
  ticks run_handler 10
    (exec (resolve 0 OTHER)
      (exec (resolve 0 NUMBER)
        (exec (register 0 OTHER one (disposing close))
          (exec (register 0 NUMBER seven (disposing faulty)) init)))).

(** ** Events and vocabulary *)

(** Jobs, heap cells and reactions that carry the closures of this class. *)
Abbreviation job := (Runtime.job handler).
Abbreviation cell := (Runtime.cell handler).
Abbreviation reaction := (Runtime.reaction handler).

(** What can happen next: a call from user code, a turn of the microtask
    loop, or the environment settling a promise that a callback returned. *)
Inductive event :=
  | ERegister (c : cid) (t : InjectionToken) (f : Js.factory) (opts : option FactoryOptions)
  | ERegisterValue (c : cid) (t : InjectionToken) (v : value) (opts : option FactoryOptions)
  | EResolve (c : cid) (t : InjectionToken)
  | EDisposeAll (c : cid)
  | ECreateScope (c : cid)
  | ETick
  | ESettle (q : pid) (o : outcome).

(** One event, from state to state; what a call returns or throws is read
    from the heap afterwards. *)
Definition step (ev : event) (st : state) : state :=
  match ev with
  | ERegister c t f opts => exec (register c t f opts) st
  | ERegisterValue c t v opts => exec (registerValue c t v opts) st
  | EResolve c t => exec (resolve c t) st
  | EDisposeAll c => exec (disposeAll c) st
  | ECreateScope c => exec (createScope c) st
  | ETick => exec (tick run_handler) st
  | ESettle q o => exec (env_settle q o) st
  end.

(** The events of [tr], first to last. *)
Definition run (tr : list event) (st : state) : state :=
  fold_left (fun s ev => step ev s) tr st.

(** The reaction that runs the closure [h] and settles [d] with its
    result, and the reaction by which [r] follows another promise. *)
Definition rx (h : handler) (d : pid) : reaction :=
  {| Runtime.handler := HUser h; target := d |}.

Definition adopt (r : pid) : reaction :=
  {| Runtime.handler := HAdopt; target := r |}.

(** The disposer that the options name, if any: [options?.dispose]. *)
Definition dispose_of (opts : option FactoryOptions) : option disposer :=
  match opts with
  | Some o => dispose o
  | None => None
  end.

(** The cache entry and the registration of a key. *)
Definition cached (st : state) (c : cid) (k : symbol) : option pid :=
  resolvedInstances (this c st) !! k.

Definition registered (st : state) (c : cid) (k : symbol) : option Registration :=
  registrations (this c st) !! k.

(** The turns that take the creation started by a [resolve] with [k]
    waiting callers to its end; [q] is the promise that an asynchronous
    factory returned. *)
Definition attempt (w : Minimal.how) (q : pid) (o : outcome) (k : nat) : list event :=
  match w with
  | Minimal.Sync => repeat ETick (3 + 2 * k)
  | Minimal.Async => repeat ETick (2 + k) ++ ESettle q o :: repeat ETick (3 + k)
  end.

(** The state once the pending promise [p], with reactions [rs], has been
    settled with [o]; once the first job has left the queue; once [f] has
    been called. *)
Definition settled (p : pid) (o : outcome) (rs : list reaction) (st : state) : state :=
  set_queue (fun q => q ++ map (fun r => JReact r o) rs)
    (set_promises (fun h => <[p := Settled o]> h) st).

Definition pop (q : list job) (st : state) : state := set_queue (fun _ => q) st.

Definition called (f : Js.factory) (st : state) : state :=
  set_factory_log (fun l => l ++ [fname f]) st.

(** How often [f] has been called. *)
Definition times_called (f : Js.factory) (st : state) : nat :=
  count_occ Nat.eq_dec (factory_log st) (fname f).

(** What [resolve] does to the container when it starts a creation whose
    promise is [p]: the promise is cached and the disposer, if the
    registration names one, is listed at once. *)
Definition begun (k : symbol) (reg : Registration) (p : pid) (x : Container) : Container :=
  if isSingleton reg then
    match dispose_of (options reg) with
    | Some d =>
        set_disposers (fun l => l ++ [{| instancePromise := p; disposeFn := d |}])
          (set_resolvedInstances (insert k p) x)
    | None => set_resolvedInstances (insert k p) x
    end
  else x.

(** The state after the synchronous part of a [resolve] that starts a
    creation. *)
Definition after_miss (c : cid) (k : symbol) (reg : Registration) (st : state) : state :=
  let n := length (promises st) in
  set_queue (fun q => q ++ [JReact (rx (HFactory (factory reg)) (n + 2)) (Ful VUndefined);
                            JThenable n (n + 4)])
    (set_containers (alter (begun k reg (n + 4)) c)
      (set_promises (fun h => h ++ [Pending []; Settled (Ful VUndefined);
                                    Pending [rx HValue (n + 3)];
                                    Pending [rx (HCatch c k (isSingleton reg)) (n + 4)];
                                    Pending []]) st)).

(** What the [catch] callback of a failed creation does to the container. *)
Definition failed (k : symbol) (single : bool) (p : pid) (x : Container) : Container :=
  set_disposers (filter (fun d => instancePromise d <> p))
    (if single then set_resolvedInstances (delete k) x else x).

(** The container once the creation started with promise [p] has
    completed. *)
Definition completed (k : symbol) (reg : Registration) (p : pid) (o : outcome)
    (x : Container) : Container :=
  match o with
  | Ful _ => begun k reg p x
  | Rej _ => failed k (isSingleton reg) p (begun k reg p x)
  end.

(** The state at the end of a creation with one caller, started in a
    state with an empty queue. *)
Definition finished (w : Minimal.how) (c : cid) (k : symbol) (reg : Registration)
    (f : Js.factory) (o : outcome) (st : state) : state :=
  {| promises := promises st ++
       [Settled o; Settled (Ful VUndefined); Settled o; Settled o; Settled o] ++
       match w with Minimal.Sync => [] | Minimal.Async => [Settled o] end;
     queue := [];
     containers := alter (completed k reg (length (promises st) + 4) o) c (containers st);
     aggs := aggs st;
     next_symbol := next_symbol st;
     externals := match w with
                  | Minimal.Sync => externals st
                  | Minimal.Async => (length (promises st) + 5) :: externals st
                  end;
     factory_log := factory_log st ++ [fname f];
     dispose_log := dispose_log st;
     console := console st |}.

(** [fails_once] is registered for [NUMBER] on the global container, with a
    disposer. *)
Definition registered_once : state :=
  step (ERegister 0 NUMBER Minimal.fails_once (disposing Minimal.close)) init.

(** [zero], the factory [() => 0], is registered for [NUMBER]. *)
Definition registered_zero : state :=
  step (ERegister 0 NUMBER Minimal.zero None) init.

(** The line that [register] and [registerValue] write when the token is
    registered already. *)
Definition warning (x : Container) (k : symbol) : list (string * list value) :=
  match registrations x !! k with
  | Some _ => [(already_registered k, [])]
  | None => []
  end.

(** The disposer entry that a call with options [opts] lists for the
    instance promise [p]. *)
Definition listed (opts : option FactoryOptions) (p : pid) : list pending_disposer :=
  match dispose_of opts with
  | Some d => [{| instancePromise := p; disposeFn := d |}]
  | None => []
  end.

(** The container that [createScope] makes from [x]. *)
Definition scope_of (x : Container) : Container :=
  {| registrations := registrations x; resolvedInstances := resolvedInstances x;
     disposers := [] |}.

(** [seven] is registered for [NUMBER], with a disposer. *)
Definition registered_seven : state :=
  step (ERegister 0 NUMBER Minimal.seven (disposing Minimal.close)) init.

(** The element callback of [Promise.allSettled] for counter [a]. *)
Definition elem (a : nat) (d : pid) : reaction :=
  {| Runtime.handler := HSettledElem a; target := d |}.

(** How often [d] has been called. *)
Definition times_disposed (d : disposer) (st : state) : nat :=
  length (filter (fun x => fst x = dname d) (dispose_log st)).

(** The turns that take a [disposeAll] with one disposer, whose instance is
    there, to its end; [q] is the promise that an asynchronous disposer
    returned and [o] how the environment settles it. *)
Definition disposal (b : dres) (q : pid) (o : outcome) : list event :=
  match b with
  | DAsync => repeat ETick 4 ++ ESettle q o :: repeat ETick 4
  | _ => repeat ETick 6
  end.

(** What [results.forEach] writes for promises that settled as [os]. *)
Definition failures (os : list outcome) : list (string * list value) :=
  flat_map (fun o => match o with
                     | Rej reason => [(dispose_failed, [reason])]
                     | Ful _ => []
                     end) os.

(** The turns after the environment has settled the promise of the creation
    function, up to the end of the [disposeAll] that waited for it. *)
Definition awaited (o : outcome) : list event :=
  match o with
  | Ful _ => repeat ETick 10
  | Rej _ => repeat ETick 9
  end.

(** [slow] is registered for [NUMBER] on the global container, with the
    disposer [close]. *)
Definition registered_slow : state :=
  step (ERegister 0 NUMBER Minimal.slow (disposing Minimal.close)) init.

End Registry.

(** ** Environment loading ([src/loadenv.ts]) *)

Module Loadenv.

(** [Record<string, unknown>] *)
Abbreviation env := (gmap string value).

(** A schema of the external validation library, seen through the one
    method the loader calls: [parse] returns the typed value or throws a
    validation error. *)
Record schema (T : Type) := { parse : env -> res T }.
Arguments parse {T} s e.

(** [loadenv(schema, envSource?)]; [process_env] is [process.env]. *)
Definition loadenv {T} (s : schema T) (envSource : option env)
    (process_env : env) : res T :=
  let env := default process_env envSource in
  parse s env.


(** *** A schema of strings

    The schema of the repository's tests,
    [envSchema({ FOO: z.string(), BAR: z.string() })], as an instance to try
    the loader on: every listed key must hold a string, and the typed
    mapping keeps the listed keys only. *)

Definition is_string (x : option value) : bool :=
  match x with
  | Some (VStr _) => true
  | _ => false
  end.

Definition validation_error : value := VError "ZodError".

Definition strings (keys : list string) : schema env :=
  {| parse := fun e =>
       if forallb (fun k => is_string (e !! k)) keys
       then Val (filter (fun kv => kv.1 ∈ keys) e)
       else Thrown validation_error |}.


Definition FOO_BAR : list string := ["FOO"; "BAR"].

(** [{ FOO: 'foo', BAR: 'bar' }], [{ FOO: 'foo' }] and
    [{ FOO: 'foo', BAR: 123 }] *)
Definition complete : env := {[ "FOO" := VStr "foo"; "BAR" := VStr "bar" ]}.

Definition incomplete : env := {[ "FOO" := VStr "foo" ]}.

Definition mistyped : env := {[ "FOO" := VStr "foo"; "BAR" := VNum 123 ]}.

End Loadenv.

(** * Properties *)

(** ** Frame lemmas *)

Section Frame.
Context {H C X : Type} (proj : state H C -> X).

Local Abbreviation keeps := (keeps proj).
Local Abbreviation heap_independent := (heap_independent proj).
Local Abbreviation ind_promises := (ind_promises proj).
Local Abbreviation ind_queue := (ind_queue proj).
Local Abbreviation ind_aggs := (ind_aggs proj).
Local Abbreviation ind_externals := (ind_externals proj).
Local Abbreviation ind_factory_log := (ind_factory_log proj).
Local Abbreviation ind_dispose_log := (ind_dispose_log proj).
Local Abbreviation ind_console := (ind_console proj).

Lemma keeps_ret {A} (a : A) : keeps (ret a).
Proof. intros st; reflexivity. Qed.

Lemma keeps_throw {A} e : keeps (@throw H C A e).
Proof. intros st; reflexivity. Qed.

Lemma keeps_gets {A} (f : state H C -> A) : keeps (gets f).
Proof. intros st; reflexivity. Qed.

Lemma keeps_bind {A B} (m : M H C A) (k : A -> M H C B) :
  keeps m -> (forall a, keeps (k a)) -> keeps (bind m k).
Proof.
  intros Hm Hk st. unfold bind. specialize (Hm st).
  destruct (m st) as [[a|e] st']; simpl in *; [rewrite Hk|]; exact Hm.
Qed.

Lemma keeps_try_catch {A} (m : M H C A) h :
  keeps m -> (forall e, keeps (h e)) -> keeps (try_catch m h).
Proof.
  intros Hm Hh st. unfold try_catch. specialize (Hm st).
  destruct (m st) as [[a|e] st']; simpl in *; [|rewrite Hh]; exact Hm.
Qed.

Lemma keeps_array_map {A B} (f : A -> M H C B) l :
  (forall a, keeps (f a)) -> keeps (array_map f l).
Proof.
  intros Hf. induction l as [|a l IH]; simpl.
  - apply keeps_ret.
  - apply keeps_bind; [apply Hf|]. intros b.
    apply keeps_bind; [apply IH|]. intros bs. apply keeps_ret.
Qed.

Lemma keeps_modify (f : state H C -> state H C) :
  (forall st, proj (f st) = proj st) -> keeps (modify f).
Proof. intros Hf st. apply Hf. Qed.

Hypothesis Hind : heap_independent.

Lemma keeps_enqueue j : keeps (enqueue j).
Proof. apply keeps_modify. intros st. apply Hind. Qed.

Lemma keeps_new_promise c : keeps (new_promise c).
Proof. intros st. apply (ind_promises Hind). Qed.

Lemma keeps_settle p o : keeps (settle p o).
Proof.
  intros st. unfold settle.
  destruct (promises st !! p) as [[rs|o']|]; simpl; try reflexivity.
  rewrite (ind_queue Hind). apply (ind_promises Hind).
Qed.

Lemma keeps_register p rx : keeps (register p rx).
Proof.
  intros st. unfold register.
  destruct (promises st !! p) as [[rs|o']|]; simpl; try reflexivity.
  - apply (ind_promises Hind).
  - apply (ind_queue Hind).
Qed.

Lemma keeps_resolve_promise p x : keeps (resolve_promise p x).
Proof. destruct x; [apply keeps_settle | apply keeps_enqueue]. Qed.

Lemma keeps_then p h : keeps (then_ p h).
Proof.
  apply keeps_bind; [apply keeps_new_promise|]. intros d.
  apply keeps_bind; [apply keeps_register|]. intros _. apply keeps_ret.
Qed.

Lemma keeps_Promise_resolve x : keeps (Promise_resolve x).
Proof. destruct x; [apply keeps_new_promise | apply keeps_ret]. Qed.

Lemma keeps_Promise_reject e : keeps (Promise_reject e).
Proof. apply keeps_new_promise. Qed.

Lemma keeps_console_log line args : keeps (console_log line args).
Proof. apply keeps_modify. intros st. apply Hind. Qed.

Lemma keeps_new_agg n r : keeps (new_agg n r).
Proof. intros st. apply (ind_aggs Hind). Qed.

Lemma keeps_settled_elem a : keeps (settled_elem a).
Proof.
  intros st. unfold settled_elem.
  destruct (aggs st !! a) as [g|]; [|reflexivity].
  destruct (_ =? 0); simpl.
  - rewrite keeps_settle. apply (ind_aggs Hind).
  - apply (ind_aggs Hind).
Qed.

Lemma keeps_Promise_allSettled xs : keeps (Promise_allSettled xs).
Proof.
  apply keeps_bind; [apply keeps_new_promise|]. intros r.
  apply keeps_bind; [apply keeps_new_agg|]. intros a.
  apply keeps_bind.
  { apply keeps_array_map. intros x.
    apply keeps_bind; [apply keeps_Promise_resolve|]. intros p.
    apply keeps_then. }
  intros _. apply keeps_bind; [|intros _; apply keeps_ret].
  destruct (_ =? 0); [apply keeps_settle | apply keeps_ret].
Qed.

Lemma keeps_async_fn body :
  (forall r, keeps (body r)) -> keeps (async_fn body).
Proof.
  intros Hb. apply keeps_bind; [apply keeps_new_promise|]. intros r.
  apply keeps_bind; [|intros _; apply keeps_ret].
  apply keeps_try_catch; [apply Hb|]. intros e. apply keeps_settle.
Qed.

Lemma keeps_await p h r : keeps (await_ p h r).
Proof. apply keeps_register. Qed.

Lemma keeps_invoke_factory f : keeps (invoke_factory f).
Proof.
  apply keeps_bind; [apply keeps_gets|]. intros n.
  apply keeps_bind; [apply keeps_modify; intros st; apply Hind|]. intros _.
  destruct (behaviour f n); [apply keeps_ret | apply keeps_throw |].
  apply keeps_bind; [apply keeps_new_promise|]. intros q.
  apply keeps_bind; [apply keeps_modify; intros st; apply Hind|]. intros _.
  apply keeps_ret.
Qed.

Lemma keeps_invoke_disposer d v : keeps (invoke_disposer d v).
Proof.
  apply keeps_bind; [apply keeps_gets|]. intros n.
  apply keeps_bind; [apply keeps_modify; intros st; apply Hind|]. intros _.
  destruct (dbehaviour d v n); [apply keeps_ret | apply keeps_throw |].
  apply keeps_bind; [apply keeps_new_promise|]. intros q.
  apply keeps_bind; [apply keeps_modify; intros st; apply Hind|]. intros _.
  apply keeps_ret.
Qed.

Lemma keeps_env_settle q o : keeps (env_settle q o).
Proof.
  intros st. unfold env_settle.
  destruct (bool_decide _); [apply keeps_settle | reflexivity].
Qed.

(** The event loop keeps what the program's callbacks keep. *)
Lemma keeps_tick (run_handler : H -> pid -> outcome -> M H C jsval) :
  (forall h t o, keeps (run_handler h t o)) -> keeps (tick run_handler).
Proof.
  intros Hh st. unfold tick. destruct (queue st) as [|j q] eqn:Hq; [reflexivity|].
  assert (Hj : keeps (run_job run_handler j)).
  { destruct j as [[h t] o|r p]; simpl; [|apply keeps_register].
    unfold run_reaction; simpl. destruct h as [|a|h].
    - apply keeps_settle.
    - apply keeps_bind; [apply keeps_settled_elem|]. intros _. apply keeps_settle.
    - apply keeps_try_catch; [|intros e; apply keeps_settle].
      apply keeps_bind; [apply Hh|]. intros x. apply keeps_resolve_promise. }
  rewrite Hj. apply (ind_queue Hind).
Qed.

End Frame.

Ltac st_simpl :=
  unfold set_promises, set_queue, set_containers, set_aggs, set_next_symbol,
    set_externals, set_factory_log, set_dispose_log, set_console in *;
  cbn [promises queue containers aggs next_symbol externals factory_log
       dispose_log console fst snd] in *.

Ltac keeps_step Hind :=
  first
    [ apply keeps_ret | apply keeps_throw | apply keeps_gets
    | apply (keeps_enqueue _ Hind) | apply (keeps_new_promise _ Hind)
    | apply (keeps_settle _ Hind) | apply (keeps_register _ Hind)
    | apply (keeps_resolve_promise _ Hind) | apply (keeps_then _ Hind)
    | apply (keeps_Promise_resolve _ Hind) | apply (keeps_Promise_reject _ Hind)
    | apply (keeps_console_log _ Hind) | apply (keeps_Promise_allSettled _ Hind)
    | apply (keeps_await _ Hind) | apply (keeps_invoke_factory _ Hind)
    | apply (keeps_invoke_disposer _ Hind) | apply (keeps_env_settle _ Hind)
    | apply (keeps_async_fn _ Hind); intros ?
    | apply keeps_bind; [|intros ?]
    | apply keeps_try_catch; [|intros ?]
    | apply keeps_array_map; intros ?
    | match goal with
      | |- keeps _ (match ?x with _ => _ end) => destruct x
      | |- keeps _ (if ?x then _ else _) => destruct x
      end ].

(** ** The container without registration *)

Module MinimalFacts.
Import Minimal.

Lemma next_symbol_independent : heap_independent (@next_symbol handler Container).
Proof. split; reflexivity. Qed.

Section Keeps.
Context {X : Type} (proj : state -> X).
Hypothesis Hind : heap_independent proj.

Local Abbreviation ignores := (ignores proj).

Lemma keeps_update c f : ignores c -> keeps proj (update c f).
Proof. intros Hc. apply keeps_modify. intros st. apply Hc. Qed.

Lemma keeps_run_handler h t o :
  (forall c, ignores c) -> keeps proj (run_handler h t o).
Proof.
  intros Hc. destruct h, o; simpl;
    unfold singletons_set, singletons_delete, singletons_clear, disposers_push;
    repeat first [ apply keeps_update; [apply Hc] | keeps_step Hind ].
Qed.

Lemma keeps_resolve c t f opts : ignores c -> keeps proj (resolve c t f opts).
Proof.
  intros Hc. unfold resolve, singletons_get, singletons_set.
  repeat first [ apply keeps_update; [apply Hc] | keeps_step Hind ].
Qed.

Lemma keeps_disposeAll c : keeps proj (disposeAll c).
Proof. unfold disposeAll. repeat keeps_step Hind. Qed.

End Keeps.

Lemma step_next_symbol ev st : next_symbol st <= next_symbol (step ev st).
Proof.
  pose proof next_symbol_independent as Hind.
  assert (Hc : forall c, ignores (@next_symbol handler Container) c) by (intros c f s; reflexivity).
  destruct ev; simpl; unfold exec.
  - simpl. lia.
  - rewrite (keeps_resolve _ Hind); [lia | apply Hc].
  - rewrite (keeps_disposeAll _ Hind); lia.
  - simpl. lia.
  - rewrite (keeps_tick _ Hind); [lia|]. intros. apply keeps_run_handler; assumption.
  - rewrite (keeps_env_settle _ Hind); lia.
Qed.

Lemma run_next_symbol tr st : next_symbol st <= next_symbol (run tr st).
Proof.
  revert st. induction tr as [|ev tr IH]; intros st; simpl; [lia|].
  etransitivity; [apply (step_next_symbol ev)|apply IH].
Qed.

(** *** Operational rules: what one call or one microtask does *)

Lemma settle_pending (st : state) p o rs :
  promises st !! p = Some (Pending rs) ->
  settle p o st = (Val tt, settled p o rs st).
Proof. intros Hp. unfold settle. rewrite Hp. reflexivity. Qed.

Lemma settle_settled (st : state) p o o' :
  promises st !! p = Some (Settled o') ->
  settle p o st = (Val tt, st).
Proof. intros Hp. unfold settle. rewrite Hp. reflexivity. Qed.

Lemma settle_val (st : state) p o :
  settle p o st = (Val tt, exec (settle p o) st).
Proof.
  unfold exec, settle. destruct (promises st !! p) as [[rs|o']|]; reflexivity.
Qed.

Lemma register_val (st : state) p r :
  register p r st = (Val tt, exec (register p r) st).
Proof.
  unfold exec, register. destruct (promises st !! p) as [[rs|o']|]; reflexivity.
Qed.

Lemma register_pending (st : state) p r rs :
  promises st !! p = Some (Pending rs) ->
  register p r st = (Val tt, set_promises (fun h => <[p := Pending (rs ++ [r])]> h) st).
Proof. intros Hp. unfold register. rewrite Hp. reflexivity. Qed.

Lemma register_settled (st : state) p r o :
  promises st !! p = Some (Settled o) ->
  register p r st = (Val tt, set_queue (fun q => q ++ [JReact r o]) st).
Proof. intros Hp. unfold register. rewrite Hp. reflexivity. Qed.

Lemma lookup_new {A} (h l : list A) i : (h ++ l) !! (length h + i) = l !! i.
Proof. rewrite lookup_app_r by lia. f_equal. lia. Qed.
Lemma lookup_new0 {A} (h l : list A) : (h ++ l) !! (length h) = l !! 0.
Proof. rewrite <- (lookup_new h l 0). f_equal. lia. Qed.
Lemma insert_new {A} (h l : list A) i x : <[length h + i := x]> (h ++ l) = h ++ <[i := x]> l.
Proof. rewrite insert_app_r. reflexivity. Qed.
Lemma insert_new0 {A} (h l : list A) x : <[length h := x]> (h ++ l) = h ++ <[0 := x]> l.
Proof. rewrite <- (insert_new h l 0). f_equal. lia. Qed.

Ltac heap_norm :=
  repeat first
    [ rewrite length_app
    | rewrite <- app_assoc
    | rewrite <- Nat.add_assoc
    | rewrite lookup_new
    | rewrite lookup_new0
    | rewrite insert_new
    | rewrite insert_new0 ]; cbn [length app Nat.add].

Lemma then_pending_fresh (st : state) p h rs :
  promises st !! p = Some (Pending rs) ->
  then_ p h st =
    (Val (length (promises st)),
     set_promises (fun l => <[p := Pending (rs ++ [{| Runtime.handler := h; target := length (promises st) |}])]> (l ++ [Pending []])) st).
Proof.
  intros Hp. unfold then_, bind, new_promise, ret.
  erewrite register_pending.
  2:{ st_simpl. apply lookup_app_l_Some, Hp. }
  reflexivity.
Qed.

Lemma then_settled (st : state) p h o :
  promises st !! p = Some (Settled o) ->
  then_ p h st =
    (Val (length (promises st)),
     set_queue (fun q => q ++ [JReact {| Runtime.handler := h; target := length (promises st) |} o])
       (set_promises (fun l => l ++ [Pending []]) st)).
Proof.
  intros Hp. unfold then_, bind, new_promise, ret.
  erewrite register_settled.
  2:{ st_simpl. apply lookup_app_l_Some, Hp. }
  reflexivity.
Qed.

Lemma resolve_miss st c t f opts :
  truthy (default (JVal VUndefined) (entry st c (key t))) = false ->
  resolve c t f opts st = (Val (length (promises st)), after_miss c (key t) f opts st).
Proof.
  intros Hfalsy. unfold entry in Hfalsy.
  destruct st as [h q cs ag ns ex fl dl co].
  unfold resolve, async_fn.
  unfold bind at 1. unfold new_promise at 1. st_simpl.
  unfold bind at 1. unfold try_catch at 1. unfold bind at 1.
  unfold singletons_get, gets. unfold this in *. st_simpl. rewrite Hfalsy.
  unfold Promise_resolve, bind at 1, new_promise at 1. st_simpl.
  unfold bind at 1.
  rewrite (then_settled _ _ _ (Ful VUndefined)).
  2:{ st_simpl. heap_norm. reflexivity. }
  st_simpl. heap_norm.
  unfold bind at 1.
  rewrite (then_pending_fresh _ _ _ []).
  2:{ st_simpl. heap_norm. reflexivity. }
  st_simpl. heap_norm.
  unfold bind at 1.
  rewrite (then_pending_fresh _ _ _ []).
  2:{ st_simpl. heap_norm. reflexivity. }
  st_simpl. heap_norm.
  unfold bind at 1. unfold singletons_set, update, modify. st_simpl.
  unfold resolve_promise, enqueue, modify, ret. st_simpl.
  unfold after_miss. st_simpl. rewrite <- app_assoc. reflexivity.
Qed.

(** A [resolve] that finds a promise in the cache returns a promise that
    adopts it; the factory and the options of this call are dropped. *)
Lemma resolve_hit_promise (st : state) c t f opts p :
  entry st c (key t) = Some (JPromise p) ->
  resolve c t f opts st =
    (Val (length (promises st)),
     set_queue (fun q => q ++ [JThenable (length (promises st)) p])
       (set_promises (fun h => h ++ [Pending []]) st)).
Proof.
  intros He. unfold entry in He.
  destruct st as [h q cs ag ns ex fl dl co].
  unfold resolve, async_fn.
  unfold bind at 1. unfold new_promise at 1. st_simpl.
  unfold bind at 1. unfold try_catch at 1. unfold bind at 1.
  unfold singletons_get, gets. unfold this in *. st_simpl. rewrite He.
  reflexivity.
Qed.

(** A [resolve] that finds a truthy plain value returns a promise
    fulfilled with it. *)
Lemma resolve_hit_value (st : state) c t f opts v :
  entry st c (key t) = Some (JVal v) -> truthy_value v = true ->
  resolve c t f opts st =
    (Val (length (promises st)),
     set_promises (fun h => h ++ [Settled (Ful v)]) st).
Proof.
  intros He Hv. unfold entry in He.
  destruct st as [h q cs ag ns ex fl dl co].
  unfold resolve, async_fn.
  unfold bind at 1. unfold new_promise at 1. st_simpl.
  unfold bind at 1. unfold try_catch at 1. unfold bind at 1.
  unfold singletons_get, gets. unfold this in *. st_simpl. rewrite He.
  cbn [default from_option id truthy]. rewrite Hv.
  unfold resolve_promise. erewrite settle_pending by (st_simpl; heap_norm; reflexivity).
  unfold settled, ret. st_simpl. heap_norm. cbn. rewrite app_nil_r. reflexivity.
Qed.

(** **** Microtasks *)

Abbreviation tick := (Runtime.tick run_handler).

Lemma tick_idle (st : state) : queue st = [] -> exec tick st = st.
Proof. intros Hq. unfold exec, Runtime.tick. rewrite Hq. reflexivity. Qed.

Lemma tick_thenable (st : state) r p q :
  queue st = JThenable r p :: q ->
  exec tick st = exec (register p (adopt r)) (pop q st).
Proof. intros Hq. unfold exec, Runtime.tick. rewrite Hq. reflexivity. Qed.

Lemma tick_adopt (st : state) r o q :
  queue st = JReact (adopt r) o :: q ->
  exec tick st = exec (settle r o) (pop q st).
Proof. intros Hq. unfold exec, Runtime.tick. rewrite Hq. reflexivity. Qed.

Lemma tick_factory_return (st : state) f d u q v :
  queue st = JReact (rx (HFactory f) d) (Ful u) :: q ->
  behaviour f (times_called f st) = FReturn v ->
  exec tick st = exec (settle d (Ful v)) (called f (pop q st)).
Proof.
  intros Hq Hb. unfold exec, Runtime.tick. rewrite Hq.
  unfold run_job, run_reaction, try_catch, bind; cbn [Runtime.handler target rx run_handler].
  unfold invoke_factory, bind, gets, modify. unfold times_called in Hb.
  st_simpl. rewrite Hb. unfold ret, resolve_promise.
  rewrite settle_val. reflexivity.
Qed.

Lemma tick_factory_throw (st : state) f d u q e :
  queue st = JReact (rx (HFactory f) d) (Ful u) :: q ->
  behaviour f (times_called f st) = FThrow e ->
  exec tick st = exec (settle d (Rej e)) (called f (pop q st)).
Proof.
  intros Hq Hb. unfold exec, Runtime.tick. rewrite Hq.
  unfold run_job, run_reaction, try_catch, bind; cbn [Runtime.handler target rx run_handler].
  unfold invoke_factory, bind, gets, modify. unfold times_called in Hb.
  st_simpl. rewrite Hb. unfold throw.
  rewrite settle_val. reflexivity.
Qed.

(** An asynchronous factory hands back a new promise, owned by the
    environment; the target adopts it in a later microtask. *)
Lemma tick_factory_async (st : state) f d u q :
  queue st = JReact (rx (HFactory f) d) (Ful u) :: q ->
  behaviour f (times_called f st) = FAsync ->
  exec tick st =
    set_queue (fun _ => q ++ [JThenable d (length (promises st))])
      (set_externals (fun l => length (promises st) :: l)
        (set_promises (fun h => h ++ [Pending []]) (called f st))).
Proof.
  intros Hq Hb. unfold exec, Runtime.tick. rewrite Hq.
  unfold run_job, run_reaction, try_catch, bind; cbn [Runtime.handler target rx run_handler].
  unfold invoke_factory, bind, gets, modify. unfold times_called in Hb.
  st_simpl. rewrite Hb. reflexivity.
Qed.

Lemma tick_factory_rej (st : state) f d e q :
  queue st = JReact (rx (HFactory f) d) (Rej e) :: q ->
  exec tick st = exec (settle d (Rej e)) (pop q st).
Proof.
  intros Hq. unfold exec, Runtime.tick. rewrite Hq.
  unfold run_job, run_reaction, try_catch, bind, throw, ret;
    cbn [Runtime.handler target rx run_handler]; unfold throw, ret, resolve_promise.
  rewrite settle_val. reflexivity.
Qed.

Lemma tick_onok_ful (st : state) c k opts d v q :
  queue st = JReact (rx (HOnOk c k opts) d) (Ful v) :: q ->
  exec tick st =
    exec (settle d (Ful v)) (set_containers (alter (stored k opts v) c) (pop q st)).
Proof.
  intros Hq. unfold exec, Runtime.tick. rewrite Hq.
  unfold run_job, run_reaction, try_catch, bind; cbn [Runtime.handler target rx run_handler].
  unfold singletons_set, disposers_push, update, modify, bind, ret, stored.
  destruct (dispose opts); st_simpl; [rewrite list_alter_alter_eq|];
    unfold resolve_promise; rewrite settle_val; reflexivity.
Qed.

Lemma tick_onok_rej (st : state) c k opts d e q :
  queue st = JReact (rx (HOnOk c k opts) d) (Rej e) :: q ->
  exec tick st = exec (settle d (Rej e)) (pop q st).
Proof.
  intros Hq. unfold exec, Runtime.tick. rewrite Hq.
  unfold run_job, run_reaction, try_catch, bind, throw, ret;
    cbn [Runtime.handler target rx run_handler]; unfold throw, ret, resolve_promise.
  rewrite settle_val. reflexivity.
Qed.

Lemma tick_onerr_ful (st : state) c k d v q :
  queue st = JReact (rx (HOnErr c k) d) (Ful v) :: q ->
  exec tick st = exec (settle d (Ful v)) (pop q st).
Proof.
  intros Hq. unfold exec, Runtime.tick. rewrite Hq.
  unfold run_job, run_reaction, try_catch, bind, throw, ret;
    cbn [Runtime.handler target rx run_handler]; unfold throw, ret, resolve_promise.
  rewrite settle_val. reflexivity.
Qed.

Lemma tick_onerr_rej (st : state) c k d e q :
  queue st = JReact (rx (HOnErr c k) d) (Rej e) :: q ->
  exec tick st =
    exec (settle d (Rej e))
      (set_containers (alter (set_singletons (delete k)) c) (pop q st)).
Proof.
  intros Hq. unfold exec, Runtime.tick. rewrite Hq.
  unfold run_job, run_reaction, try_catch, bind;
    cbn [Runtime.handler target rx run_handler].
  unfold singletons_delete, update, modify, bind, throw. st_simpl.
  rewrite settle_val. reflexivity.
Qed.

Lemma tick_resume_ful (st : state) c d v q :
  queue st = JReact (rx (HDisposeResume c) d) (Ful v) :: q ->
  exec tick st =
    exec (settle d (Ful VUndefined))
      (set_containers (alter (fun _ => empty_container) c) (pop q st)).
Proof.
  intros Hq. unfold exec, Runtime.tick. rewrite Hq.
  unfold run_job, run_reaction, try_catch, bind; cbn [Runtime.handler target rx run_handler].
  unfold singletons_clear, update, modify, bind, ret. st_simpl.
  rewrite list_alter_alter_eq. unfold resolve_promise. rewrite settle_val.
  reflexivity.
Qed.

Lemma tick_resume_rej (st : state) c d e q :
  queue st = JReact (rx (HDisposeResume c) d) (Rej e) :: q ->
  exec tick st = exec (settle d (Rej e)) (pop q st).
Proof.
  intros Hq. unfold exec, Runtime.tick. rewrite Hq.
  unfold run_job, run_reaction, try_catch, bind, throw, ret;
    cbn [Runtime.handler target rx run_handler]; unfold throw, ret, resolve_promise.
  rewrite settle_val. reflexivity.
Qed.

Lemma entry_set_ne c k k' x s :
  k <> k' -> entry (exec (singletons_set c k x) s) c k' = entry s c k'.
Proof.
  intros Hk. unfold entry, this, exec, singletons_set, update, modify, set_containers; cbn [snd containers].
  rewrite list_lookup_alter_eq. match goal with |- context [?l !! c] => destruct (l !! c) end; simpl; [|reflexivity].
  apply lookup_insert_ne, Hk.
Qed.

Lemma entry_delete_ne c k k' s :
  k <> k' -> entry (exec (singletons_delete c k) s) c k' = entry s c k'.
Proof.
  intros Hk. unfold entry, this, exec, singletons_delete, update, modify, set_containers; cbn [snd containers].
  rewrite list_lookup_alter_eq. match goal with |- context [?l !! c] => destruct (l !! c) end; simpl; [|reflexivity].
  apply lookup_delete_ne, Hk.
Qed.

(** C8. Every call of [token] returns an identity that differs from the
    one returned by any other call, whatever happens in between and also
    when both calls are given the same label; two such tokens are different
    objects, and writing or deleting the cache entry of one never changes
    the cache entry of the other, in any container. *)
Theorem token_identity_fresh st desc1 desc2 tr t1 st1 t2 st2 :
  token desc1 st = (Val t1, st1) ->
  token desc2 (run tr st1) = (Val t2, st2) ->
  key t1 <> key t2 /\ t1 <> t2 /\
  forall c x s,
    entry (exec (singletons_set c (key t1) x) s) c (key t2) = entry s c (key t2) /\
    entry (exec (singletons_set c (key t2) x) s) c (key t1) = entry s c (key t1) /\
    entry (exec (singletons_delete c (key t1)) s) c (key t2) = entry s c (key t2) /\
    entry (exec (singletons_delete c (key t2)) s) c (key t1) = entry s c (key t1).
Proof.
  intros H1 H2. unfold token, fresh_symbol, bind, ret in H1, H2.
  injection H1 as <- <-. injection H2 as <- _.
  assert (Hne : forall d1 d2, Symbol (next_symbol st) d1 <>
                         Symbol (next_symbol (run tr (set_next_symbol S st))) d2).
  { intros d1 d2 Heq. injection Heq as Heq _.
    pose proof (run_next_symbol tr (set_next_symbol S st)) as Hle.
    simpl in Hle. lia. }
  simpl. split; [apply Hne|]. split; [intros Heq; apply (Hne desc1 desc2); congruence|].
  intros c x s.
  repeat split;
    first [ apply entry_set_ne | apply entry_delete_ne ];
    first [ apply Hne | intros Heq; symmetry in Heq; revert Heq; apply Hne ].
Qed.

Lemma token_identity_fresh_witness :
  exists t1 t2 : InjectionToken,
    description (key t1) = description (key t2) /\ key t1 <> key t2.
Proof.
  eexists _, _. split; [|
    eapply (token_identity_fresh init "dup" "dup" [ETick; ECreateScope 0]);
      reflexivity].
  reflexivity.
Defined.
Lemma run_cons ev tr st : run (ev :: tr) st = run tr (step ev st).
Proof. reflexivity. Qed.

Ltac list_compute :=
  repeat match goal with
  | |- context [<[?i := ?x]> (?a :: ?l)] =>
      let r := eval cbv [insert list_insert] in (<[i := x]> (a :: l)) in
      change (<[i := x]> (a :: l)) with r
  | |- context [(?a :: ?l) !! ?i] =>
      let r := eval cbv [lookup list_lookup] in ((a :: l) !! i) in
      change ((a :: l) !! i) with r
  end; cbn [map app length Nat.add].

Ltac st_norm := st_simpl; heap_norm; list_compute.

(* expand [exec (settle p o) st] for a pending [p] *)
Lemma exec_settle_pending (st : state) p o rs :
  promises st !! p = Some (Pending rs) ->
  exec (settle p o) st = settled p o rs st.
Proof. intros Hp. unfold exec. rewrite (settle_pending _ _ _ rs Hp). reflexivity. Qed.

Lemma exec_register_pending (st : state) p r rs :
  promises st !! p = Some (Pending rs) ->
  exec (register p r) st = set_promises (fun h => <[p := Pending (rs ++ [r])]> h) st.
Proof. intros Hp. unfold exec. rewrite (register_pending _ _ _ rs Hp). reflexivity. Qed.

Lemma exec_register_settled (st : state) p r o :
  promises st !! p = Some (Settled o) ->
  exec (register p r) st = set_queue (fun q => q ++ [JReact r o]) st.
Proof. intros Hp. unfold exec. rewrite (register_settled _ _ _ o Hp). reflexivity. Qed.

Ltac side := st_norm; first [reflexivity | eassumption].

Ltac settle_now :=
  erewrite exec_settle_pending by side; unfold settled, called, pop; st_norm.

Ltac do_tick lem :=
  rewrite run_cons; unfold step at 1;
  erewrite lem by side; unfold called, pop; st_norm.

Lemma stored_after_pending k opts v p (x : Container) :
  stored k opts v (set_singletons (insert k (JPromise p)) x) = stored k opts v x.
Proof.
  unfold stored, set_disposers, set_singletons. destruct (dispose opts); simpl;
    rewrite insert_insert_eq; reflexivity.
Qed.

Lemma completed_after_pending k opts o p (x : Container) :
  completed k opts o (set_singletons (insert k (JPromise p)) x) = completed k opts o x.
Proof.
  destruct o; simpl; [apply stored_after_pending|].
  unfold set_singletons; simpl. rewrite delete_insert_eq. reflexivity.
Qed.

Lemma alter_completed k opts o p c (cs : list Container) :
  alter (completed k opts o) c (alter (set_singletons (insert k (JPromise p))) c cs) =
  alter (completed k opts o) c cs.
Proof.
  rewrite list_alter_alter_eq. apply list_alter_ext; [|reflexivity].
  intros x _. apply completed_after_pending.
Qed.

Ltac bd := rewrite bool_decide_eq_true_2 by (apply list_elem_of_here).

Lemma attempt_single (st : state) w c C t f opts o :
  queue st = [] ->
  containers st !! c = Some C ->
  truthy (default (JVal VUndefined) (singletons C !! key t)) = false ->
  completes w f (times_called f st) o ->
  run (EResolve c t f opts :: attempt w (length (promises st) + 5) o 1) st =
  finished w c (key t) f opts o st.
Proof.
  intros Hq Hc Hfalsy Hb.
  destruct st as [h q cs ag ns ex fl dl co]. unfold times_called in Hb. st_simpl. subst q.
  unfold finished. st_simpl.
  rewrite run_cons. unfold step at 1, exec.
  rewrite resolve_miss by (unfold entry, this; st_simpl; rewrite Hc; exact Hfalsy).
  unfold after_miss. st_norm.
  destruct w; cbn [attempt repeat app Nat.add Nat.mul].
  - destruct o as [v|e]; simpl in Hb.
    + do_tick tick_factory_return. settle_now.
      do_tick tick_thenable. erewrite exec_register_pending by side. st_norm.
      do_tick tick_onok_ful. settle_now.
      do_tick tick_onerr_ful. settle_now.
      do_tick tick_adopt. settle_now.
      cbn [run fold_left]. rewrite <- (alter_completed (key t) opts (Ful v) (length h + 4) c cs). reflexivity.
    + do_tick tick_factory_throw. settle_now.
      do_tick tick_thenable. erewrite exec_register_pending by side. st_norm.
      do_tick tick_onok_rej. settle_now.
      do_tick tick_onerr_rej. settle_now.
      do_tick tick_adopt. settle_now.
      cbn [run fold_left]. rewrite <- (alter_completed (key t) opts (Rej e) (length h + 4) c cs). reflexivity.
  - simpl in Hb. assert (Hb' : behaviour f (count_occ Nat.eq_dec fl (fname f)) = FAsync)
      by (destruct o; exact Hb). clear Hb.
    do_tick tick_factory_async.
    do_tick tick_thenable. erewrite exec_register_pending by side. st_norm.
    do_tick tick_thenable. erewrite exec_register_pending by side. st_norm.
    rewrite run_cons. unfold step at 1, exec, env_settle. st_norm. bd.
    erewrite settle_pending by side. unfold settled. st_norm.
    do_tick tick_adopt. settle_now.
    destruct o as [v|e].
    + do_tick tick_onok_ful. settle_now.
      do_tick tick_onerr_ful. settle_now.
      do_tick tick_adopt. settle_now.
      cbn [run fold_left]. rewrite <- (alter_completed (key t) opts (Ful v) (length h + 4) c cs). reflexivity.
    + do_tick tick_onok_rej. settle_now.
      do_tick tick_onerr_rej. settle_now.
      do_tick tick_adopt. settle_now.
      cbn [run fold_left]. rewrite <- (alter_completed (key t) opts (Rej e) (length h + 4) c cs). reflexivity.
Qed.



Lemma this_alter_eq c g (cs : list Container) C ag h q ns ex fl dl co :
  cs !! c = Some C ->
  this c {| promises := h; queue := q; containers := alter g c cs; aggs := ag;
            next_symbol := ns; externals := ex; factory_log := fl;
            dispose_log := dl; console := co |} = g C.
Proof. intros Hc. unfold this. st_simpl. rewrite list_lookup_alter_eq, Hc. reflexivity. Qed.




Lemma entry_alter_insert c k x (cs : list Container) C ag h q ns ex fl dl co :
  cs !! c = Some C ->
  entry {| promises := h; queue := q;
           containers := alter (set_singletons (insert k x)) c cs; aggs := ag;
           next_symbol := ns; externals := ex; factory_log := fl;
           dispose_log := dl; console := co |} c k = Some x.
Proof.
  intros Hc. unfold entry. erewrite this_alter_eq by exact Hc.
  apply lookup_insert_eq.
Qed.

(** A failed creation on one container, from a state in which no microtask
    is waiting.  When a creation fails (the factory throws, or the promise it
    returned is rejected), the cache entry of the token is removed and the
    failure reaches every caller waiting for this attempt: the caller that
    started it and a second caller that joined it, whose own factory [g] is
    never run.  The next [resolve] of the token runs its factory afresh; if
    that one succeeds the caller gets its value, and the factories [f] and
    [f'] have run once each, two invocations in all. *)
Theorem failed_creation_is_evicted_and_retried
    (st : state) w c C t f g f' opts opts' opts'' e :
  queue st = [] ->
  containers st !! c = Some C ->
  truthy (default (JVal VUndefined) (singletons C !! key t)) = false ->
  completes w f (times_called f st) (Rej e) ->
  let r1 := length (promises st) in
  let r2 := length (promises st) + 5 in
  let st1 := run (EResolve c t f opts :: EResolve c t g opts' ::
                  attempt w (length (promises st) + 6) (Rej e) 2) st in
  entry st1 c (key t) = None /\
  outcome_of st1 r1 = Some (Rej e) /\
  outcome_of st1 r2 = Some (Rej e) /\
  factory_log st1 = factory_log st ++ [fname f] /\
  forall w' v,
    completes w' f' (times_called f' st1) (Ful v) ->
    let r3 := length (promises st1) in
    let st2 := run (EResolve c t f' opts'' ::
                    attempt w' (length (promises st1) + 5) (Ful v) 1) st1 in
    outcome_of st2 r3 = Some (Ful v) /\
    entry st2 c (key t) = Some (JVal v) /\
    factory_log st2 = factory_log st ++ [fname f; fname f'].
Proof.
  intros Hq Hc Hfalsy Hb. cbv zeta.
  match goal with |- context [run ?tr st] => set (st1 := run tr st) end.
  assert (Hst1 : exists hp ex',
    st1 = {| promises := promises st ++ hp; queue := [];
             containers := alter (set_singletons (delete (key t))) c (containers st);
             aggs := aggs st; next_symbol := next_symbol st; externals := ex';
             factory_log := factory_log st ++ [fname f];
             dispose_log := dispose_log st; console := console st |} /\
    hp !! 0 = Some (Settled (Rej e)) /\ hp !! 5 = Some (Settled (Rej e))).
  { subst st1. revert Hq Hc Hfalsy Hb. destruct st as [h q cs ag ns ex fl dl co].
    unfold times_called. st_simpl. intros -> Hc Hfalsy Hb.
    rewrite run_cons. unfold step at 1, exec.
    rewrite resolve_miss by (unfold entry, this; st_simpl; rewrite Hc; exact Hfalsy).
    unfold after_miss. st_norm.
    rewrite run_cons. unfold step at 1, exec.
    erewrite resolve_hit_promise by (eapply entry_alter_insert; exact Hc). st_norm.
    destruct w; cbn [attempt repeat app Nat.add Nat.mul]; simpl in Hb.
    - do_tick tick_factory_throw. settle_now.
      do_tick tick_thenable. erewrite exec_register_pending by side. st_norm.
      do_tick tick_thenable. erewrite exec_register_pending by side. st_norm.
      do_tick tick_onok_rej. settle_now.
      do_tick tick_onerr_rej. settle_now.
      do_tick tick_adopt. settle_now.
      do_tick tick_adopt. settle_now.
      cbn [run fold_left]. rewrite list_alter_alter_eq.
      eexists _, _. split.
      { f_equal. apply list_alter_ext; [|reflexivity]. intros x _.
        unfold set_singletons; simpl. rewrite delete_insert_eq. reflexivity. }
      split; reflexivity.
    - do_tick tick_factory_async.
      do_tick tick_thenable. erewrite exec_register_pending by side. st_norm.
      do_tick tick_thenable. erewrite exec_register_pending by side. st_norm.
      do_tick tick_thenable. erewrite exec_register_pending by side. st_norm.
      rewrite run_cons. unfold step at 1, exec, env_settle. st_norm. bd.
      erewrite settle_pending by side. unfold settled. st_norm.
      do_tick tick_adopt. settle_now.
      do_tick tick_onok_rej. settle_now.
      do_tick tick_onerr_rej. settle_now.
      do_tick tick_adopt. settle_now.
      do_tick tick_adopt. settle_now.
      cbn [run fold_left]. rewrite list_alter_alter_eq.
      eexists _, _. split.
      { f_equal. apply list_alter_ext; [|reflexivity]. intros x _.
        unfold set_singletons; simpl. rewrite delete_insert_eq. reflexivity. }
      split; reflexivity.
  }
  destruct Hst1 as (hp & ex' & Hst1 & Hr1 & Hr2). clearbody st1. subst st1.
  assert (Hentry : entry {| promises := promises st ++ hp; queue := [];
             containers := alter (set_singletons (delete (key t))) c (containers st);
             aggs := aggs st; next_symbol := next_symbol st; externals := ex';
             factory_log := factory_log st ++ [fname f];
             dispose_log := dispose_log st; console := console st |} c (key t) = None).
  { unfold entry. erewrite this_alter_eq by exact Hc. apply lookup_delete_eq. }
  split; [exact Hentry|].
  split; [unfold outcome_of; st_simpl; rewrite lookup_new0, Hr1; reflexivity|].
  split; [unfold outcome_of; st_simpl; rewrite lookup_new, Hr2; reflexivity|].
  split; [reflexivity|].
  intros w' v Hb'.
  erewrite attempt_single; [| reflexivity | | | exact Hb'].
  2:{ st_simpl. rewrite list_lookup_alter_eq, Hc. reflexivity. }
  2:{ simpl. rewrite lookup_delete_eq. reflexivity. }
  unfold finished. st_simpl.
  split; [|split].
  - unfold outcome_of. st_simpl. rewrite lookup_new0. reflexivity.
  - unfold entry, this. st_simpl. rewrite !list_lookup_alter_eq, Hc. simpl.
    unfold stored. destruct (dispose opts''); simpl; apply lookup_insert_eq.
  - rewrite <- app_assoc. reflexivity.
Qed.

(** *** Concrete runs *)

Lemma failed_creation_is_evicted_and_retried_witness :
  let st1 := run (EResolve 0 NUMBER fails_once no_options ::
                  EResolve 0 NUMBER one no_options :: repeat ETick 7) init in
  let st2 := run (EResolve 0 NUMBER fails_once no_options :: repeat ETick 5) st1 in
  outcome_of st1 0 = Some (Rej boom) /\
  outcome_of st1 5 = Some (Rej boom) /\
  outcome_of st2 6 = Some (Ful (VNum 42)) /\
  factory_log st2 = [4; 4].
Proof.
  destruct (failed_creation_is_evicted_and_retried init Sync 0 empty_container
              NUMBER fails_once one fails_once no_options no_options no_options boom
              eq_refl eq_refl eq_refl eq_refl) as (_ & H1 & H2 & _ & H3).
  destruct (H3 Sync (VNum 42) eq_refl) as (H4 & _ & H5).
  exact (conj H1 (conj H2 (conj H4 H5))).
Defined.


(** A cache entry holding a falsy value does not stop [resolve]: the
    factory of the call is scheduled and run. *)
Lemma falsy_entry_misses (st : state) c t f opts v :
  queue st = [] ->
  entry st c (key t) = Some (JVal v) ->
  truthy_value v = false ->
  exists q,
    queue (exec (resolve c t f opts) st) =
      JReact (rx (HFactory f) (length (promises st) + 2)) (Ful VUndefined) :: q /\
    factory_log (run [EResolve c t f opts; ETick] st) = factory_log st ++ [fname f].
Proof.
  intros Hq He Hv.
  assert (Hmiss : truthy (default (JVal VUndefined) (entry st c (key t))) = false)
    by (rewrite He; exact Hv).
  exists [JThenable (length (promises st)) (length (promises st) + 4)].
  destruct st as [h q cs ag ns ex fl dl co]. st_simpl. subst q.
  unfold exec. rewrite resolve_miss by exact Hmiss.
  unfold after_miss. st_norm. split; [reflexivity|].
  rewrite run_cons. unfold step at 1, exec. rewrite resolve_miss by exact Hmiss.
  unfold after_miss. st_norm.
  rewrite run_cons. unfold step at 1. cbn [run fold_left].
  destruct (behaviour f (count_occ Nat.eq_dec fl (fname f))) as [v'|e|] eqn:Hb.
  - erewrite tick_factory_return by side. unfold called, pop. st_norm.
    settle_now. reflexivity.
  - erewrite tick_factory_throw by side. unfold called, pop. st_norm.
    settle_now. reflexivity.
  - erewrite tick_factory_async by side. unfold called. st_norm. reflexivity.
Qed.

(** C2 (failing input). The token holds the cache entry [0], created by
    [() => 0].  A second [resolve], given [() => 1], does not return the
    entry: it runs [() => 1], the caller gets [1], and the entry is
    overwritten.  The check [if (existing)] takes a falsy value for a
    missing entry. *)
Theorem falsy_value_is_created_again :
  let st1 := run (EResolve 0 NUMBER zero no_options :: repeat ETick 5) init in
  let st2 := run (EResolve 0 NUMBER one no_options :: repeat ETick 5) st1 in
  entry st1 0 (key NUMBER) = Some (JVal (VNum 0)) /\
  factory_log st1 = [fname zero] /\
  factory_log st2 = [fname zero; fname one] /\
  outcome_of st2 5 = Some (Ful (VNum 1)) /\
  entry st2 0 (key NUMBER) = Some (JVal (VNum 1)).
Proof. vm_compute. repeat split. Qed.

(** C5 (failing input). Two disposers are registered, the first of which
    throws in the call itself.  [disposeAll] calls the first one, the
    exception leaves [this.disposers.map(fn => fn())], the second disposer is
    never called, the promise of [disposeAll] is rejected, and neither the
    cache nor the disposer list is cleared. *)
Theorem throwing_disposer_aborts_disposeAll :
  let st1 := run (EResolve 0 NUMBER seven (with_dispose faulty) :: repeat ETick 5 ++
                  EResolve 0 OTHER one (with_dispose close) :: repeat ETick 5) init in
  let st2 := run (EDisposeAll 0 :: repeat ETick 5) st1 in
  disposers (this 0 st1) =
    [{| dispose_fn := faulty; bound := VNum 7 |};
     {| dispose_fn := close; bound := VNum 1 |}] /\
  dispose_log st2 = [(dname faulty, VNum 7)] /\
  outcome_of st2 10 = Some (Rej boom) /\
  queue st2 = [] /\
  containers st2 = containers st1.
Proof. vm_compute. repeat split. Qed.

(** With disposers that return, the same calls run both of them and clear
    the container. *)
Lemma returning_disposers_all_run :
  let st1 := run (EResolve 0 NUMBER seven (with_dispose close) :: repeat ETick 5 ++
                  EResolve 0 OTHER one (with_dispose close) :: repeat ETick 5) init in
  let st2 := run (EDisposeAll 0 :: repeat ETick 3) st1 in
  dispose_log st2 = [(dname close, VNum 7); (dname close, VNum 1)] /\
  outcome_of st2 10 = Some (Ful VUndefined) /\
  this 0 st2 = empty_container.
Proof. vm_compute. repeat split. Qed.

(** C7 (failing input). The parent has resolved the token to [0].  A scope
    created afterwards receives the entry, but [resolve] in the scope runs
    the factory given there and yields [1], not the parent's [0]. *)
Theorem scope_recreates_falsy_parent_value :
  let st1 := run (EResolve 0 NUMBER zero no_options :: repeat ETick 5 ++
                  [ECreateScope 0]) init in
  let st2 := run (EResolve 1 NUMBER one no_options :: repeat ETick 5) st1 in
  entry st1 0 (key NUMBER) = Some (JVal (VNum 0)) /\
  entry st1 1 (key NUMBER) = Some (JVal (VNum 0)) /\
  factory_log st2 = [fname zero; fname one] /\
  outcome_of st2 5 = Some (Ful (VNum 1)) /\
  entry st2 0 (key NUMBER) = Some (JVal (VNum 0)) /\
  entry st2 1 (key NUMBER) = Some (JVal (VNum 1)).
Proof. vm_compute. repeat split. Qed.

(** C1 (failing input). A creation is started with the asynchronous factory
    [slow] and [disposeAll] completes while it is in flight.  A first caller
    then resolves the token with [later], which installs a new pending entry
    and calls [later]; its promise stays pending.  Now the promise of the
    earlier creation is fulfilled with [9]: its callback stores [9] under
    the key, over the pending entry.  A second caller, arriving before the
    first caller's creation function has completed, finds [9] and is
    fulfilled with it; the first caller gets [1] when [later] completes.
    The two callers do not share an outcome. *)
Theorem stale_creation_splits_concurrent_callers :
  let st1 := run (EResolve 0 NUMBER slow no_options :: EDisposeAll 0 ::
                  repeat ETick 4) init in
  let st2 := run (EResolve 0 NUMBER later no_options :: repeat ETick 3) st1 in
  let st3 := run (ESettle 7 (Ful (VNum 9)) :: repeat ETick 4) st2 in
  let st4 := step (EResolve 0 NUMBER one no_options) st3 in
  let st5 := run (ESettle 13 (Ful (VNum 1)) :: repeat ETick 4) st4 in
  (outcome_of st1 5 = Some (Ful VUndefined) /\ this 0 st1 = empty_container /\
   externals st1 = [7] /\ outcome_of st1 7 = None /\ queue st1 = []) /\
  (entry st2 0 (key NUMBER) = Some (JPromise 12) /\
   factory_log st2 = [fname slow; fname later] /\
   externals st2 = [13; 7] /\ queue st2 = []) /\
  (entry st3 0 (key NUMBER) = Some (JVal (VNum 9)) /\
   outcome_of st3 13 = None /\ outcome_of st3 8 = None /\ queue st3 = []) /\
  (outcome_of st4 14 = Some (Ful (VNum 9)) /\ outcome_of st4 8 = None) /\
  (outcome_of st5 8 = Some (Ful (VNum 1)) /\
   outcome_of st5 14 = Some (Ful (VNum 9)) /\
   outcome_of st5 0 = Some (Ful (VNum 9)) /\
   factory_log st5 = [fname slow; fname later] /\ queue st5 = []).
Proof. vm_compute. repeat split. Qed.

(** C3 (failing input). [resolve] starts a creation with the factory that
    fails on its first call, and a scope is created before the factory has
    run: the scope receives a copy of the pending entry.  The creation
    fails; the [catch] callback deletes the entry of the container that
    started the creation and nothing else.  In the scope the entry stays,
    a rejected promise now: every later [resolve] of the token there is
    rejected with the old error, and the factory it is given never runs. *)
Theorem failed_creation_stays_in_scope :
  let st1 := run (EResolve 0 NUMBER fails_once no_options :: ECreateScope 0 ::
                  repeat ETick 5) init in
  let st2 := run (EResolve 1 NUMBER fails_once no_options :: repeat ETick 2) st1 in
  let st3 := run (EResolve 1 NUMBER fails_once no_options :: repeat ETick 2) st2 in
  (outcome_of st1 0 = Some (Rej boom) /\ queue st1 = [] /\
   factory_log st1 = [fname fails_once] /\
   entry st1 0 (key NUMBER) = None /\
   entry st1 1 (key NUMBER) = Some (JPromise 4) /\
   outcome_of st1 4 = Some (Rej boom)) /\
  (outcome_of st2 5 = Some (Rej boom) /\ queue st2 = [] /\
   factory_log st2 = [fname fails_once] /\
   entry st2 1 (key NUMBER) = Some (JPromise 4)) /\
  (outcome_of st3 6 = Some (Rej boom) /\ queue st3 = [] /\
   factory_log st3 = [fname fails_once] /\
   entry st3 1 (key NUMBER) = Some (JPromise 4)).
Proof. vm_compute. repeat split. Qed.

(** On one container, a creation left in flight by [disposeAll] has the
    same effect on a retry: the failed attempt is evicted, then the earlier
    creation stores its value, and the next [resolve] returns that value
    without running its factory. *)
Lemma stale_value_replaces_retry :
  let st1 := run (EResolve 0 NUMBER slow no_options :: EDisposeAll 0 ::
                  repeat ETick 4) init in
  let st2 := run (EResolve 0 NUMBER fails_once no_options :: repeat ETick 5) st1 in
  let st3 := run (ESettle 7 (Ful (VNum 9)) :: repeat ETick 4) st2 in
  let st4 := step (EResolve 0 NUMBER fails_once no_options) st3 in
  (outcome_of st2 8 = Some (Rej boom) /\ entry st2 0 (key NUMBER) = None /\
   queue st2 = []) /\
  entry st3 0 (key NUMBER) = Some (JVal (VNum 9)) /\
  outcome_of st4 13 = Some (Ful (VNum 9)) /\
  factory_log st4 = [fname slow; fname fails_once].
Proof. vm_compute. repeat split. Qed.

(** C4 (failing input). The calls of C5: the first of two disposers throws
    in the call itself.  [disposeAll] completes, by rejection, and the
    statements after its [await] have not run: both cache entries and both
    disposers are still there, and a [resolve] of a token resolved before
    returns the old value without calling the creation function it is
    given. *)
Theorem rejected_disposeAll_keeps_container :
  let st1 := run (EResolve 0 NUMBER seven (with_dispose faulty) :: repeat ETick 5 ++
                  EResolve 0 OTHER one (with_dispose close) :: repeat ETick 5) init in
  let st2 := run (EDisposeAll 0 :: repeat ETick 5) st1 in
  let st3 := run (EResolve 0 NUMBER zero no_options :: repeat ETick 5) st2 in
  (outcome_of st2 10 = Some (Rej boom) /\ queue st2 = []) /\
  (entry st2 0 (key NUMBER) = Some (JVal (VNum 7)) /\
   entry st2 0 (key OTHER) = Some (JVal (VNum 1)) /\
   disposers (this 0 st2) =
     [{| dispose_fn := faulty; bound := VNum 7 |};
      {| dispose_fn := close; bound := VNum 1 |}]) /\
  (outcome_of st3 11 = Some (Ful (VNum 7)) /\ queue st3 = [] /\
   factory_log st3 = factory_log st2 /\
   factory_log st3 = [fname seven; fname one]).
Proof. vm_compute. repeat split. Qed.

(** *** Scopes *)

Lemma this_independent c : heap_independent (this c).
Proof. split; reflexivity. Qed.

Lemma this_ignores c c' : c' <> c -> ignores (this c) c'.
Proof.
  intros Hne f st. unfold this. simpl.
  rewrite list_lookup_alter_ne by exact Hne. reflexivity.
Qed.

Lemma run_handler_elsewhere c h t o :
  names h <> Some c -> keeps (this c) (run_handler h t o).
Proof.
  pose proof (this_independent c) as Hind.
  intros Hn. destruct h as [f|c' k opts|c' k|c'], o as [v|e]; simpl in *;
    unfold singletons_set, singletons_delete, singletons_clear, disposers_push;
    repeat first [ apply keeps_update; [apply this_ignores; congruence]
                 | keeps_step Hind ].
Qed.

Lemma run_job_elsewhere c j :
  job_names j <> Some c -> keeps (this c) (run_job run_handler j).
Proof.
  pose proof (this_independent c) as Hind.
  intros Hn. destruct j as [[h t] o|r p]; simpl in *; [|keeps_step Hind].
  unfold run_reaction; simpl. destruct h as [|a|h].
  - keeps_step Hind.
  - apply keeps_bind; [apply (keeps_settled_elem _ Hind)|]. intros _. keeps_step Hind.
  - apply keeps_try_catch; [|intros e; keeps_step Hind].
    apply keeps_bind; [apply run_handler_elsewhere, Hn|]. intros x. keeps_step Hind.
Qed.

(** The new container holds a copy of the parent's mapping and no disposer;
    every other container is as it was. *)
Lemma createScope_snapshot (st : state) c :
  c < length (containers st) ->
  let child := length (containers st) in
  exists st',
    createScope c st = (Val child, st') /\
    singletons (this child st') = singletons (this c st) /\
    disposers (this child st') = [] /\
    forall c', c' <> child -> this c' st' = this c' st.
Proof.
  intros Hc child.
  assert (H1 : (containers st ++ [empty_container]) !! child = Some empty_container)
    by (apply list_lookup_middle; reflexivity).
  assert (H2 : (containers st ++ [empty_container]) !! c = containers st !! c)
    by (apply lookup_app_l, Hc).
  eexists. split; [reflexivity|].
  unfold this, update, modify, bind, gets, ret. simpl. fold child.
  repeat split.
  - rewrite list_lookup_alter_eq, H1, H2. reflexivity.
  - rewrite list_lookup_alter_eq, H1. reflexivity.
  - intros c' Hne. rewrite list_lookup_alter_ne by congruence.
    destruct (decide (c' < child)) as [Hlt|Hge].
    + rewrite lookup_app_l by exact Hlt. reflexivity.
    + rewrite !lookup_ge_None_2; [reflexivity|fold child; lia|].
      rewrite length_app. simpl. fold child. lia.
Qed.

(** X3. Calls on other containers, the creation of a scope, closures of
    other containers run by the loop and promises settled by the
    environment leave the mapping and the disposer list of [c] as they
    are. *)
Lemma other_containers_untouched c ev st :
  elsewhere c ev st -> this c (step ev st) = this c st.
Proof.
  pose proof (this_independent c) as Hind.
  destruct ev as [d|c' t f opts|c'|c'| |q o]; simpl; unfold exec; intros He.
  - reflexivity.
  - apply (keeps_resolve _ Hind), this_ignores, He.
  - apply (keeps_disposeAll _ Hind).
  - unfold createScope, this, update, modify, bind, gets, ret. simpl.
    rewrite list_lookup_alter_ne by congruence.
    destruct (decide (c < length (containers st))) as [Hlt|Hge].
    + rewrite lookup_app_l by exact Hlt. reflexivity.
    + rewrite !lookup_ge_None_2; [reflexivity|lia|]. rewrite length_app. simpl. lia.
  - unfold Runtime.tick. destruct (queue st) as [|j q] eqn:Hq; [reflexivity|].
    rewrite (run_job_elsewhere c j (He j q eq_refl)). reflexivity.
  - apply (keeps_env_settle _ Hind).
Qed.

Lemma other_containers_untouched_witness :
  let st := step (ECreateScope 0) (run disposed_run init) in
  let ev := EResolve 1 OTHER one (with_dispose faulty) in
  elsewhere 0 ev st /\ this 0 (step ev st) = this 0 st.
Proof.
  assert (H : elsewhere 0 (EResolve 1 OTHER one (with_dispose faulty))
                (step (ECreateScope 0) (run disposed_run init)))
    by (simpl; lia).
  split; [exact H|].
  exact (other_containers_untouched 0 _ _ H).
Defined.

(** X4. A token that the parent has resolved to a truthy value resolves in
    a new scope to that value at once; the factory given to the scope's
    [resolve] does not run and nothing else changes. *)
Lemma scope_inherits_truthy_value (st : state) c t v f opts :
  c < length (containers st) ->
  entry st c (key t) = Some (JVal v) ->
  truthy_value v = true ->
  let st1 := step (ECreateScope c) st in
  let st2 := step (EResolve (length (containers st)) t f opts) st1 in
  outcome_of st2 (length (promises st)) = Some (Ful v) /\
  st2 = set_promises (fun h => h ++ [Settled (Ful v)]) st1.
Proof.
  intros Hc He Hv st1 st2.
  destruct (createScope_snapshot st c Hc) as (st' & Hs & Hm & _ & _).
  assert (H1 : st1 = st') by (unfold st1; simpl; unfold exec; rewrite Hs; reflexivity).
  assert (Hp : promises st1 = promises st) by reflexivity.
  assert (He1 : entry st1 (length (containers st)) (key t) = Some (JVal v)).
  { unfold entry. rewrite H1, Hm. exact He. }
  assert (H2 : st2 = set_promises (fun h => h ++ [Settled (Ful v)]) st1).
  { unfold st2. simpl. unfold exec. rewrite (resolve_hit_value _ _ _ _ _ _ He1 Hv). reflexivity. }
  split; [|exact H2]. rewrite H2. unfold outcome_of. simpl. rewrite <- Hp.
  rewrite list_lookup_middle by reflexivity. reflexivity.
Qed.

Lemma scope_inherits_truthy_value_witness :
  let st := run disposed_run init in
  let st1 := step (ECreateScope 0) st in
  let st2 := step (EResolve (length (containers st)) NUMBER one no_options) st1 in
  outcome_of st2 (length (promises st)) = Some (Ful (VNum 7)) /\
  st2 = set_promises (fun h => h ++ [Settled (Ful (VNum 7))]) st1.
Proof.
  apply (scope_inherits_truthy_value (run disposed_run init) 0 NUMBER (VNum 7) one
           no_options); vm_compute; first [reflexivity | lia].
Defined.

(** *** Concurrent callers *)

Section Concurrent.
Context (st0 : state) (c : cid) (t : InjectionToken) (f1 : factory)
  (opts1 : FactoryOptions).

Let n := length (promises st0).
Let p1 := n + 2.
Let p2 := n + 3.
Let p3 := n + 4.
Let k := key t.

Local Abbreviation is_chain := (is_chain p1).
Local Abbreviation chain := (chain p1).
Local Abbreviation follower := (follower p3).
Local Abbreviation caller_ok := (caller_ok p3).
Local Abbreviation waiting3 := (waiting3 p3).
Local Abbreviation pending1 := (pending1 c k opts1 p1 p2).
Local Abbreviation pending2 := (pending2 c k p2 p3).
Local Abbreviation installed := (installed c k p3).
Local Abbreviation ran := (ran st0 f1).
Local Abbreviation ext_done := (ext_done st0).
Local Abbreviation ext_none := (ext_none st0).
Local Abbreviation ext_some := (ext_some st0).
Local Abbreviation phase := (phase st0 c k f1 opts1 n p1 p2 p3).
Local Abbreviation PhA := (PhA st0 c k f1 opts1 n p1 p2 p3).
Local Abbreviation PhB := (PhB st0 c k f1 opts1 n p1 p2 p3).
Local Abbreviation PhC := (PhC st0 c k f1 opts1 n p1 p2 p3).
Local Abbreviation PhD := (PhD st0 c k f1 opts1 n p1 p2 p3).
Local Abbreviation PhE := (PhE st0 c k f1 opts1 n p1 p2 p3).
Local Abbreviation PhF := (PhF st0 c k f1 opts1 n p1 p2 p3).
Local Abbreviation PhG := (PhG st0 c k f1 opts1 n p1 p2 p3).
Local Abbreviation inv := (inv st0 c k f1 opts1 n p1 p2 p3).
Local Abbreviation inv_range := (inv_range st0 c k f1 opts1 n p1 p2 p3).
Local Abbreviation inv_phase := (inv_phase st0 c k f1 opts1 n p1 p2 p3).
Local Abbreviation inv_jobs := (inv_jobs st0 c k f1 opts1 n p1 p2 p3).
Local Abbreviation inv_callers := (inv_callers st0 c k f1 opts1 n p1 p2 p3).

(** Lookups in the heap after a step. *)
Lemma lookup_push {A} (l : list A) x p y :
  l !! p = Some y -> (l ++ [x]) !! p = Some y.
Proof. apply lookup_app_l_Some. Qed.

Lemma lookup_put_ne {A} (l : list A) p p' x y :
  l !! p = Some y -> p' <> p -> <[p' := x]> l !! p = Some y.
Proof. intros Hl Hne. rewrite list_lookup_insert_ne by exact Hne. exact Hl. Qed.

Lemma lookup_put_eq {A} (l : list A) p x y :
  l !! p = Some y -> <[p := x]> l !! p = Some x.
Proof. intros Hl. apply list_lookup_insert_eq. eapply lookup_lt_Some, Hl. Qed.

(** A settled promise stays as it is when another promise is written. *)
Lemma lookup_put_settled (l : list cell) p p' x o rs :
  l !! p = Some (Settled o) -> l !! p' = Some (Pending rs) ->
  <[p' := x]> l !! p = Some (Settled o).
Proof.
  intros Hl Hl'. apply lookup_put_ne; [exact Hl|]. intros ->. congruence.
Qed.

Lemma eqb_false a b : a <> b -> (a =? b) = false.
Proof. apply Nat.eqb_neq. Qed.

Hypothesis Hq0 : queue st0 = [].
Variable C : Container.
Hypothesis Hc : containers st0 !! c = Some C.
Hypothesis Hfalsy : truthy (default (JVal VUndefined) (singletons C !! k)) = false.

Lemma after_miss_inv : inv (after_miss c k f1 opts1 st0) [n].
Proof.
  unfold after_miss. fold n. split.
  - repeat constructor.
  - apply PhA.
    + unfold chain. st_simpl. rewrite Hq0. cbn [app List.filter is_chain rx Runtime.handler].
      rewrite (eqb_false n p1) by (unfold p1; lia). reflexivity.
    + unfold pending1. st_simpl. unfold p1, n. rewrite lookup_new. reflexivity.
    + unfold pending2. st_simpl. unfold p2, n. rewrite lookup_new. reflexivity.
    + exists []. split; [|constructor]. st_simpl. unfold p3, n. rewrite lookup_new. reflexivity.
    + unfold installed, entry, this. st_simpl. rewrite list_lookup_alter_eq, Hc.
      apply lookup_insert_eq.
    + reflexivity.
    + reflexivity.
  - st_simpl. rewrite Hq0. cbn [app].
    constructor; [left; reflexivity|]. constructor; [|constructor].
    right. left. exists n. split; [apply list_elem_of_here | reflexivity].
  - constructor; [|constructor]. right. st_simpl. split.
    + unfold n. rewrite lookup_new0. reflexivity.
    + left. rewrite Hq0. apply list_elem_of_further, list_elem_of_here.
Qed.

(** Growing [R] keeps what was known. *)
Lemma waiting3_mono st R R' : R ⊆ R' -> waiting3 st R -> waiting3 st R'.
Proof.
  intros HR (rs & Hp & Hrs). exists rs. split; [exact Hp|].
  eapply Forall_impl; [exact Hrs|]. intros x (r & Hr & ->). eauto.
Qed.


Lemma range_not_chain R r :
  Forall (fun r => r = n \/ n + 5 <= r) R -> r ∈ R ->
  r <> p1 /\ r <> p2 /\ r <> p3.
Proof.
  intros HR Hr. rewrite Forall_forall in HR. specialize (HR r Hr).
  unfold p1, p2, p3. lia.
Qed.

(** A step that leaves the chain alone keeps the phase. *)
Lemma phase_frame st st' R R' :
  Forall (fun r => r = n \/ n + 5 <= r) R ->
  (forall p x, promises st !! p = Some x -> p <> p3 -> p ∉ R ->
               promises st' !! p = Some x) ->
  (forall p o, promises st !! p = Some (Settled o) ->
               promises st' !! p = Some (Settled o)) ->
  (waiting3 st R -> waiting3 st' R') ->
  chain st' = chain st ->
  containers st' = containers st ->
  factory_log st' = factory_log st ->
  externals st' = externals st ->
  (forall q, q < length (promises st) -> q ∉ R -> q ∉ R') ->
  phase st R -> phase st' R'.
Proof.
  intros HR Hkeep Hstable Hw Hch Hcs Hlog Hex Hfresh Hph.
  assert (Hn1 : p1 <> p3) by (unfold p1, p3; lia).
  assert (Hn2 : p2 <> p3) by (unfold p2, p3; lia).
  assert (Hr1 : p1 ∉ R) by (intros Hr; destruct (range_not_chain R p1 HR Hr) as (? & ? & ?); congruence).
  assert (Hr2 : p2 ∉ R) by (intros Hr; destruct (range_not_chain R p2 HR Hr) as (? & ? & ?); congruence).
  assert (Hinst : installed st -> installed st')
    by (unfold installed, entry, this; rewrite Hcs; auto).
  assert (Hran : ran st -> ran st') by (unfold ran; rewrite Hlog; auto).
  assert (Hext : ext_done st -> ext_done st').
  { intros [He|q o He Hq]; [apply ext_none | eapply ext_some]; rewrite ?Hex; eauto. }
  assert (H1 : pending1 st -> pending1 st') by (unfold pending1; eauto).
  assert (H2 : pending2 st -> pending2 st') by (unfold pending2; eauto).
  destruct Hph as
    [ Hc0 Hp1 Hp2 Hw3 Hin Hlg Hex0
    | q Hc0 Hp1 Hp2 Hw3 Hin Hrn Hex0 Hqn HqR Hq
    | q Hc0 Hp1 Hp2 Hw3 Hin Hrn Hex0 Hqn HqR Hq
    | o Hc0 Hp1 Hp2 Hw3 Hin Hrn Hex0
    | o Hc0 Hp1 Hp2 Hw3 Hin Hrn Hex0
    | o Hc0 Hp1 Hp2 Hw3 Hrn Hex0
    | o Hc0 Hp1 Hp2 Hp3 Hrn Hex0 ].
  - apply PhA; rewrite ?Hch, ?Hlog, ?Hex; auto.
  - apply (PhB _ _ q); rewrite ?Hch, ?Hex; auto.
    + apply Hfresh; [|assumption].
      destruct Hq as [Hq|[o Hq]]; eapply lookup_lt_Some; exact Hq.
    + destruct Hq as [Hq|[o Hq]]; [left|right; exists o]; eauto.
      apply Hkeep; auto. unfold p3. lia.
  - apply (PhC _ _ q); rewrite ?Hch, ?Hex; auto.
    + apply Hfresh; [|assumption]. eapply lookup_lt_Some; eassumption.
    + apply Hkeep; auto. unfold p3. lia.
  - apply (PhD _ _ o); rewrite ?Hch; auto.
  - apply (PhE _ _ o); rewrite ?Hch; auto.
  - apply (PhF _ _ o); rewrite ?Hch; auto.
  - apply (PhG _ _ o); rewrite ?Hch; auto.
Qed.

Lemma follower_mono st st' R R' j :
  R ⊆ R' ->
  (forall o, promises st !! p3 = Some (Settled o) ->
             promises st' !! p3 = Some (Settled o)) ->
  follower st R j -> follower st' R' j.
Proof.
  intros HR Hst [(r & Hr & ->)|(r & o & Hr & -> & Ho)].
  - left. eauto.
  - right. exists r, o. eauto.
Qed.

Lemma jobs_mono st st' R R' (q : list job) :
  R ⊆ R' ->
  (forall o, promises st !! p3 = Some (Settled o) ->
             promises st' !! p3 = Some (Settled o)) ->
  Forall (fun j => is_chain j = true \/ follower st R j) q ->
  Forall (fun j => is_chain j = true \/ follower st' R' j) q.
Proof.
  intros HR Hst HF. eapply Forall_impl; [exact HF|].
  intros j [Hj|Hj]; [left; exact Hj|right].
  eapply follower_mono; eauto.
Qed.

(** In the window the entry is the pending creation. *)
Lemma window_installed st R :
  phase st R -> outcome_of st p1 = None ->
  installed st /\ pending1 st.
Proof.
  unfold outcome_of. intros Hph Hw.
  destruct Hph; auto;
    match goal with H : promises st !! p1 = Some (Settled _) |- _ =>
      rewrite H in Hw; discriminate end.
Qed.

Lemma call_inv st R g o r st' :
  inv st R -> outcome_of st p1 = None ->
  resolve c t g o st = (Val r, st') ->
  inv st' (R ++ [r]).
Proof.
  intros [HR Hph Hjobs Hcallers] Hw Hres.
  destruct (window_installed st R Hph Hw) as [Hinst Hp1].
  rewrite (resolve_hit_promise st c t g o p3 Hinst) in Hres.
  injection Hres as <- <-.
  assert (Hlen : n + 5 <= length (promises st)).
  { assert (Hp3 : p3 < length (promises st)).
    { destruct Hph; repeat match goal with
        | H : waiting3 _ _ |- _ => destruct H as (? & H & _)
        | H : promises st !! p3 = Some _ |- _ => apply lookup_lt_Some in H end;
        try assumption; unfold outcome_of in Hw;
        match goal with H : promises st !! p1 = Some (Settled _) |- _ =>
          rewrite H in Hw; discriminate end. }
    unfold p3 in Hp3. lia. }
  assert (Hsub : R ⊆ R ++ [length (promises st)]) by (intros x Hx; apply elem_of_app; auto).
  split.
  - apply Forall_app. split; [exact HR|]. constructor; [|constructor]. right. exact Hlen.
  - eapply (phase_frame st); try eassumption; try reflexivity.
    + intros p x Hp _ _. st_simpl. apply lookup_push, Hp.
    + intros p x Hp. st_simpl. apply lookup_push, Hp.
    + intros Hw3. apply (waiting3_mono _ R); [exact Hsub|].
      destruct Hw3 as (rs & Hrs & HF). exists rs. split; [|exact HF].
      st_simpl. apply lookup_push, Hrs.
    + unfold chain. st_simpl. rewrite List.filter_app. cbn [List.filter is_chain].
      rewrite eqb_false by (unfold p1; lia). apply app_nil_r.
    + intros q Hq Hn Hin. apply elem_of_app in Hin as [Hin|Hin]; [auto|].
      apply list_elem_of_singleton in Hin. lia.
  - st_simpl. apply Forall_app. split.
    + eapply jobs_mono; [exact Hsub| |exact Hjobs].
      intros o' Ho'. st_simpl. apply lookup_push, Ho'.
    + constructor; [|constructor]. right. left. exists (length (promises st)).
      split; [|reflexivity]. apply elem_of_app. right. apply list_elem_of_here.
  - apply Forall_app. split.
    + eapply Forall_impl; [exact Hcallers|]. intros r Hr.
      destruct Hr as [(o' & Hr & Ho')|(Hr & Hcap)]; [left|right].
      * exists o'. st_simpl. split; apply lookup_push; assumption.
      * st_simpl. split; [apply lookup_push, Hr|].
        destruct Hcap as [Hcap|[(rs & Hrs & Hin)|(o' & Hcap)]].
        -- left. apply elem_of_app. auto.
        -- right. left. exists rs. split; [apply lookup_push, Hrs | exact Hin].
        -- right. right. exists o'. apply elem_of_app. auto.
    + constructor; [|constructor]. right. st_simpl. split.
      * rewrite lookup_app_r by lia. rewrite Nat.sub_diag. reflexivity.
      * left. apply elem_of_app. right. apply list_elem_of_here.
Qed.


Lemma callers_frame st st' R :
  (forall r x, r ∈ R -> promises st !! r = Some x -> promises st' !! r = Some x) ->
  (forall x, promises st !! p3 = Some x -> promises st' !! p3 = Some x) ->
  (forall j, j ∈ queue st -> is_chain j = false -> j ∈ queue st') ->
  Forall (fun r => r = n \/ n + 5 <= r) R ->
  Forall (caller_ok st) R -> Forall (caller_ok st') R.
Proof.
  intros Hcell Hp3 Hqueue HR Hok. rewrite Forall_forall in *. intros r Hr.
  destruct (range_not_chain R r) as (Hr1 & _ & _); [rewrite Forall_forall; exact HR|exact Hr|].
  destruct (Hok r Hr) as [(o & Hro & Ho)|(Hrp & Hcap)]; [left; eauto|right].
  split; [eauto|].
  destruct Hcap as [Hcap|[(rs & Hrs & Hin)|(o & Hcap)]].
  - left. apply Hqueue; [exact Hcap|]. simpl. apply eqb_false. exact Hr1.
  - right. left. eauto.
  - right. right. exists o. apply Hqueue; [exact Hcap|]. simpl. apply eqb_false. exact Hr1.
Qed.

Lemma callers_in_heap st R r :
  Forall (caller_ok st) R -> r ∈ R -> r < length (promises st).
Proof.
  intros Hok Hr. rewrite Forall_forall in Hok.
  destruct (Hok r Hr) as [(o & Hro & _)|(Hrp & _)]; eapply lookup_lt_Some; eassumption.
Qed.

Lemma phase_in_heap st R : phase st R -> n + 5 <= length (promises st).
Proof.
  intros Hph. assert (Hp3 : p3 < length (promises st)).
  { destruct Hph; repeat match goal with
      | H : waiting3 _ _ |- _ => destruct H as (? & H & _)
      end; eapply lookup_lt_Some; eassumption. }
  unfold p3 in Hp3. lia.
Qed.

Lemma ext_done_settle st q o :
  q ∉ externals st0 -> q ∈ externals st -> ext_done st ->
  exec (settle q o) st = st.
Proof.
  intros Hq0' Hq [He|q' o' He Hq']; [rewrite He in Hq; contradiction|].
  rewrite He in Hq. apply elem_of_cons in Hq as [->|Hq]; [|contradiction].
  unfold exec. rewrite (settle_settled _ _ _ o' Hq'). reflexivity.
Qed.

Lemma settle_inv st R q o :
  inv st R -> q ∉ externals st0 -> inv (exec (env_settle q o) st) R.
Proof.
  intros Hinv Hq. unfold exec, env_settle.
  destruct (bool_decide (q ∈ externals st)) eqn:Hin; [|exact Hinv].
  apply bool_decide_eq_true in Hin. fold (exec (settle q o) st).
  destruct Hinv as [HR Hph Hjobs Hcallers].
  pose proof (phase_in_heap st R Hph) as Hlen.
  destruct Hph as
    [ Hc0 Hp1 Hp2 Hw3 Hins Hlg Hex0
    | q' Hc0 Hp1 Hp2 Hw3 Hins Hrn Hex0 Hqn HqR Hq'
    | q' Hc0 Hp1 Hp2 Hw3 Hins Hrn Hex0 Hqn HqR Hq'
    | o' Hc0 Hp1 Hp2 Hw3 Hins Hrn Hex0
    | o' Hc0 Hp1 Hp2 Hw3 Hins Hrn Hex0
    | o' Hc0 Hp1 Hp2 Hw3 Hrn Hex0
    | o' Hc0 Hp1 Hp2 Hp3 Hrn Hex0 ].
  - rewrite Hex0 in Hin. contradiction.
  - rewrite Hex0 in Hin. apply elem_of_cons in Hin as [->|Hin]; [|contradiction].
    destruct Hq' as [Hq'|[o' Hq']].
    + rewrite (exec_settle_pending _ _ _ [] Hq'). unfold settled.
      assert (Hne : forall p x, promises st !! p = Some x -> p <> q' ->
                promises (set_queue (fun q0 => q0 ++ map (fun r => JReact r o) [])
                  (set_promises (fun h => <[q':=Settled o]> h) st)) !! p = Some x).
      { intros p x Hp Hpq. st_simpl. apply lookup_put_ne; auto. }
      split; [exact HR| | |].
      * apply (PhB _ _ q'); unfold chain, pending1, pending2, installed, ran, entry, this in *;
          st_simpl; cbn [map]; rewrite ?app_nil_r; auto.
        -- apply Hne; [exact Hp1 | unfold p1; lia].
        -- apply Hne; [exact Hp2 | unfold p2; lia].
        -- destruct Hw3 as (rs & Hrs & HF). exists rs. split; [|exact HF].
           st_simpl. apply lookup_put_ne; [exact Hrs | unfold p3; lia].
        -- right. exists o. apply lookup_put_eq with (y := Pending []). exact Hq'.
      * st_simpl. cbn [map]. rewrite app_nil_r.
        eapply jobs_mono; [reflexivity| |exact Hjobs].
        intros o' Ho'. st_simpl. apply lookup_put_ne; [exact Ho' | unfold p3; lia].
      * eapply callers_frame; [| | |exact HR|exact Hcallers].
        -- intros r x Hr Hrx. apply Hne; [exact Hrx|]. intros ->. contradiction.
        -- intros x Hx. apply Hne; [exact Hx | unfold p3; lia].
        -- intros j Hj _. st_simpl. cbn [map]. rewrite app_nil_r. exact Hj.
    + unfold exec. rewrite (settle_settled _ _ _ o' Hq').
      split; [exact HR| |exact Hjobs|exact Hcallers].
      apply (PhB _ _ q'); eauto.
  - rewrite Hex0 in Hin. apply elem_of_cons in Hin as [->|Hin]; [|contradiction].
    rewrite (exec_settle_pending _ _ _ _ Hq'). unfold settled.
    assert (Hne : forall p x, promises st !! p = Some x -> p <> q' ->
              promises (set_queue (fun q0 => q0 ++ map (fun r => JReact r o) [adopt p1])
                (set_promises (fun h => <[q':=Settled o]> h) st)) !! p = Some x).
    { intros p x Hp Hpq. st_simpl. apply lookup_put_ne; auto. }
    split; [exact HR| | |].
    * apply (PhD _ _ o); unfold chain, pending1, pending2, installed, ran, entry, this in *;
        st_simpl; cbn [map]; auto.
      -- rewrite List.filter_app, Hc0. cbn [List.filter is_chain adopt Runtime.handler target app].
         rewrite Nat.eqb_refl. reflexivity.
      -- apply Hne; [exact Hp1 | unfold p1; lia].
      -- apply Hne; [exact Hp2 | unfold p2; lia].
      -- destruct Hw3 as (rs & Hrs & HF). exists rs. split; [|exact HF].
         st_simpl. apply lookup_put_ne; [exact Hrs | unfold p3; lia].
      -- apply (ext_some _ q' o); st_simpl; [exact Hex0|].
         eapply lookup_put_eq. exact Hq'.
    * st_simpl. cbn [map]. apply Forall_app. split.
      -- eapply jobs_mono; [reflexivity| |exact Hjobs].
         intros o' Ho'. st_simpl. apply lookup_put_ne; [exact Ho' | unfold p3; lia].
      -- constructor; [|constructor]. left. simpl. apply Nat.eqb_refl.
    * eapply callers_frame; [| | |exact HR|exact Hcallers].
      -- intros r x Hr Hrx. apply Hne; [exact Hrx|]. intros ->. contradiction.
      -- intros x Hx. apply Hne; [exact Hx | unfold p3; lia].
      -- intros j Hj _. st_simpl. apply elem_of_app. left. exact Hj.
  - rewrite (ext_done_settle st q o Hq Hin Hex0).
    split; [exact HR|eapply PhD; eauto|exact Hjobs|exact Hcallers].
  - rewrite (ext_done_settle st q o Hq Hin Hex0).
    split; [exact HR|eapply PhE; eauto|exact Hjobs|exact Hcallers].
  - rewrite (ext_done_settle st q o Hq Hin Hex0).
    split; [exact HR|eapply PhF; eauto|exact Hjobs|exact Hcallers].
  - rewrite (ext_done_settle st q o Hq Hin Hex0).
    split; [exact HR|eapply PhG; eauto|exact Hjobs|exact Hcallers].
Qed.


Lemma chain_head st j q' :
  queue st = j :: q' -> is_chain j = true ->
  chain st = j :: List.filter is_chain q'.
Proof. intros Hq Hj. unfold chain. rewrite Hq. simpl. rewrite Hj. reflexivity. Qed.

Lemma chain_tail st j q' :
  queue st = j :: q' -> is_chain j = false ->
  chain st = List.filter is_chain q'.
Proof. intros Hq Hj. unfold chain. rewrite Hq. simpl. rewrite Hj. reflexivity. Qed.

Lemma chain_after st' q' new :
  queue st' = q' ++ new -> List.filter is_chain q' = [] ->
  chain st' = List.filter is_chain new.
Proof. intros Hq Hf. unfold chain. rewrite Hq, List.filter_app, Hf. reflexivity. Qed.

(** What a step of the chain that writes one promise [w], outside the
    callers' promises and the cached one, keeps of the invariant. *)
Lemma chain_step_rest st st' R j q' new w :
  queue st = j :: q' -> is_chain j = true ->
  queue st' = q' ++ new -> Forall (fun j => is_chain j = true) new ->
  (forall p x, promises st !! p = Some x -> p <> w -> promises st' !! p = Some x) ->
  w <> p3 -> w ∉ R ->
  Forall (fun r => r = n \/ n + 5 <= r) R ->
  Forall (fun j => is_chain j = true \/ follower st R j) (queue st) ->
  Forall (caller_ok st) R ->
  Forall (fun j => is_chain j = true \/ follower st' R j) (queue st') /\
  Forall (caller_ok st') R.
Proof.
  intros Hq Hj Hq' Hnew Hkeep Hw3 HwR HR Hjobs Hcallers. split.
  - rewrite Hq'. rewrite Hq in Hjobs. apply Forall_cons in Hjobs as [_ Hjobs].
    apply Forall_app. split.
    + eapply jobs_mono; [reflexivity| |exact Hjobs]. intros o Ho. apply Hkeep; auto.
    + eapply Forall_impl; [exact Hnew|]. intros; left; assumption.
  - eapply callers_frame; [| | |exact HR|exact Hcallers].
    + intros r x Hr Hrx. apply Hkeep; [exact Hrx|]. intros ->. contradiction.
    + intros x Hx. apply Hkeep; auto.
    + intros j0 Hj0 Hc0. rewrite Hq in Hj0. rewrite Hq'.
      apply elem_of_cons in Hj0 as [->|Hj0]; [congruence|].
      apply elem_of_app. left. exact Hj0.
Qed.

Lemma waiting3_keep st st' R :
  (forall x, promises st !! p3 = Some x -> promises st' !! p3 = Some x) ->
  waiting3 st R -> waiting3 st' R.
Proof. intros Hk (rs & Hrs & HF). exists rs. split; auto. Qed.

Lemma ext_done_keep st st' :
  externals st' = externals st ->
  (forall p o, promises st !! p = Some (Settled o) ->
               promises st' !! p = Some (Settled o)) ->
  ext_done st -> ext_done st'.
Proof.
  intros He Hk [H0|q o H0 Hq]; [apply ext_none | apply (ext_some _ q o)];
    rewrite ?He; auto.
Qed.

(** The factory job. *)
Lemma tick_inv_A st R q' :
  inv st R ->
  queue st = JReact (rx (HFactory f1) p1) (Ful VUndefined) :: q' ->
  chain st = [JReact (rx (HFactory f1) p1) (Ful VUndefined)] ->
  pending1 st -> pending2 st -> waiting3 st R -> installed st ->
  factory_log st = factory_log st0 -> externals st = externals st0 ->
  inv (exec tick st) R.
Proof.
  intros [HR Hph Hjobs Hcallers] Hq Hc0 Hp1 Hp2 Hw3 Hins Hlg Hex0.
  pose proof (phase_in_heap st R Hph) as Hlen.
  assert (Hj : is_chain (JReact (rx (HFactory f1) p1) (Ful VUndefined)) = true) by reflexivity.
  assert (Hf : List.filter is_chain q' = []).
  { rewrite (chain_head st _ q' Hq Hj) in Hc0. congruence. }
  assert (Hp1R : p1 ∉ R)
    by (intros Hr; destruct (range_not_chain R p1 HR Hr) as (? & _); congruence).
  assert (Hsync : forall o,
    exec tick st = exec (settle p1 o) (called f1 (pop q' st)) ->
    inv (exec tick st) R).
  { intros o ->.
    rewrite (exec_settle_pending _ _ _ [rx (HOnOk c k opts1) p2]) by exact Hp1.
    set (st' := settled _ _ _ _).
    assert (Hq' : queue st' = q' ++ [JReact (rx (HOnOk c k opts1) p2) o]) by reflexivity.
    assert (Hkeep : forall p x, promises st !! p = Some x -> p <> p1 ->
                                promises st' !! p = Some x).
    { intros p x Hp Hne. subst st'. unfold settled, called, pop. st_simpl.
      apply lookup_put_ne; auto. }
    assert (Hnew : Forall (fun j => is_chain j = true)
                     [JReact (rx (HOnOk c k opts1) p2) o])
      by (constructor; [reflexivity|constructor]).
    assert (Hn13 : p1 <> p3) by (unfold p1, p3; lia).
    destruct (chain_step_rest st st' R _ q' _ p1 Hq Hj Hq' Hnew Hkeep Hn13 Hp1R
                HR Hjobs Hcallers) as [Hjobs' Hcallers'].
    split; [exact HR| |exact Hjobs'|exact Hcallers'].
    apply (PhE _ _ o).
    - rewrite (chain_after st' q' _ Hq' Hf). reflexivity.
    - subst st'. unfold settled, called, pop. st_simpl. eapply lookup_put_eq, Hp1.
    - apply Hkeep; [exact Hp2 | unfold p1, p2; lia].
    - eapply waiting3_keep; [|exact Hw3]. intros x Hx. apply Hkeep; [exact Hx | unfold p1, p3; lia].
    - exact Hins.
    - unfold ran. subst st'. unfold settled, called, pop. st_simpl. rewrite Hlg. reflexivity.
    - apply ext_none. exact Hex0. }
  destruct (behaviour f1 (times_called f1 st)) as [v|e|] eqn:Hb.
  - apply (Hsync (Ful v)). eapply tick_factory_return; eauto.
  - apply (Hsync (Rej e)). eapply tick_factory_throw; eauto.
  - rewrite (tick_factory_async st f1 p1 VUndefined q' Hq Hb).
    set (st' := set_queue _ _).
    assert (Hq' : queue st' = q' ++ [JThenable p1 (length (promises st))]) by reflexivity.
    assert (Hkeep : forall p x, promises st !! p = Some x -> p <> length (promises st) ->
                                promises st' !! p = Some x).
    { intros p x Hp _. subst st'. unfold called. st_simpl. apply lookup_push, Hp. }
    assert (Hnew : Forall (fun j => is_chain j = true)
                     [JThenable p1 (length (promises st))]).
    { constructor; [|constructor]. simpl. apply Nat.eqb_refl. }
    assert (Hn3 : length (promises st) <> p3) by (unfold p3; lia).
    assert (HnR : length (promises st) ∉ R).
    { intros Hr. apply (callers_in_heap st R _ Hcallers) in Hr. lia. }
    destruct (chain_step_rest st st' R _ q' _ (length (promises st)) Hq Hj Hq'
                Hnew Hkeep Hn3 HnR HR Hjobs Hcallers) as [Hjobs' Hcallers'].
    split; [exact HR| |exact Hjobs'|exact Hcallers'].
    apply (PhB _ _ (length (promises st))).
    + rewrite (chain_after st' q' _ Hq' Hf). simpl. rewrite Nat.eqb_refl. reflexivity.
    + apply Hkeep; [exact Hp1|]. apply lookup_lt_Some in Hp1. lia.
    + apply Hkeep; [exact Hp2|]. apply lookup_lt_Some in Hp2. lia.
    + eapply waiting3_keep; [|exact Hw3]. intros x Hx. apply Hkeep; [exact Hx|].
      apply lookup_lt_Some in Hx. lia.
    + exact Hins.
    + unfold ran. subst st'. unfold called. st_simpl. rewrite Hlg. reflexivity.
    + subst st'. unfold called. st_simpl. rewrite Hex0. reflexivity.
    + exact Hlen.
    + intros Hr. apply (callers_in_heap st R _ Hcallers) in Hr. lia.
    + left. subst st'. unfold called. st_simpl.
      rewrite lookup_app_r by lia. rewrite Nat.sub_diag. reflexivity.
Qed.


(** The target adopts the promise returned by the factory. *)
Lemma tick_inv_B st R q q' :
  inv st R ->
  queue st = JThenable p1 q :: q' ->
  chain st = [JThenable p1 q] ->
  pending1 st -> pending2 st -> waiting3 st R -> installed st ->
  ran st -> externals st = q :: externals st0 ->
  n + 5 <= q -> q ∉ R ->
  (promises st !! q = Some (Pending []) \/
   exists o, promises st !! q = Some (Settled o)) ->
  inv (exec tick st) R.
Proof.
  intros [HR Hph Hjobs Hcallers] Hq Hc0 Hp1 Hp2 Hw3 Hins Hrn Hex0 Hqn HqR Hqc.
  assert (Hj : is_chain (JThenable p1 q) = true) by (simpl; apply Nat.eqb_refl).
  assert (Hf : List.filter is_chain q' = []).
  { rewrite (chain_head st _ q' Hq Hj) in Hc0. congruence. }
  assert (Hq3 : q <> p3) by (unfold p3; lia).
  rewrite (tick_thenable st p1 q q' Hq).
  destruct Hqc as [Hqc|[o Hqc]].
  - rewrite (exec_register_pending _ _ _ []) by exact Hqc.
    set (st' := set_promises _ _).
    assert (Hq' : queue st' = q' ++ []) by (rewrite app_nil_r; reflexivity).
    assert (Hkeep : forall p x, promises st !! p = Some x -> p <> q ->
                                promises st' !! p = Some x).
    { intros p x Hp Hne. subst st'. unfold pop. st_simpl. apply lookup_put_ne; auto. }
    destruct (chain_step_rest st st' R _ q' [] q Hq Hj Hq' (Forall_nil_2 _) Hkeep Hq3 HqR
                HR Hjobs Hcallers) as [Hjobs' Hcallers'].
    split; [exact HR| |exact Hjobs'|exact Hcallers'].
    apply (PhC _ _ q).
    + rewrite (chain_after st' q' _ Hq' Hf). reflexivity.
    + apply Hkeep; [exact Hp1 | unfold p1; lia].
    + apply Hkeep; [exact Hp2 | unfold p2; lia].
    + eapply waiting3_keep; [|exact Hw3]. intros x Hx. apply Hkeep; auto.
    + exact Hins.
    + exact Hrn.
    + exact Hex0.
    + exact Hqn.
    + exact HqR.
    + subst st'. unfold pop. st_simpl. eapply lookup_put_eq, Hqc.
  - rewrite (exec_register_settled _ _ _ o) by exact Hqc.
    set (st' := set_queue _ _).
    assert (Hq' : queue st' = q' ++ [JReact (adopt p1) o]) by reflexivity.
    assert (Hkeep : forall p x, promises st !! p = Some x -> p <> q ->
                                promises st' !! p = Some x).
    { intros p x Hp _. exact Hp. }
    assert (Hnew : Forall (fun j => is_chain j = true) [JReact (adopt p1) o]).
    { constructor; [|constructor]. simpl. apply Nat.eqb_refl. }
    destruct (chain_step_rest st st' R _ q' _ q Hq Hj Hq' Hnew Hkeep Hq3 HqR
                HR Hjobs Hcallers) as [Hjobs' Hcallers'].
    split; [exact HR| |exact Hjobs'|exact Hcallers'].
    apply (PhD _ _ o).
    + rewrite (chain_after st' q' _ Hq' Hf). simpl. rewrite Nat.eqb_refl. reflexivity.
    + exact Hp1.
    + exact Hp2.
    + exact Hw3.
    + exact Hins.
    + exact Hrn.
    + apply (ext_some _ q o); [exact Hex0 | exact Hqc].
Qed.

(** The creation function's promise settles. *)
Lemma tick_inv_D st R o q' :
  inv st R ->
  queue st = JReact (adopt p1) o :: q' ->
  chain st = [JReact (adopt p1) o] ->
  pending1 st -> pending2 st -> waiting3 st R -> installed st ->
  ran st -> ext_done st ->
  inv (exec tick st) R.
Proof.
  intros [HR Hph Hjobs Hcallers] Hq Hc0 Hp1 Hp2 Hw3 Hins Hrn Hex0.
  assert (Hj : is_chain (JReact (adopt p1) o) = true) by (simpl; apply Nat.eqb_refl).
  assert (Hf : List.filter is_chain q' = []).
  { rewrite (chain_head st _ q' Hq Hj) in Hc0. congruence. }
  assert (Hp1R : p1 ∉ R)
    by (intros Hr; destruct (range_not_chain R p1 HR Hr) as (? & _); congruence).
  rewrite (tick_adopt st p1 o q' Hq).
  rewrite (exec_settle_pending _ _ _ [rx (HOnOk c k opts1) p2]) by exact Hp1.
  set (st' := settled _ _ _ _).
  assert (Hq' : queue st' = q' ++ [JReact (rx (HOnOk c k opts1) p2) o]) by reflexivity.
  assert (Hkeep : forall p x, promises st !! p = Some x -> p <> p1 ->
                              promises st' !! p = Some x).
  { intros p x Hp Hne. subst st'. unfold settled, pop. st_simpl.
    apply lookup_put_ne; auto. }
  assert (Hnew : Forall (fun j => is_chain j = true)
                   [JReact (rx (HOnOk c k opts1) p2) o])
    by (constructor; [reflexivity|constructor]).
  assert (Hn13 : p1 <> p3) by (unfold p1, p3; lia).
  destruct (chain_step_rest st st' R _ q' _ p1 Hq Hj Hq' Hnew Hkeep Hn13 Hp1R
              HR Hjobs Hcallers) as [Hjobs' Hcallers'].
  split; [exact HR| |exact Hjobs'|exact Hcallers'].
  apply (PhE _ _ o).
  - rewrite (chain_after st' q' _ Hq' Hf). reflexivity.
  - subst st'. unfold settled, pop. st_simpl. eapply lookup_put_eq, Hp1.
  - apply Hkeep; [exact Hp2 | unfold p1, p2; lia].
  - eapply waiting3_keep; [|exact Hw3]. intros x Hx. apply Hkeep; [exact Hx | unfold p1, p3; lia].
  - exact Hins.
  - exact Hrn.
  - eapply (ext_done_keep st); [reflexivity| |exact Hex0].
    intros p o' Hp. subst st'. unfold settled, pop. st_simpl.
    eapply lookup_put_settled; eauto.
Qed.

(** The creation step: store the value, or let the failure pass. *)
Lemma tick_inv_E st R o q' :
  inv st R ->
  queue st = JReact (rx (HOnOk c k opts1) p2) o :: q' ->
  chain st = [JReact (rx (HOnOk c k opts1) p2) o] ->
  promises st !! p1 = Some (Settled o) ->
  pending2 st -> waiting3 st R -> ran st -> ext_done st ->
  inv (exec tick st) R.
Proof.
  intros [HR Hph Hjobs Hcallers] Hq Hc0 Hp1 Hp2 Hw3 Hrn Hex0.
  assert (Hj : is_chain (JReact (rx (HOnOk c k opts1) p2) o) = true) by reflexivity.
  assert (Hf : List.filter is_chain q' = []).
  { rewrite (chain_head st _ q' Hq Hj) in Hc0. congruence. }
  assert (Hp2R : p2 ∉ R)
    by (intros Hr; destruct (range_not_chain R p2 HR Hr) as (? & ? & ?); congruence).
  assert (Hn23 : p2 <> p3) by (unfold p2, p3; lia).
  assert (Hnew : Forall (fun j => is_chain j = true)
                   [JReact (rx (HOnErr c k) p3) o])
    by (constructor; [reflexivity|constructor]).
  assert (Hgo : forall st1,
    promises st1 = promises st -> queue st1 = q' ->
    factory_log st1 = factory_log st -> externals st1 = externals st ->
    inv (exec (settle p2 o) st1) R).
  { intros st1 Hpr Hqu Hlo Hexx.
    rewrite (exec_settle_pending _ _ _ [rx (HOnErr c k) p3])
      by (rewrite Hpr; exact Hp2).
    set (st' := settled _ _ _ _).
    assert (Hq' : queue st' = q' ++ [JReact (rx (HOnErr c k) p3) o]).
    { subst st'. unfold settled. st_simpl. rewrite Hqu. reflexivity. }
    assert (Hkeep : forall p x, promises st !! p = Some x -> p <> p2 ->
                                promises st' !! p = Some x).
    { intros p x Hp Hne. subst st'. unfold settled. st_simpl. rewrite Hpr.
      apply lookup_put_ne; auto. }
    destruct (chain_step_rest st st' R _ q' _ p2 Hq Hj Hq' Hnew Hkeep Hn23 Hp2R
                HR Hjobs Hcallers) as [Hjobs' Hcallers'].
    split; [exact HR| |exact Hjobs'|exact Hcallers'].
    apply (PhF _ _ o).
    - rewrite (chain_after st' q' _ Hq' Hf). reflexivity.
    - apply Hkeep; [exact Hp1 | unfold p1, p2; lia].
    - subst st'. unfold settled. st_simpl. rewrite Hpr. eapply lookup_put_eq, Hp2.
    - eapply waiting3_keep; [|exact Hw3]. intros x Hx. apply Hkeep; auto.
    - unfold ran. subst st'. unfold settled. st_simpl. rewrite Hlo. exact Hrn.
    - eapply (ext_done_keep st); [| |exact Hex0].
      + subst st'. unfold settled. st_simpl. exact Hexx.
      + intros p o' Hp. subst st'. unfold settled. st_simpl. rewrite Hpr.
        eapply lookup_put_settled; eauto. }
  destruct o as [v|e].
  - rewrite (tick_onok_ful st c k opts1 p2 v q' Hq). apply Hgo; reflexivity.
  - rewrite (tick_onok_rej st c k opts1 p2 e q' Hq). apply Hgo; reflexivity.
Qed.


Lemma followers_not_chain R rs o :
  Forall (fun r => r = n \/ n + 5 <= r) R ->
  Forall (fun x => exists r, r ∈ R /\ x = adopt r) rs ->
  List.filter is_chain (map (fun r => JReact r o) rs) = [].
Proof.
  intros HR HF. induction HF as [|x l (r & Hr & ->) _ IH]; [reflexivity|].
  simpl. destruct (range_not_chain R r HR Hr) as (Hr1 & _ & _).
  rewrite (eqb_false r p1 Hr1). exact IH.
Qed.

(** The cached promise settles and its waiting callers are scheduled. *)
Lemma tick_inv_F st R o q' :
  inv st R ->
  queue st = JReact (rx (HOnErr c k) p3) o :: q' ->
  chain st = [JReact (rx (HOnErr c k) p3) o] ->
  promises st !! p1 = Some (Settled o) ->
  promises st !! p2 = Some (Settled o) ->
  waiting3 st R -> ran st -> ext_done st ->
  inv (exec tick st) R.
Proof.
  intros [HR Hph Hjobs Hcallers] Hq Hc0 Hp1 Hp2 (rs & Hrs & HF) Hrn Hex0.
  assert (Hj : is_chain (JReact (rx (HOnErr c k) p3) o) = true) by reflexivity.
  assert (Hf : List.filter is_chain q' = []).
  { rewrite (chain_head st _ q' Hq Hj) in Hc0. congruence. }
  assert (Hgo : forall st1,
    promises st1 = promises st -> queue st1 = q' ->
    factory_log st1 = factory_log st -> externals st1 = externals st ->
    inv (exec (settle p3 o) st1) R).
  { intros st1 Hpr Hqu Hlo Hexx.
    rewrite (exec_settle_pending _ _ _ rs) by (rewrite Hpr; exact Hrs).
    set (st' := settled _ _ _ _).
    assert (Hq' : queue st' = q' ++ map (fun r => JReact r o) rs).
    { subst st'. unfold settled. st_simpl. rewrite Hqu. reflexivity. }
    assert (Hkeep : forall p x, promises st !! p = Some x -> p <> p3 ->
                                promises st' !! p = Some x).
    { intros p x Hp Hne. subst st'. unfold settled. st_simpl. rewrite Hpr.
      apply lookup_put_ne; auto. }
    assert (Hp3' : promises st' !! p3 = Some (Settled o)).
    { subst st'. unfold settled. st_simpl. rewrite Hpr. eapply lookup_put_eq, Hrs. }
    pose proof (followers_not_chain R rs o HR HF) as Hfnew.
    split; [exact HR| | |].
    - apply (PhG _ _ o).
      + rewrite (chain_after st' q' _ Hq' Hf). exact Hfnew.
      + apply Hkeep; [exact Hp1 | unfold p1, p3; lia].
      + apply Hkeep; [exact Hp2 | unfold p2, p3; lia].
      + exact Hp3'.
      + unfold ran. subst st'. unfold settled. st_simpl. rewrite Hlo. exact Hrn.
      + eapply (ext_done_keep st); [| |exact Hex0].
        * subst st'. unfold settled. st_simpl. exact Hexx.
        * intros p o' Hp. subst st'. unfold settled. st_simpl. rewrite Hpr.
          eapply lookup_put_settled; eauto.
    - rewrite Hq'. rewrite Hq in Hjobs. apply Forall_cons in Hjobs as [_ Hjobs].
      apply Forall_app. split.
      + eapply jobs_mono; [reflexivity| |exact Hjobs]. intros o' Ho'. congruence.
      + apply Forall_fmap. eapply Forall_impl; [exact HF|].
        intros x (r & Hr & ->). simpl. right. right. exists r, o. auto.
    - rewrite Forall_forall in *. intros r Hr.
      destruct (range_not_chain R r) as (Hr1 & _ & Hr3);
        [rewrite Forall_forall; exact HR|exact Hr|].
      destruct (Hcallers r Hr) as [(o' & Hro & Ho')|(Hrp & Hcap)]; [congruence|].
      right. split; [apply Hkeep; assumption|].
      destruct Hcap as [Hcap|[(rs' & Hrs' & Hin)|(o' & Hcap)]].
      * left. rewrite Hq in Hcap. rewrite Hq'.
        apply elem_of_cons in Hcap as [Hcap|Hcap]; [discriminate|].
        apply elem_of_app. left. exact Hcap.
      * right. right. exists o. rewrite Hq'. apply elem_of_app. right.
        assert (rs' = rs) by congruence. subst rs'.
        apply (list_elem_of_fmap_2 (fun r0 => JReact r0 o)) in Hin. exact Hin.
      * right. right. exists o'. rewrite Hq in Hcap. rewrite Hq'.
        apply elem_of_cons in Hcap as [Hcap|Hcap].
        -- injection Hcap as Hcap _. unfold adopt, rx in Hcap. discriminate.
        -- apply elem_of_app. left. exact Hcap. }
  destruct o as [v|e].
  - rewrite (tick_onerr_ful st c k p3 v q' Hq). apply Hgo; reflexivity.
  - rewrite (tick_onerr_rej st c k p3 e q' Hq). apply Hgo; reflexivity.
Qed.


Lemma phase_p3 st R :
  phase st R -> waiting3 st R \/ exists o, promises st !! p3 = Some (Settled o).
Proof. intros Hph. destruct Hph; eauto. Qed.

(** A caller's promise starts to follow the cached promise. *)
Lemma tick_inv_thenable st R r q' :
  inv st R -> queue st = JThenable r p3 :: q' -> r ∈ R ->
  inv (exec tick st) R.
Proof.
  intros [HR Hph Hjobs Hcallers] Hq Hr.
  destruct (range_not_chain R r HR Hr) as (Hr1 & Hr2 & Hr3).
  assert (Hj : is_chain (JThenable r p3) = false) by (simpl; apply eqb_false, Hr1).
  pose proof (chain_tail st _ q' Hq Hj) as Hct.
  pose proof Hjobs as Hjobs0. rewrite Hq in Hjobs0.
  apply Forall_cons in Hjobs0 as [_ Hjobs0].
  rewrite (tick_thenable st r p3 q' Hq).
  destruct (phase_p3 st R Hph) as [(rs & Hrs & HF)|[o Ho]].
  - rewrite (exec_register_pending _ _ _ rs) by exact Hrs.
    set (st' := set_promises _ _).
    assert (Hkeep : forall p x, promises st !! p = Some x -> p <> p3 ->
                                promises st' !! p = Some x).
    { intros p x Hp Hne. subst st'. unfold pop. st_simpl. apply lookup_put_ne; auto. }
    assert (Hp3' : promises st' !! p3 = Some (Pending (rs ++ [adopt r]))).
    { subst st'. unfold pop. st_simpl. eapply lookup_put_eq, Hrs. }
    split; [exact HR| | |].
    + eapply (phase_frame st); try eassumption; try reflexivity.
      * intros p x Hp Hne _. apply Hkeep; assumption.
      * intros p o Hp. apply Hkeep; [exact Hp|]. intros ->. congruence.
      * intros _. exists (rs ++ [adopt r]). split; [exact Hp3'|].
        apply Forall_app. split; [exact HF|]. constructor; [eauto|constructor].
      * unfold chain at 1. subst st'. unfold pop. st_simpl. symmetry. exact Hct.
      * auto.
    + eapply jobs_mono; [reflexivity| |exact Hjobs0]. intros o Ho. congruence.
    + rewrite Forall_forall in *. intros r0 Hr0.
      destruct (range_not_chain R r0) as (_ & _ & Hr03);
        [rewrite Forall_forall; exact HR|exact Hr0|].
      destruct (Hcallers r0 Hr0) as [(o' & Hro & Ho')|(Hrp & Hcap)]; [congruence|].
      right. split; [apply Hkeep; assumption|].
      destruct Hcap as [Hcap|[(rs' & Hrs' & Hin)|(o' & Hcap)]].
      * rewrite Hq in Hcap. apply elem_of_cons in Hcap as [Hcap|Hcap].
        -- injection Hcap as ->. right. left. exists (rs ++ [adopt r]).
           split; [exact Hp3'|]. apply elem_of_app. right. apply list_elem_of_here.
        -- left. exact Hcap.
      * right. left. exists (rs ++ [adopt r]). split; [exact Hp3'|].
        assert (rs' = rs) by congruence. subst rs'. apply elem_of_app. left. exact Hin.
      * right. right. exists o'. rewrite Hq in Hcap.
        apply elem_of_cons in Hcap as [Hcap|Hcap]; [discriminate|exact Hcap].
  - rewrite (exec_register_settled _ _ _ o) by exact Ho.
    set (st' := set_queue _ _).
    assert (Hq' : queue st' = q' ++ [JReact (adopt r) o]) by reflexivity.
    split; [exact HR| | |].
    + eapply (phase_frame st); try eassumption; try reflexivity.
      * intros p x Hp _ _. exact Hp.
      * intros p o' Hp. exact Hp.
      * intros (rs & Hrs & _). congruence.
      * unfold chain at 1. rewrite Hq', List.filter_app. simpl.
        rewrite (eqb_false r p1 Hr1). rewrite app_nil_r. symmetry. exact Hct.
      * auto.
    + rewrite Hq'. apply Forall_app. split.
      * eapply jobs_mono; [reflexivity| |exact Hjobs0]. auto.
      * constructor; [|constructor]. right. right. exists r, o. auto.
    + rewrite Forall_forall in *. intros r0 Hr0.
      destruct (Hcallers r0 Hr0) as [(o' & Hro & Ho')|(Hrp & Hcap)]; [left; eauto|].
      right. split; [exact Hrp|].
      destruct Hcap as [Hcap|[(rs' & Hrs' & Hin)|(o' & Hcap)]].
      * rewrite Hq in Hcap. apply elem_of_cons in Hcap as [Hcap|Hcap].
        -- injection Hcap as ->. right. right. exists o. rewrite Hq'.
           apply elem_of_app. right. apply list_elem_of_here.
        -- left. rewrite Hq'. apply elem_of_app. left. exact Hcap.
      * congruence.
      * right. right. exists o'. rewrite Hq in Hcap. rewrite Hq'.
        apply elem_of_cons in Hcap as [Hcap|Hcap]; [discriminate|].
        apply elem_of_app. left. exact Hcap.
Qed.

(** A caller's promise settles with the outcome of the cached promise. *)
Lemma tick_inv_adopted st R r o q' :
  inv st R -> queue st = JReact (adopt r) o :: q' -> r ∈ R ->
  promises st !! p3 = Some (Settled o) ->
  inv (exec tick st) R.
Proof.
  intros [HR Hph Hjobs Hcallers] Hq Hr Ho.
  destruct (range_not_chain R r HR Hr) as (Hr1 & Hr2 & Hr3).
  assert (Hj : is_chain (JReact (adopt r) o) = false) by (simpl; apply eqb_false, Hr1).
  pose proof (chain_tail st _ q' Hq Hj) as Hct.
  pose proof Hjobs as Hjobs0. rewrite Hq in Hjobs0.
  apply Forall_cons in Hjobs0 as [_ Hjobs0].
  rewrite (tick_adopt st r o q' Hq).
  assert (Hcases : exists st',
    exec (settle r o) (pop q' st) = st' /\ queue st' = q' /\
    containers st' = containers st /\ factory_log st' = factory_log st /\
    externals st' = externals st /\
    (forall p x, promises st !! p = Some x -> p <> r -> promises st' !! p = Some x) /\
    (forall p o', promises st !! p = Some (Settled o') ->
                  promises st' !! p = Some (Settled o')) /\
    exists o', promises st' !! r = Some (Settled o') /\
               promises st' !! p3 = Some (Settled o')).
  { rewrite Forall_forall in Hcallers.
    destruct (Hcallers r Hr) as [(o' & Hro & Ho')|(Hrp & _)].
    - exists (pop q' st). unfold exec. rewrite (settle_settled _ _ _ o') by exact Hro.
      repeat split; eauto.
    - eexists. split; [apply (exec_settle_pending _ _ _ []); exact Hrp|].
      unfold settled, pop. st_simpl. cbn [map]. rewrite app_nil_r.
      repeat split; auto.
      + intros p x Hp Hne. apply lookup_put_ne; auto.
      + intros p o' Hp. eapply lookup_put_settled; eauto.
      + exists o. split; [eapply lookup_put_eq, Hrp|].
        apply lookup_put_ne; auto. }
  destruct Hcases as (st' & -> & Hq' & Hcs & Hlg & Hex & Hkeep & Hstable & o' & Hro' & Ho').
  split; [exact HR| | |].
  - eapply (phase_frame st); try eassumption; try reflexivity.
    + intros p x Hp _ HpR. apply Hkeep; [exact Hp|]. intros ->. contradiction.
    + intros (rs & Hrs & _). congruence.
    + unfold chain at 1. rewrite Hq'. symmetry. exact Hct.
    + auto.
  - rewrite Hq'. eapply jobs_mono; [reflexivity| |exact Hjobs0]. auto.
  - rewrite Forall_forall in *. intros r0 Hr0.
    destruct (decide (r0 = r)) as [->|Hne]; [left; eauto|].
    destruct (Hcallers r0 Hr0) as [(o1 & Hro & Ho1)|(Hrp & Hcap)]; [left; eauto|].
    right. split; [apply Hkeep; assumption|].
    destruct Hcap as [Hcap|[(rs' & Hrs' & Hin)|(o1 & Hcap)]].
    + left. rewrite Hq in Hcap. rewrite Hq'.
      apply elem_of_cons in Hcap as [Hcap|Hcap]; [discriminate|exact Hcap].
    + congruence.
    + right. right. exists o1. rewrite Hq in Hcap. rewrite Hq'.
      apply elem_of_cons in Hcap as [Hcap|Hcap]; [|exact Hcap].
      injection Hcap as Hcap _. unfold adopt in Hcap. congruence.
Qed.


Lemma tick_inv st R : inv st R -> inv (exec tick st) R.
Proof.
  intros Hinv. destruct (queue st) as [|j q'] eqn:Hq.
  { rewrite (tick_idle st Hq). exact Hinv. }
  pose proof (inv_jobs _ _ Hinv) as Hjobs. rewrite Hq in Hjobs.
  apply Forall_cons in Hjobs as [[Hj|Hj] _].
  - pose proof (chain_head st j q' Hq Hj) as Hch.
    destruct (inv_phase _ _ Hinv) as
      [ Hc0 Hp1 Hp2 Hw3 Hins Hlg Hex0
      | q Hc0 Hp1 Hp2 Hw3 Hins Hrn Hex0 Hqn HqR Hqc
      | q Hc0 Hp1 Hp2 Hw3 Hins Hrn Hex0 Hqn HqR Hqc
      | o Hc0 Hp1 Hp2 Hw3 Hins Hrn Hex0
      | o Hc0 Hp1 Hp2 Hw3 Hins Hrn Hex0
      | o Hc0 Hp1 Hp2 Hw3 Hrn Hex0
      | o Hc0 Hp1 Hp2 Hp3 Hrn Hex0 ];
      rewrite Hc0 in Hch; try discriminate;
      injection Hch as <- _.
    + eapply tick_inv_A; eassumption.
    + eapply tick_inv_B; eassumption.
    + eapply tick_inv_D; eassumption.
    + eapply tick_inv_E; eassumption.
    + eapply tick_inv_F; eassumption.
  - destruct Hj as [(r & Hr & ->)|(r & o & Hr & -> & Ho)].
    + eapply tick_inv_thenable; eassumption.
    + eapply tick_inv_adopted; eassumption.
Qed.

Lemma first_call r st :
  resolve c t f1 opts1 st0 = (Val r, st) ->
  r = n /\ st = after_miss c k f1 opts1 st0.
Proof.
  rewrite resolve_miss.
  - intros [= <- <-]. split; reflexivity.
  - unfold entry, this. rewrite Hc. exact Hfalsy.
Qed.

Lemma concurrent_inv st R :
  concurrent c t f1 opts1 st0 st R -> inv st R.
Proof.
  induction 1 as [r st Hres|st R g o r st' _ IH Hw Hres|st R _ IH|st R q o _ IH Hq].
  - apply first_call in Hres as [-> ->]. apply after_miss_inv.
  - eapply call_inv; eassumption.
  - apply tick_inv, IH.
  - apply settle_inv; assumption.
Qed.

End Concurrent.

(** Concurrent callers when no disposal and no earlier creation interferes.
    A call of [resolve] that finds no usable entry, made when no
    microtask is waiting, installs the pending entry before its factory has
    run.  Whatever further [resolve] calls for the token are issued on the
    container while the creation function has not completed, whatever
    factories they are given and however the calls interleave with the
    turns of the event loop and with the environment settling the promise
    that the creation function returned, the first caller's factory is the
    only one run and it is run at most once; a caller never sees an outcome
    other than that of the creation function; and once the creation
    function has completed and the loop has drained, every caller has that
    outcome. *)
Theorem concurrent_resolves_share_one_creation st0 c C t f opts st R :
  queue st0 = [] ->
  containers st0 !! c = Some C ->
  truthy (default (JVal VUndefined) (singletons C !! key t)) = false ->
  concurrent c t f opts st0 st R ->
  (factory_log st = factory_log st0 \/
   factory_log st = factory_log st0 ++ [fname f]) /\
  (forall r o, r ∈ R -> outcome_of st r = Some o ->
               outcome_of st (factory_promise st0) = Some o) /\
  (forall o, queue st = [] -> outcome_of st (factory_promise st0) = Some o ->
             forall r, r ∈ R -> outcome_of st r = Some o) /\
  (outcome_of st (factory_promise st0) = None ->
   entry st c (key t) = Some (JPromise (creation_promise st0))) /\
  factory_log (exec (resolve c t f opts) st0) = factory_log st0.
Proof.
  intros Hq0 Hc Hfalsy Hconc.
  pose proof (concurrent_inv st0 c t f opts Hq0 C Hc Hfalsy st R Hconc)
    as [HR Hph Hjobs Hcallers].
  rewrite Forall_forall in Hcallers.
  unfold factory_promise, creation_promise, outcome_of.
  split; [|split; [|split; [|split]]].
  - destruct Hph; auto.
  - intros r o Hr Hro.
    destruct (Hcallers r Hr) as [(o' & Hr' & H3)|(Hr' & _)];
      rewrite Hr' in Hro; [|discriminate]. injection Hro as ->.
    destruct Hph as
      [ Hc0 H1 H2 Hw3 Hins Hlg Hex0
      | q Hc0 H1 H2 Hw3 Hins Hrn Hex0 Hqn HqR Hqc
      | q Hc0 H1 H2 Hw3 Hins Hrn Hex0 Hqn HqR Hqc
      | o' Hc0 H1 H2 Hw3 Hins Hrn Hex0
      | o' Hc0 H1 H2 Hw3 Hins Hrn Hex0
      | o' Hc0 H1 H2 Hw3 Hrn Hex0
      | o' Hc0 H1 H2 H3' Hrn Hex0 ];
      try (destruct Hw3 as (rs & Hrs & _); congruence).
    rewrite H1. congruence.
  - intros o Hq Hp1 r Hr.
    assert (H3 : promises st !! (length (promises st0) + 4) = Some (Settled o)).
    { destruct Hph as
        [ Hc0 H1 H2 Hw3 Hins Hlg Hex0
        | q Hc0 H1 H2 Hw3 Hins Hrn Hex0 Hqn HqR Hqc
        | q Hc0 H1 H2 Hw3 Hins Hrn Hex0 Hqn HqR Hqc
        | o' Hc0 H1 H2 Hw3 Hins Hrn Hex0
        | o' Hc0 H1 H2 Hw3 Hins Hrn Hex0
        | o' Hc0 H1 H2 Hw3 Hrn Hex0
        | o' Hc0 H1 H2 H3 Hrn Hex0 ];
        unfold chain in Hc0; rewrite Hq in Hc0; try discriminate;
        unfold pending1 in *; rewrite H1 in Hp1; try discriminate.
      injection Hp1 as <-. exact H3. }
    destruct (Hcallers r Hr) as [(o' & Hr' & H3')|(Hr' & Hcap)].
    + rewrite Hr'. congruence.
    + exfalso. rewrite Hq in Hcap.
      destruct Hcap as [Hcap|[(rs & Hrs & _)|(o' & Hcap)]].
      * apply elem_of_nil in Hcap. exact Hcap.
      * congruence.
      * apply elem_of_nil in Hcap. exact Hcap.
  - intros Hw. eapply window_installed; [exact Hph|]. exact Hw.
  - unfold exec. rewrite resolve_miss; [reflexivity|].
    unfold entry, this. rewrite Hc. exact Hfalsy.
Qed.

Lemma conc_first_step c t f opts st0 r :
  (resolve c t f opts st0).1 = Val r ->
  concurrent c t f opts st0 (step (EResolve c t f opts) st0) [r].
Proof.
  intros Hr. apply conc_first. unfold step, exec.
  destruct (resolve c t f opts st0) as [x st]. simpl in *. congruence.
Qed.

Lemma conc_call_step c t f opts st0 st R g o r :
  concurrent c t f opts st0 st R ->
  outcome_of st (factory_promise st0) = None ->
  (resolve c t g o st).1 = Val r ->
  concurrent c t f opts st0 (step (EResolve c t g o) st) (R ++ [r]).
Proof.
  intros Hc Hw Hr. apply (conc_call _ _ _ _ _ st R g o r); [exact Hc|exact Hw|].
  unfold step, exec.
  destruct (resolve c t g o st) as [x st']. simpl in *. subst x. reflexivity.
Qed.

Lemma shared_run_concurrent :
  concurrent 0 NUMBER slow no_options init shared_run [0; 5].
Proof.
  unfold shared_run. cbn [repeat app run fold_left].
  do 5 apply conc_tick. apply conc_settle; [|apply not_elem_of_nil].
  do 4 apply conc_tick.
  change [0; 5] with ([0] ++ [5]).
  apply conc_call_step; [apply conc_first_step| |]; vm_compute; reflexivity.
Qed.

Lemma concurrent_resolves_share_one_creation_witness :
  (factory_log shared_run = factory_log init \/
   factory_log shared_run = factory_log init ++ [fname slow]) /\
  (forall r o, r ∈ [0; 5] -> outcome_of shared_run r = Some o ->
               outcome_of shared_run (factory_promise init) = Some o) /\
  (forall o, queue shared_run = [] ->
             outcome_of shared_run (factory_promise init) = Some o ->
             forall r, r ∈ [0; 5] -> outcome_of shared_run r = Some o) /\
  (outcome_of shared_run (factory_promise init) = None ->
   entry shared_run 0 (key NUMBER) = Some (JPromise (creation_promise init))) /\
  factory_log (exec (resolve 0 NUMBER slow no_options) init) = factory_log init.
Proof.
  exact (concurrent_resolves_share_one_creation init 0 empty_container NUMBER
           slow no_options shared_run [0; 5] eq_refl eq_refl eq_refl
           shared_run_concurrent).
Defined.

(** In that run the factory [slow] ran once, [one] never, and both callers
    got the value. *)
Lemma shared_run_outcome :
  factory_log shared_run = [fname slow] /\
  outcome_of shared_run 0 = Some (Ful (VNum 9)) /\
  outcome_of shared_run 5 = Some (Ful (VNum 9)).
Proof. vm_compute. repeat split. Qed.

(** *** Disposal *)

(** **** The heap only grows, and a settled promise stays settled *)

Lemma heap_le_refl st : heap_le st st.
Proof. split; auto. Qed.

Lemma heap_le_trans st1 st2 st3 :
  heap_le st1 st2 -> heap_le st2 st3 -> heap_le st1 st3.
Proof. intros [H1 H2] [H3 H4]. split; [lia|auto]. Qed.

Lemma heap_le_same (st st' : state) :
  promises st' = promises st -> heap_le st st'.
Proof. intros He. split; rewrite He; auto. Qed.

Lemma grows_refl st : grows st st.
Proof. split; [apply heap_le_refl|reflexivity]. Qed.

Lemma grows_trans st1 st2 st3 : grows st1 st2 -> grows st2 st3 -> grows st1 st3.
Proof.
  intros [H1 H2] [H3 H4]. split; [eapply heap_le_trans; eassumption|].
  etransitivity; eassumption.
Qed.

Lemma grows_same (st st' : state) :
  promises st' = promises st -> queue st' = queue st -> grows st st'.
Proof. intros Hp Hq. split; [apply heap_le_same, Hp|rewrite Hq; reflexivity]. Qed.

Lemma mono_ret {A} (a : A) : mono (ret a).
Proof. intros st. apply grows_refl. Qed.

Lemma mono_throw {A} e : mono (throw (A := A) e).
Proof. intros st. apply grows_refl. Qed.

Lemma mono_gets {A} (f : state -> A) : mono (gets f).
Proof. intros st. apply grows_refl. Qed.

Lemma mono_modify (f : state -> state) :
  (forall st, promises (f st) = promises st) ->
  (forall st, queue (f st) = queue st) -> mono (modify f).
Proof. intros Hf Hq st. apply grows_same; [apply Hf|apply Hq]. Qed.

Lemma mono_bind {A B} (m : M A) (k : A -> M B) :
  mono m -> (forall a, mono (k a)) -> mono (bind m k).
Proof.
  intros Hm Hk st. unfold bind. specialize (Hm st).
  destruct (m st) as [[a|e] st1]; simpl in *; [|exact Hm].
  eapply grows_trans; [exact Hm|apply Hk].
Qed.

Lemma mono_try_catch {A} (m : M A) h :
  mono m -> (forall e, mono (h e)) -> mono (try_catch m h).
Proof.
  intros Hm Hh st. unfold try_catch. specialize (Hm st).
  destruct (m st) as [[a|e] st1]; simpl in *; [exact Hm|].
  eapply grows_trans; [exact Hm|apply Hh].
Qed.

Lemma mono_array_map {A B} (f : A -> M B) l :
  (forall a, mono (f a)) -> mono (array_map f l).
Proof.
  intros Hf. induction l as [|a l IH]; simpl; [apply mono_ret|].
  apply mono_bind; [apply Hf|]. intros b.
  apply mono_bind; [apply IH|]. intros bs. apply mono_ret.
Qed.

Lemma mono_new_promise cl : mono (new_promise cl : M pid).
Proof.
  intros st. split; [split|]; simpl.
  - rewrite length_app. lia.
  - intros p o Hp. apply lookup_app_l_Some, Hp.
  - reflexivity.
Qed.

Lemma heap_le_write (st : state) p x rs :
  promises st !! p = Some (Pending rs) ->
  heap_le st (set_promises (fun h => <[p := x]> h) st).
Proof.
  intros Hp. split; simpl.
  - rewrite length_insert. lia.
  - intros p' o Hp'. rewrite list_lookup_insert_ne; [exact Hp'|]. congruence.
Qed.

Lemma mono_settle p o : mono (settle p o : M unit).
Proof.
  intros st. unfold settle. destruct (promises st !! p) as [[rs|o']|] eqn:Hp;
    simpl; try apply grows_refl.
  split; [|apply prefix_app_r; reflexivity].
  eapply heap_le_trans; [eapply heap_le_write, Hp|]. apply heap_le_same. reflexivity.
Qed.

Lemma mono_enqueue j : mono (enqueue j : M unit).
Proof.
  intros st. split; [apply heap_le_same; reflexivity|]. apply prefix_app_r. reflexivity.
Qed.

Lemma mono_register p x : mono (register p x : M unit).
Proof.
  intros st. unfold register. destruct (promises st !! p) as [[rs|o']|] eqn:Hp;
    simpl; try apply grows_refl.
  - split; [eapply heap_le_write, Hp|reflexivity].
  - apply mono_enqueue.
Qed.

Lemma mono_new_agg k p : mono (new_agg k p : M nat).
Proof. intros st. apply grows_same; reflexivity. Qed.

Lemma mono_settled_elem a : mono (settled_elem a : M unit).
Proof.
  intros st. unfold settled_elem. destruct (aggs st !! a) as [g|]; [|apply grows_refl].
  destruct (_ =? 0); simpl.
  - eapply grows_trans; [|apply mono_settle]. apply grows_same; reflexivity.
  - apply grows_same; reflexivity.
Qed.

Ltac mono_step :=
  first
    [ apply mono_ret | apply mono_throw | apply mono_gets
    | apply mono_enqueue | apply mono_new_promise | apply mono_settle
    | apply mono_register | apply mono_new_agg | apply mono_settled_elem
    | apply mono_modify; reflexivity
    | apply mono_bind; [|intros ?]
    | apply mono_try_catch; [|intros ?]
    | apply mono_array_map; intros ?
    | match goal with
      | |- mono (match ?x with _ => _ end) => destruct x
      | |- mono (if ?x then _ else _) => destruct x
      end ].

Ltac mono_unfold :=
  progress unfold resolve, disposeAll, createScope, token, fresh_symbol, async_fn,
    await_, then_, Promise_resolve, Promise_reject, Promise_allSettled,
    resolve_promise, invoke_factory, invoke_disposer, console_log,
    singletons_get, singletons_set, singletons_delete, singletons_clear,
    disposers_push, update.

Ltac mono_solve := repeat first [mono_step | mono_unfold].

Lemma mono_run_handler h t o : mono (run_handler h t o).
Proof. destruct h, o; simpl; mono_solve. Qed.

Lemma mono_resolve c t f opts : mono (resolve c t f opts).
Proof. mono_solve. Qed.

Lemma mono_disposeAll c : mono (disposeAll c).
Proof. mono_solve. Qed.

Lemma mono_createScope c : mono (createScope c).
Proof.
  unfold createScope. apply mono_bind; [|intros ?; mono_solve].
  intros st. apply grows_same; reflexivity.
Qed.

Lemma mono_token d : mono (token d : M InjectionToken).
Proof.
  unfold token. apply mono_bind; [|intros ?; apply mono_ret].
  intros st. apply grows_same; reflexivity.
Qed.

Lemma mono_run_job j : mono (run_job run_handler j).
Proof.
  destruct j as [[h t] o|r p]; simpl; [|apply mono_register].
  unfold run_reaction; simpl. destruct h as [|a|h]; mono_solve.
  apply mono_run_handler.
Qed.

Lemma mono_env_settle q o : mono (env_settle q o : M unit).
Proof.
  intros st. unfold env_settle. destruct (bool_decide _); [apply mono_settle|apply grows_refl].
Qed.

(** A turn of the loop takes the first job and only adds jobs at the end. *)
Lemma tick_queue (st : state) j q :
  queue st = j :: q -> q `prefix_of` queue (exec tick st).
Proof.
  intros Hq. unfold exec, Runtime.tick. rewrite Hq.
  apply (mono_run_job j (set_queue (fun _ => q) st)).
Qed.

Lemma step_heap_le ev st : heap_le st (step ev st).
Proof.
  destruct ev; simpl; unfold exec.
  - apply mono_token.
  - apply mono_resolve.
  - apply mono_disposeAll.
  - apply mono_createScope.
  - unfold Runtime.tick. destruct (queue st) as [|j q]; [apply heap_le_refl|].
    eapply heap_le_trans; [|apply mono_run_job]. apply heap_le_same. reflexivity.
  - apply mono_env_settle.
Qed.

Lemma run_heap_le tr st : heap_le st (run tr st).
Proof.
  revert st. induction tr as [|ev tr IH]; intros st; [apply heap_le_refl|].
  eapply heap_le_trans; [apply (step_heap_le ev)|apply IH].
Qed.

(** The job behind [q] in the queue is first after [length q] turns. *)
Lemma ticks_reach q : forall (st : state) j rest,
  queue st = q ++ j :: rest ->
  exists ex, queue (run (repeat ETick (length q)) st) = j :: rest ++ ex.
Proof.
  induction q as [|a q IH]; intros st j rest Hq; simpl.
  - exists []. rewrite app_nil_r. exact Hq.
  - destruct (tick_queue st a (q ++ j :: rest) Hq) as [ex1 Hex].
    rewrite <- app_assoc in Hex. simpl in Hex.
    destruct (IH (exec tick st) j (rest ++ ex1) Hex) as [ex2 H2].
    exists (ex1 ++ ex2). rewrite app_assoc. exact H2.
Qed.

(** **** Who may settle a promise *)

Section Safe.
Context (r : pid) (allowed : reaction -> Prop) (Side Exit : state -> Prop).

Local Abbreviation rx_ok := (rx_ok r allowed).
Local Abbreviation job_ok := (job_ok r allowed).
Local Abbreviation cell_ok := (cell_ok r allowed).
Local Abbreviation clean := (clean r allowed).
Local Abbreviation guarded := (guarded r allowed Side).
Local Abbreviation safe := (safe r allowed Side Exit).
Local Abbreviation other := (other r).

Hypothesis Side_other :
  forall st st', promises st' = promises st -> Side st -> Side st'.
Hypothesis Side_alloc :
  forall cl st, Side st ->
    (Side (set_promises (fun h => h ++ [cl]) st) /\ length (promises st) <> r) \/
    Exit (set_promises (fun h => h ++ [cl]) st).
Hypothesis Side_write :
  forall p x y st, Side st -> promises st !! p = Some x ->
    (p = r -> exists rs rs', x = Pending rs /\ y = Pending rs') ->
    Side (set_promises (fun h => <[p := y]> h) st).
Hypothesis Exit_mono : forall st st', heap_le st st' -> Exit st -> Exit st'.

Lemma safe_ret {A} (G : A -> Prop) a : G a -> safe G (ret a).
Proof. intros Ha st HJ. left. split; assumption. Qed.

Lemma safe_throw {A} (G : A -> Prop) e : safe G (throw e).
Proof. intros st HJ. left. split; [assumption|exact I]. Qed.

Lemma safe_gets {A} (f : state -> A) : safe any (gets f).
Proof. intros st HJ. left. split; [assumption|exact I]. Qed.

Lemma safe_weaken {A} (G G' : A -> Prop) m :
  (forall a, G a -> G' a) -> safe G m -> safe G' m.
Proof.
  intros HG Hm st HJ. destruct (Hm st HJ) as [[HJ' Hr]|He]; [left|right; exact He].
  split; [exact HJ'|]. destruct (m st).1; simpl in *; auto.
Qed.

Lemma safe_bind {A B} (G1 : A -> Prop) (G : B -> Prop) (m : M A) (k : A -> M B) :
  safe G1 m -> (forall a, G1 a -> safe G (k a)) -> (forall a, mono (k a)) ->
  safe G (bind m k).
Proof.
  intros Hm Hk Hmono st HJ. unfold bind.
  destruct (Hm st HJ) as [[HJ' Hr]|He]; destruct (m st) as [[a|e] st1]; simpl in *.
  - apply Hk; assumption.
  - left. split; [assumption|exact I].
  - right. eapply Exit_mono; [apply (Hmono _ _)|exact He].
  - right. exact He.
Qed.

Ltac chain := eapply safe_bind; [| |intros ?; mono_solve].

Lemma safe_try_catch {A} (G : A -> Prop) (m : M A) h :
  safe G m -> (forall e, safe G (h e)) -> (forall e, mono (h e)) ->
  safe G (try_catch m h).
Proof.
  intros Hm Hh Hmono st HJ. unfold try_catch.
  destruct (Hm st HJ) as [[HJ' Hr]|He]; destruct (m st) as [[a|e] st1]; simpl in *.
  - left. split; assumption.
  - apply Hh. assumption.
  - right. exact He.
  - right. eapply Exit_mono; [apply (Hmono _ _)|exact He].
Qed.

Lemma safe_array_map {A B} (f : A -> M B) l :
  (forall a, safe any (f a)) -> (forall a, mono (f a)) ->
  safe any (array_map f l).
Proof.
  intros Hf Hmono. induction l as [|a l IH]; simpl.
  - apply safe_ret. exact I.
  - eapply safe_bind; [apply Hf| |].
    + intros b _. eapply safe_bind; [apply IH| |].
      * intros bs _. apply safe_ret. exact I.
      * intros bs. apply mono_ret.
    + intros b. apply mono_bind; [apply mono_array_map, Hmono|]. intros bs. apply mono_ret.
Qed.

(** A change outside the promise heap that adds no capability. *)
Lemma safe_modify_other (f : state -> state) :
  (forall st, promises (f st) = promises st) ->
  (forall st, queue (f st) = queue st) ->
  (forall st, externals (f st) = externals st) ->
  (forall st, aggs (f st) = aggs st) ->
  safe any (modify f).
Proof.
  intros Hp Hq He Ha st [HS [H1 H2 H3 H4]]. left. split; [|exact I]. simpl. split.
  - eapply Side_other; [apply Hp|exact HS].
  - split; rewrite ?Hp, ?Hq, ?He, ?Ha; assumption.
Qed.

Lemma safe_enqueue j : job_ok j -> safe any (enqueue j).
Proof.
  intros Hj st [HS [H1 H2 H3 H4]]. left. split; [|exact I]. simpl. split.
  - eapply Side_other; [|exact HS]. reflexivity.
  - split; simpl; auto. apply Forall_app. split; [exact H1|]. constructor; [exact Hj|constructor].
Qed.

Lemma safe_new_promise cl : cell_ok cl -> safe other (new_promise cl).
Proof.
  intros Hcl st [HS [H1 H2 H3 H4]].
  destruct (Side_alloc cl st HS) as [[HS' Hne]|He]; [left|right; exact He].
  split; [|exact Hne]. split; [exact HS'|]. split; simpl; auto.
  apply Forall_app. split; [exact H2|]. constructor; [exact Hcl|constructor].
Qed.

Lemma cells_lookup (st : state) p rs :
  clean st -> promises st !! p = Some (Pending rs) -> Forall rx_ok rs.
Proof.
  intros [_ H2 _ _] Hp. rewrite Forall_forall in H2.
  apply (H2 (Pending rs)). eapply list_elem_of_lookup_2, Hp.
Qed.

Lemma safe_settle p o : p <> r -> safe any (settle p o).
Proof.
  intros Hne st [HS Hcl]. left. split; [|unfold settle; destruct (promises st !! p) as [[?|?]|]; exact I].
  unfold settle. destruct (promises st !! p) as [[rs|o']|] eqn:Hp; simpl;
    try (split; assumption).
  pose proof (cells_lookup st p rs Hcl Hp) as Hrs.
  destruct Hcl as [H1 H2 H3 H4]. split.
  - eapply (Side_other (set_promises (fun h => <[p := Settled o]> h) st)); [reflexivity|].
    eapply Side_write; [exact HS|exact Hp|]. intros ->. contradiction.
  - split; simpl; auto.
    + apply Forall_app. split; [exact H1|]. apply Forall_fmap.
      eapply Forall_impl; [exact Hrs|]. intros x Hx. exact Hx.
    + apply Forall_insert; [exact H2|exact I].
Qed.

Lemma safe_register p x : rx_ok x -> safe any (register p x).
Proof.
  intros Hx st [HS Hcl]. left. split; [|unfold register; destruct (promises st !! p) as [[?|?]|]; exact I].
  unfold register. destruct (promises st !! p) as [[rs|o']|] eqn:Hp; simpl;
    try (split; assumption).
  - pose proof (cells_lookup st p rs Hcl Hp) as Hrs.
    destruct Hcl as [H1 H2 H3 H4]. split.
    + eapply Side_write; [exact HS|exact Hp|]. intros _. eauto.
    + split; simpl; auto. apply Forall_insert; [exact H2|].
      simpl. apply Forall_app. split; [exact Hrs|]. constructor; [exact Hx|constructor].
  - destruct Hcl as [H1 H2 H3 H4]. split.
    + eapply Side_other; [|exact HS]. reflexivity.
    + split; simpl; auto. apply Forall_app. split; [exact H1|].
      constructor; [exact Hx|constructor].
Qed.

Lemma safe_resolve_promise p x : p <> r -> safe any (resolve_promise p x).
Proof.
  intros Hne. destruct x as [v|t]; simpl.
  - apply safe_settle, Hne.
  - apply safe_enqueue. exact Hne.
Qed.

Lemma safe_then p h : safe other (then_ p h).
Proof.
  unfold then_. eapply safe_bind; [apply safe_new_promise; constructor| |].
  - intros d Hd. eapply safe_bind; [apply safe_register| |].
    + intros Ht. simpl in Ht. contradiction.
    + intros _ _. apply safe_ret. exact Hd.
    + intros _. apply mono_ret.
  - intros d. mono_solve.
Qed.

Lemma safe_Promise_resolve x : safe any (Promise_resolve x).
Proof.
  destruct x as [v|p]; simpl.
  - eapply safe_weaken; [|apply safe_new_promise; exact I]. intros; exact I.
  - apply safe_ret. exact I.
Qed.

Lemma safe_new_agg k p : p <> r -> safe any (new_agg k p).
Proof.
  intros Hne st [HS [H1 H2 H3 H4]]. left. split; [|exact I]. simpl. split.
  - eapply Side_other; [|exact HS]. reflexivity.
  - split; simpl; auto. apply Forall_app. split; [exact H4|].
    constructor; [exact Hne|constructor].
Qed.

Lemma safe_settled_elem a : safe any (settled_elem a).
Proof.
  intros st HJ. unfold settled_elem.
  destruct (aggs st !! a) as [g|] eqn:Ha; [|left; split; [exact HJ|exact I]].
  assert (Hg : result g <> r).
  { destruct HJ as [_ [_ _ _ H4]]. rewrite Forall_forall in H4.
    apply H4. eapply list_elem_of_lookup_2, Ha. }
  set (st' := set_aggs _ st).
  assert (HJ' : guarded st').
  { destruct HJ as [HS [H1 H2 H3 H4]]. split.
    - eapply Side_other; [|exact HS]. reflexivity.
    - split; simpl; auto. apply Forall_insert; [exact H4|exact Hg]. }
  destruct (_ =? 0).
  - apply (safe_settle _ _ Hg st' HJ').
  - left. split; [exact HJ'|exact I].
Qed.

Lemma safe_Promise_allSettled xs : safe any (Promise_allSettled xs).
Proof.
  unfold Promise_allSettled.
  eapply safe_bind; [apply safe_new_promise; constructor| |intros ?; mono_solve].
  intros p Hp. eapply safe_bind; [apply safe_new_agg, Hp| |intros ?; mono_solve].
  intros a _. eapply safe_bind; [| |intros ?; mono_solve].
  { apply safe_array_map; [|intros ?; mono_solve].
    intros x. eapply safe_bind; [apply safe_Promise_resolve| |intros ?; mono_solve].
    intros p' _. eapply safe_weaken; [|apply safe_then]. intros; exact I. }
  intros _ _. eapply safe_bind; [| |intros ?; mono_solve].
  { destruct (_ =? 0); [apply safe_settle, Hp|apply safe_ret; exact I]. }
  intros _ _. apply safe_ret. exact I.
Qed.

Lemma safe_async_fn body :
  (forall r', r' <> r -> safe any (body r')) -> (forall r', mono (body r')) ->
  safe other (async_fn body).
Proof.
  intros Hb Hm. unfold async_fn.
  eapply safe_bind; [apply safe_new_promise; constructor| |].
  - intros r' Hr'. eapply safe_bind; [| |intros ?; apply mono_ret].
    + apply safe_try_catch; [apply Hb, Hr'| |intros ?; apply mono_settle].
      intros e. apply safe_settle, Hr'.
    + intros _ _. apply safe_ret. exact Hr'.
  - intros r'. apply mono_bind; [|intros ?; apply mono_ret].
    apply mono_try_catch; [apply Hm|intros ?; apply mono_settle].
Qed.

Lemma safe_await p h r' :
  (r' = r -> allowed (rx h r')) -> safe any (await_ p h r').
Proof. intros Hr. apply safe_register. exact Hr. Qed.

Lemma safe_add_external q : q <> r -> safe any (modify (set_externals (fun l => q :: l))).
Proof.
  intros Hq st [HS [H1 H2 H3 H4]]. left. split; [|exact I]. simpl. split.
  - eapply Side_other; [|exact HS]. reflexivity.
  - split; simpl; auto. intros Hin. apply elem_of_cons in Hin as [Hin|Hin]; auto.
Qed.

Lemma safe_invoke_factory f : safe any (invoke_factory f).
Proof.
  unfold invoke_factory.
  eapply safe_bind; [apply safe_gets| |intros ?; mono_solve].
  intros k _. eapply safe_bind; [apply safe_modify_other; reflexivity| |intros ?; mono_solve].
  intros _ _. destruct (behaviour f k).
  - apply safe_ret. exact I.
  - apply safe_throw.
  - eapply safe_bind; [apply safe_new_promise; constructor| |intros ?; mono_solve].
    intros q Hq. eapply safe_bind; [apply safe_add_external, Hq| |intros ?; mono_solve].
    intros _ _. apply safe_ret. exact I.
Qed.

Lemma safe_invoke_disposer d v : safe any (invoke_disposer d v).
Proof.
  unfold invoke_disposer.
  eapply safe_bind; [apply safe_gets| |intros ?; mono_solve].
  intros k _. eapply safe_bind; [apply safe_modify_other; reflexivity| |intros ?; mono_solve].
  intros _ _. destruct (dbehaviour d v k).
  - apply safe_ret. exact I.
  - apply safe_throw.
  - eapply safe_bind; [apply safe_new_promise; constructor| |intros ?; mono_solve].
    intros q Hq. eapply safe_bind; [apply safe_add_external, Hq| |intros ?; mono_solve].
    intros _ _. apply safe_ret. exact I.
Qed.

Lemma safe_elsewhere {A} (m : M A) :
  (forall st, promises (m st).2 = promises st) ->
  (forall st, queue (m st).2 = queue st) ->
  (forall st, externals (m st).2 = externals st) ->
  (forall st, aggs (m st).2 = aggs st) ->
  safe any m.
Proof.
  intros Hp Hq He Ha st [HS [H1 H2 H3 H4]]. left. split.
  - split; [eapply Side_other; [apply Hp|exact HS]|].
    split; rewrite ?Hp, ?Hq, ?He, ?Ha; assumption.
  - destruct (m st).1; exact I.
Qed.

Lemma safe_update c f : safe any (update c f).
Proof. apply safe_modify_other; auto. Qed.

Lemma safe_run_handler h t o : safe any (run_handler h t o).
Proof.
  destruct h as [f|c k opts|c k|c], o as [v|e]; simpl;
    try (apply safe_throw); try (apply safe_ret; exact I).
  - apply safe_invoke_factory; assumption.
  - unfold singletons_set, disposers_push.
    chain; [apply safe_update|]. intros _ _.
    chain; [destruct (dispose opts); [apply safe_update|apply safe_ret; exact I]|].
    intros _ _. apply safe_ret. exact I.
  - unfold singletons_delete. chain; [apply safe_update|]. intros _ _. apply safe_throw.
  - unfold singletons_clear. chain; [apply safe_update|]. intros _ _.
    chain; [apply safe_update|]. intros _ _. apply safe_ret. exact I.
Qed.

Lemma safe_run_reaction x o : target x <> r -> safe any (run_reaction run_handler x o).
Proof.
  intros Hx. unfold run_reaction. destruct (Runtime.handler x) as [|a|h].
  - apply safe_settle; assumption.
  - chain; [apply safe_settled_elem; assumption|]. intros _ _. apply safe_settle; assumption.
  - apply safe_try_catch; [|intros e; apply safe_settle; assumption|intros ?; mono_solve].
    chain; [apply safe_run_handler|]. intros y _. apply safe_resolve_promise; assumption.
Qed.

Lemma safe_resolve c t f opts : safe other (resolve c t f opts).
Proof.
  unfold resolve. apply safe_async_fn; [|intros ?; mono_solve].
  intros r' Hr'. unfold singletons_get, singletons_set.
  chain; [apply safe_gets|]. intros existing _.
  destruct (truthy existing); [apply safe_resolve_promise; assumption|].
  chain; [apply safe_Promise_resolve; assumption|]. intros p0 _.
  chain; [apply safe_then; assumption|]. intros p1 _.
  chain; [apply safe_then; assumption|]. intros p2 _.
  chain; [apply safe_then; assumption|]. intros p3 _.
  chain; [apply safe_update|]. intros _ _.
  apply safe_resolve_promise; assumption.
Qed.

Lemma safe_disposeAll_body c r' :
  (r' = r -> allowed (rx (HDisposeResume c) r')) -> safe any (disposeAll_body c r').
Proof.
  intros Hr. unfold disposeAll_body.
  chain; [apply safe_gets|]. intros ds _.
  chain; [apply safe_array_map;
              [intros ?; apply safe_invoke_disposer|intros ?; mono_solve]|].
  intros xs _.
  chain; [apply safe_Promise_allSettled; assumption|]. intros all _.
  apply safe_await; assumption.
Qed.

Lemma safe_disposeAll c : safe other (disposeAll c).
Proof.
  apply (safe_async_fn (disposeAll_body c)); [|intros ?; unfold disposeAll_body; mono_solve].
  intros r' Hr'. apply safe_disposeAll_body. intros ->. contradiction.
Qed.

Lemma safe_createScope c : safe any (createScope c).
Proof.
  unfold createScope.
  eapply safe_bind; [| |intros ?; mono_solve].
  - apply safe_elsewhere; reflexivity.
  - intros child _. chain; [apply safe_gets|]. intros m _.
    chain; [apply safe_update|]. intros _ _. apply safe_ret. exact I.
Qed.

Lemma safe_token d : safe any (token d).
Proof.
  unfold token. eapply safe_bind; [| |intros ?; mono_solve].
  - apply safe_elsewhere; reflexivity.
  - intros s _. apply safe_ret. exact I.
Qed.

Lemma guarded_pop st j q : queue st = j :: q -> guarded st -> guarded (pop q st) /\ job_ok j.
Proof.
  intros Hq [HS [H1 H2 H3 H4]]. rewrite Hq in H1. apply Forall_cons in H1 as [Hj H1].
  split; [|exact Hj]. split.
  - eapply Side_other; [|exact HS]. reflexivity.
  - split; simpl; assumption.
Qed.

(** A step keeps the invariant, unless it leaves the stage or runs an
    allowed reaction on [r]. *)
Lemma step_guarded ev st :
  guarded st ->
  (guarded (step ev st) \/ Exit (step ev st)) \/
  (ev = ETick /\ exists x o q, queue st = JReact x o :: q /\ target x = r /\ allowed x).
Proof.
  intros HJ.
  assert (Hdrop : forall A (G : A -> Prop) (m : M A),
            safe G m -> guarded (exec m st) \/ Exit (exec m st)).
  { intros A G m Hm. destruct (Hm st HJ) as [[H _]|H]; [left|right]; exact H. }
  destruct ev as [d|c t f opts|c|c| |q o]; simpl.
  - left. eapply Hdrop, safe_token.
  - left. eapply Hdrop, safe_resolve.
  - left. eapply Hdrop, safe_disposeAll.
  - left. eapply Hdrop, safe_createScope.
  - unfold exec, Runtime.tick. destruct (queue st) as [|j q] eqn:Hq; [left; left; exact HJ|].
    destruct (guarded_pop st j q Hq HJ) as [HJ' Hj]. fold (pop q st).
    destruct j as [x o|r' p]; simpl.
    + destruct (decide (target x = r)) as [Hx|Hx].
      * right. split; [reflexivity|]. exists x, o, q. auto.
      * left. destruct (safe_run_reaction x o Hx _ HJ') as [[H _]|H]; [left|right]; exact H.
    + left. simpl in Hj.
      destruct (safe_register p (adopt r') (fun H => False_ind _ (Hj H)) _ HJ')
        as [[H _]|H]; [left|right]; exact H.
  - left. unfold exec, env_settle. destruct (bool_decide_reflect (q ∈ externals st)) as [Hin|Hin];
      [|left; exact HJ].
    assert (Hq : q <> r).
    { intros ->. destruct HJ as [_ [_ _ H3 _]]. contradiction. }
    destruct (safe_settle q o Hq _ HJ) as [[H _]|H]; [left|right]; exact H.
Qed.

End Safe.

(** **** Promises that do not exist yet *)

Lemma wf_init : wf init.
Proof. intros r _. split; simpl; try constructor. apply not_elem_of_nil. Qed.

Lemma wf_step ev st : wf st -> wf (step ev st).
Proof.
  intros Hwf r Hr.
  pose proof (step_heap_le ev st) as [Hlen _].
  assert (HJ : guarded r nobody (fun s => length (promises s) <= r) st).
  { split; [lia|apply Hwf; lia]. }
  eapply (step_guarded r nobody (fun s => length (promises s) <= r)
            (fun s => r < length (promises s))) in HJ.
  - destruct HJ as [[[_ Hcl]|Hex]|(_ & x & o & q & _ & _ & [])]; [exact Hcl|lia].
  - intros s s' He. rewrite He. auto.
  - intros cl s Hs. simpl. rewrite length_app. simpl.
    destruct (decide (length (promises s) = r)); [right|left]; lia.
  - intros p x y s Hs _ _. simpl. rewrite length_insert. exact Hs.
  - intros s s' [Hl _] Hs. lia.
Qed.

Lemma wf_run tr : forall st, wf st -> wf (run tr st).
Proof.
  induction tr as [|ev tr IH]; intros st Hwf; [exact Hwf|].
  apply IH, wf_step, Hwf.
Qed.

(** **** The promise returned by [disposeAll] *)

Lemma pending_other r (st st' : state) :
  promises st' = promises st -> pending r st -> pending r st'.
Proof. intros He. unfold pending. rewrite He. auto. Qed.

Lemma pending_alloc r cl (st : state) :
  pending r st ->
  (pending r (set_promises (fun h => h ++ [cl]) st) /\ length (promises st) <> r) \/
  never (set_promises (fun h => h ++ [cl]) st).
Proof.
  intros [rs Hr]. left. split.
  - exists rs. simpl. apply lookup_app_l_Some, Hr.
  - apply lookup_lt_Some in Hr. lia.
Qed.

Lemma pending_write r p x y (st : state) :
  pending r st -> promises st !! p = Some x ->
  (p = r -> exists rs rs', x = Pending rs /\ y = Pending rs') ->
  pending r (set_promises (fun h => <[p := y]> h) st).
Proof.
  intros [rs Hr] Hp Hy. unfold pending. simpl. destruct (decide (p = r)) as [->|Hne].
  - destruct (Hy eq_refl) as (rs1 & rs2 & _ & ->). exists rs2.
    apply list_lookup_insert_eq. eapply lookup_lt_Some, Hr.
  - exists rs. rewrite list_lookup_insert_ne; [exact Hr|exact Hne].
Qed.

Lemma never_mono (st st' : state) : heap_le st st' -> never st -> never st'.
Proof. intros _ []. Qed.

Lemma clean_weaken r (P Q : reaction -> Prop) (st : state) :
  (forall x, P x -> Q x) -> clean r P st -> clean r Q st.
Proof.
  intros HPQ [H1 H2 H3 H4]. split; auto.
  - eapply Forall_impl; [exact H1|]. intros [x o|r' p]; simpl; unfold rx_ok; auto.
  - eapply Forall_impl; [exact H2|]. intros [rs|o]; simpl; auto.
    intros Hrs. eapply Forall_impl; [exact Hrs|]. unfold rx_ok. auto.
Qed.

Lemma outcome_stays (st st' : state) r o :
  heap_le st st' -> outcome_of st r = Some o -> outcome_of st' r = Some o.
Proof.
  intros [_ H] Ho. unfold outcome_of in *.
  destruct (promises st !! r) as [[rs|o']|] eqn:Hr; try discriminate.
  rewrite (H _ _ Hr). exact Ho.
Qed.

Lemma settle_outcome (st : state) r o :
  pending r st -> outcome_of (exec (settle r o) st) r = Some o.
Proof.
  intros [rs Hr]. unfold exec. rewrite (settle_pending _ _ _ _ Hr).
  unfold outcome_of, settled. simpl.
  rewrite list_lookup_insert_eq; [reflexivity|]. eapply lookup_lt_Some, Hr.
Qed.

(** The call returns a pending promise that only its own continuation can
    settle, unless a disposer threw during the call. *)
Lemma disposeAll_owned c (st : state) :
  wf st ->
  exists r st1, disposeAll c st = (Val r, st1) /\
    (owned c r st1 \/ exists e, outcome_of st1 r = Some (Rej e)).
Proof.
  intros Hwf. set (r := length (promises st)).
  set (st_a := set_promises (fun h => h ++ [Pending []]) st).
  assert (Ha : owned c r st_a).
  { split.
    - exists []. unfold st_a. simpl. apply list_lookup_middle. reflexivity.
    - destruct (clean_weaken r nobody (resume c r) st (fun x (H : nobody x) => False_ind _ H)
                  (Hwf r (le_n _))) as [H1 H2 H3 H4].
      split; simpl; auto. apply Forall_app. split; [exact H2|].
      constructor; [constructor|constructor]. }
  pose proof (safe_disposeAll_body r (resume c r) (pending r) never
                (pending_other r) (pending_alloc r) (pending_write r) never_mono
                c r (fun _ => eq_refl) st_a Ha) as Hb.
  exists r. change (disposeAll c) with (async_fn (disposeAll_body c)).
  unfold async_fn.
  unfold bind at 1. unfold new_promise at 1. cbn [fst snd]. fold r st_a.
  unfold bind at 1. unfold try_catch.
  destruct (disposeAll_body c r st_a) as [[[]|e] st_b]; simpl in *.
  - eexists. split; [reflexivity|]. left. destruct Hb as [[Hb _]|[]]. exact Hb.
  - destruct Hb as [[[Hp Hcl] _]|[]].
    destruct Hp as [rs Hr]. rewrite (settle_pending _ _ _ _ Hr). simpl.
    eexists. split; [reflexivity|]. right. exists e.
    unfold outcome_of, settled. simpl.
    rewrite list_lookup_insert_eq; [reflexivity|]. eapply lookup_lt_Some, Hr.
Qed.

Lemma owned_step c r ev st :
  owned c r st ->
  owned c r (step ev st) \/
  (ev = ETick /\ exists o q, queue st = JReact (rx (HDisposeResume c) r) o :: q).
Proof.
  intros HJ.
  destruct (step_guarded r (resume c r) (pending r) never
              (pending_other r) (pending_alloc r) (pending_write r) never_mono ev st HJ)
    as [[H|[]]|(-> & x & o & q & Hq & _ & ->)]; [left; exact H|].
  right. split; [reflexivity|]. eauto.
Qed.

(** The step that fulfils the promise is the one that runs the rest of
    [disposeAll]. *)
Lemma owned_completion c r ev st v :
  owned c r st ->
  outcome_of (step ev st) r = Some (Ful v) ->
  this c (step ev st) = empty_container.
Proof.
  intros Ho Hv. destruct (owned_step c r ev st Ho) as [[[rs Hr] _]|(-> & o & q & Hq)].
  - unfold outcome_of in Hv. rewrite Hr in Hv. discriminate.
  - destruct Ho as [Hp _]. simpl in *. destruct o as [u|e].
    + rewrite (tick_resume_ful _ _ _ _ _ Hq).
      unfold this, exec, settle. destruct (_ !! r) as [[?|?]|]; simpl;
        rewrite list_lookup_alter_eq; destruct (containers st !! c); reflexivity.
    + rewrite (tick_resume_rej _ _ _ _ _ Hq) in Hv.
      rewrite settle_outcome in Hv; [discriminate|].
      eapply pending_other; [|exact Hp]. reflexivity.
Qed.

Lemma owned_run c r tr : forall st,
  owned c r st -> owned c r (run tr st) \/ outcome_of (run tr st) r <> None.
Proof.
  induction tr as [|ev tr IH]; intros st Ho; [left; exact Ho|].
  rewrite run_cons. destruct (owned_step c r ev st Ho) as [H|(-> & o & q & Hq)].
  - apply IH, H.
  - right. destruct Ho as [Hp _].
    assert (Hs : exists o', outcome_of (step ETick st) r = Some o').
    { simpl. destruct o as [u|e].
      - rewrite (tick_resume_ful _ _ _ _ _ Hq). eexists. apply settle_outcome.
        eapply pending_other; [|exact Hp]. reflexivity.
      - rewrite (tick_resume_rej _ _ _ _ _ Hq). eexists. apply settle_outcome.
        eapply pending_other; [|exact Hp]. reflexivity. }
    destruct Hs as [o' Hs].
    rewrite (outcome_stays _ _ _ _ (run_heap_le tr _) Hs). discriminate.
Qed.

(** **** A call of [resolve] on a container without an entry for the token *)

Lemma settle_factory_log (st : state) p o :
  factory_log (exec (settle p o) st) = factory_log st.
Proof. unfold exec, settle. destruct (promises st !! p) as [[?|?]|]; reflexivity. Qed.

Lemma tick_factory_log (st : state) f d u q :
  queue st = JReact (rx (HFactory f) d) (Ful u) :: q ->
  factory_log (exec tick st) = factory_log st ++ [fname f].
Proof.
  intros Hq. destruct (behaviour f (times_called f st)) as [v|e|] eqn:Hb.
  - rewrite (tick_factory_return _ _ _ _ _ _ Hq Hb), settle_factory_log. reflexivity.
  - rewrite (tick_factory_throw _ _ _ _ _ _ Hq Hb), settle_factory_log. reflexivity.
  - rewrite (tick_factory_async _ _ _ _ _ Hq Hb). reflexivity.
Qed.

Lemma run_app tr1 tr2 st : run (tr1 ++ tr2) st = run tr2 (run tr1 st).
Proof. apply fold_left_app. Qed.

(** The creation function of a call that finds no entry runs in the turn
    that follows the jobs already waiting. *)
Lemma miss_invokes_factory (st : state) c t f opts :
  truthy (default (JVal VUndefined) (entry st c (key t))) = false ->
  factory_log (run (EResolve c t f opts :: repeat ETick (S (length (queue st)))) st) =
  factory_log (run (EResolve c t f opts :: repeat ETick (length (queue st))) st) ++ [fname f].
Proof.
  intros Hmiss. rewrite !run_cons.
  assert (Hq : queue (step (EResolve c t f opts) st) =
               queue st ++ JReact (rx (HFactory f) (length (promises st) + 2)) (Ful VUndefined)
                 :: [JThenable (length (promises st)) (length (promises st) + 4)]).
  { simpl. unfold exec. rewrite (resolve_miss _ _ _ _ _ Hmiss). reflexivity. }
  destruct (ticks_reach _ _ _ _ Hq) as [ex Hex].
  replace (S (length (queue st))) with (length (queue st) + 1) by lia.
  rewrite repeat_app, run_app. simpl.
  eapply tick_factory_log, Hex.
Qed.

(** Completion of [disposeAll] by fulfilment.  In the step in which the
    promise returned by [disposeAll] is fulfilled, the
    container's cache-entry mapping and its disposer list are both empty, and
    a call of [resolve] made then, for any token, invokes the creation
    function it is given: the function runs in the turn of the microtask loop
    that follows the jobs already waiting.  This holds in every state that
    the program can reach, for every continuation of the run after the call,
    and whatever the disposers did. *)
Theorem disposeAll_completion_resets_container tr0 c r st1 tr ev v :
  disposeAll c (run tr0 init) = (Val r, st1) ->
  outcome_of (run tr st1) r = None ->
  outcome_of (step ev (run tr st1)) r = Some (Ful v) ->
  let st' := step ev (run tr st1) in
  singletons (this c st') = ∅ /\
  disposers (this c st') = [] /\
  forall t f opts,
    factory_log (run (EResolve c t f opts :: repeat ETick (S (length (queue st')))) st') =
    factory_log (run (EResolve c t f opts :: repeat ETick (length (queue st'))) st')
      ++ [fname f].
Proof.
  intros Hd Hpend Hful st'.
  assert (He : this c st' = empty_container).
  { destruct (disposeAll_owned c (run tr0 init) (wf_run tr0 init wf_init))
      as (r' & st1' & Hd' & Hown).
    rewrite Hd in Hd'. injection Hd' as <- <-.
    destruct Hown as [Hown|[e He]].
    - destruct (owned_run c r tr st1 Hown) as [Ho|Hn]; [|contradiction].
      eapply owned_completion; eassumption.
    - rewrite (outcome_stays _ _ _ _ (run_heap_le tr st1) He) in Hpend. discriminate. }
  rewrite He. split; [reflexivity|]. split; [reflexivity|].
  intros t f opts. apply miss_invokes_factory.
  unfold entry. rewrite He. reflexivity.
Qed.

Lemma disposeAll_completion_resets_container_witness :
  let st1 := exec (disposeAll 0) (run disposed_run init) in
  let st' := step ETick (run [ETick] st1) in
  (entry (run disposed_run init) 0 (key NUMBER) = Some (JVal (VNum 7)) /\
   outcome_of st' 5 = Some (Ful VUndefined)) /\
  singletons (this 0 st') = ∅ /\
  disposers (this 0 st') = [] /\
  forall t f opts,
    factory_log (run (EResolve 0 t f opts :: repeat ETick (S (length (queue st')))) st') =
    factory_log (run (EResolve 0 t f opts :: repeat ETick (length (queue st'))) st')
      ++ [fname f].
Proof.
  split; [split; vm_compute; reflexivity|].
  apply (disposeAll_completion_resets_container disposed_run 0 5
           (exec (disposeAll 0) (run disposed_run init)) [ETick] ETick VUndefined);
    vm_compute; reflexivity.
Defined.

(** ** Further properties of the container *)

(** X1. A [resolve] that finds a truthy entry for the token does not use
    the factory and the options it was given: the containers, the factory
    log and the dispose log stay as they are.  If the entry is a value the
    returned promise is fulfilled with it in the call; if it is the promise
    of a creation, the returned promise is queued to follow it, and when
    that promise is settled already and the queue is empty it has the same
    outcome two turns later. *)
Theorem resolve_hit_ignores_call (st : state) c t f opts x :
  entry st c (key t) = Some x ->
  truthy x = true ->
  let r := length (promises st) in
  exists st',
    resolve c t f opts st = (Val r, st') /\
    containers st' = containers st /\
    factory_log st' = factory_log st /\
    dispose_log st' = dispose_log st /\
    match x with
    | JVal v => queue st' = queue st /\ outcome_of st' r = Some (Ful v)
    | JPromise p =>
        queue st' = queue st ++ [JThenable r p] /\
        forall o, queue st = [] -> outcome_of st p = Some o ->
                  outcome_of (run [ETick; ETick] st') r = Some o
    end.
Proof.
  intros He Hx r. destruct x as [v|p].
  - eexists. split; [apply resolve_hit_value; [exact He|exact Hx]|].
    repeat split. unfold outcome_of. simpl. subst r.
    rewrite list_lookup_middle by reflexivity. reflexivity.
  - eexists. split; [apply resolve_hit_promise; exact He|].
    repeat split. intros o Hq Ho. subst r.
    unfold outcome_of in Ho.
    destruct (promises st !! p) as [[rs|o']|] eqn:Hp; try discriminate.
    injection Ho as ->.
    destruct st as [h q cs ag ns ex fl dl co]. st_simpl. subst q.
    do_tick tick_thenable.
    erewrite exec_register_settled by (st_simpl; apply lookup_app_l_Some, Hp). st_norm.
    do_tick tick_adopt. settle_now.
    cbn [run fold_left]. unfold outcome_of. st_norm. reflexivity.
Qed.

Lemma resolve_hit_ignores_call_witness :
  let st := run disposed_run init in
  let r := length (promises st) in
  exists st',
    resolve 0 NUMBER one (with_dispose faulty) st = (Val r, st') /\
    containers st' = containers st /\
    factory_log st' = factory_log st /\
    dispose_log st' = dispose_log st /\
    queue st' = queue st /\ outcome_of st' r = Some (Ful (VNum 7)).
Proof.
  apply (resolve_hit_ignores_call (run disposed_run init) 0 NUMBER one
           (with_dispose faulty) (JVal (VNum 7))); vm_compute; reflexivity.
Defined.

(** X2. Once a creation has ended with a truthy value, a later [resolve] of
    the token on the same container is fulfilled with that value in the
    call, whatever factory and options it is given: the factory of the
    first call has run once, the second one not at all, and the container
    is as the first creation left it. *)
Theorem truthy_value_is_cached (st : state) w c C t f g opts opts' v :
  queue st = [] ->
  containers st !! c = Some C ->
  truthy (default (JVal VUndefined) (singletons C !! key t)) = false ->
  completes w f (times_called f st) (Ful v) ->
  truthy_value v = true ->
  let st1 := run (EResolve c t f opts ::
                  attempt w (length (promises st) + 5) (Ful v) 1) st in
  let st2 := step (EResolve c t g opts') st1 in
  outcome_of st1 (length (promises st)) = Some (Ful v) /\
  outcome_of st2 (length (promises st1)) = Some (Ful v) /\
  factory_log st2 = factory_log st ++ [fname f] /\
  this c st2 = stored (key t) opts v C /\
  queue st2 = [].
Proof.
  intros Hq Hc Hfalsy Hb Hv st1 st2.
  assert (H1 : st1 = finished w c (key t) f opts (Ful v) st)
    by (apply (attempt_single st w c C); assumption).
  assert (He : entry st1 c (key t) = Some (JVal v)).
  { rewrite H1. unfold entry, finished, this. st_simpl.
    rewrite list_lookup_alter_eq, Hc. simpl. unfold stored.
    destruct (dispose opts); simpl; apply lookup_insert_eq. }
  assert (H2 : st2 = set_promises (fun h => h ++ [Settled (Ful v)]) st1).
  { unfold st2. simpl. unfold exec. rewrite (resolve_hit_value _ _ _ _ _ _ He Hv). reflexivity. }
  rewrite H2. split; [|split; [|split; [|split]]].
  - rewrite H1. unfold outcome_of, finished. st_simpl.
    rewrite lookup_app_r by lia. rewrite Nat.sub_diag. reflexivity.
  - unfold outcome_of. simpl. rewrite list_lookup_middle by reflexivity. reflexivity.
  - rewrite H1. reflexivity.
  - rewrite H1. unfold this, finished. st_simpl. rewrite list_lookup_alter_eq, Hc. reflexivity.
  - rewrite H1. reflexivity.
Qed.

Lemma truthy_value_is_cached_witness :
  let st1 := run (EResolve 0 NUMBER seven (with_dispose close) ::
                  attempt Sync (length (promises init) + 5) (Ful (VNum 7)) 1) init in
  let st2 := step (EResolve 0 NUMBER one no_options) st1 in
  outcome_of st1 (length (promises init)) = Some (Ful (VNum 7)) /\
  outcome_of st2 (length (promises st1)) = Some (Ful (VNum 7)) /\
  factory_log st2 = factory_log init ++ [fname seven] /\
  this 0 st2 = stored (key NUMBER) (with_dispose close) (VNum 7) empty_container /\
  queue st2 = [].
Proof.
  apply (truthy_value_is_cached init Sync 0 empty_container NUMBER seven one
           (with_dispose close) no_options (VNum 7)); vm_compute; reflexivity.
Defined.

Lemma same_user_refl st : same_user st st.
Proof. repeat split. Qed.

Lemma same_user_trans st1 st2 st3 :
  same_user st1 st2 -> same_user st2 st3 -> same_user st1 st3.
Proof.
  intros (H1 & H2 & H3 & H4) (H5 & H6 & H7 & H8).
  repeat split; congruence.
Qed.

Lemma internal_ret {A} (a : A) : internal (ret a).
Proof. intros st. apply same_user_refl. Qed.

Lemma internal_bind {A B} (m : M A) (k : A -> M B) :
  internal m -> (forall a, internal (k a)) -> internal (bind m k).
Proof.
  intros Hm Hk st. unfold bind. specialize (Hm st).
  destruct (m st) as [[a|e] st1]; simpl in *; [|exact Hm].
  eapply same_user_trans; [exact Hm|apply Hk].
Qed.

Lemma internal_array_map {A B} (f : A -> M B) l :
  (forall a, internal (f a)) -> internal (array_map f l).
Proof.
  intros Hf. induction l as [|a l IH]; simpl; [apply internal_ret|].
  apply internal_bind; [apply Hf|]. intros b.
  apply internal_bind; [apply IH|]. intros bs. apply internal_ret.
Qed.

Lemma internal_new_promise cl : internal (new_promise cl : M pid).
Proof. intros st. repeat split. Qed.

Lemma internal_settle p o : internal (settle p o : M unit).
Proof.
  intros st. unfold settle. destruct (promises st !! p) as [[rs|o']|]; repeat split.
Qed.

Lemma internal_register p x : internal (register p x : M unit).
Proof.
  intros st. unfold register. destruct (promises st !! p) as [[rs|o']|]; repeat split.
Qed.

Lemma internal_then p h : internal (then_ p h : M pid).
Proof.
  apply internal_bind; [apply internal_new_promise|]. intros d.
  apply internal_bind; [apply internal_register|]. intros _. apply internal_ret.
Qed.

Lemma internal_Promise_resolve x : internal (Promise_resolve x : M pid).
Proof. destruct x; [apply internal_new_promise|apply internal_ret]. Qed.

Lemma internal_Promise_allSettled xs : internal (Promise_allSettled xs : M pid).
Proof.
  apply internal_bind; [apply internal_new_promise|]. intros r.
  apply internal_bind; [intros st; repeat split|]. intros a.
  apply internal_bind.
  { apply internal_array_map. intros x.
    apply internal_bind; [apply internal_Promise_resolve|]. intros p. apply internal_then. }
  intros _. apply internal_bind; [|intros _; apply internal_ret].
  destruct (_ =? 0); [apply internal_settle|apply internal_ret].
Qed.

Lemma returns_ret {A} (a : A) : returns (ret a : M A).
Proof. intros st. eexists. reflexivity. Qed.

Lemma returns_bind {A B} (m : M A) (k : A -> M B) :
  returns m -> (forall a, returns (k a)) -> returns (bind m k).
Proof.
  intros Hm Hk st. unfold bind. destruct (Hm st) as [a Ha].
  destruct (m st) as [[a'|e] st1]; simpl in *; [apply Hk|discriminate].
Qed.

Lemma returns_array_map {A B} (f : A -> M B) l :
  (forall a, returns (f a)) -> returns (array_map f l).
Proof.
  intros Hf. induction l as [|a l IH]; simpl; [apply returns_ret|].
  apply returns_bind; [apply Hf|]. intros b.
  apply returns_bind; [apply IH|]. intros bs. apply returns_ret.
Qed.

Lemma returns_settle p o : returns (settle p o : M unit).
Proof. intros st. exists tt. rewrite settle_val. reflexivity. Qed.

Lemma returns_register p x : returns (register p x : M unit).
Proof. intros st. exists tt. rewrite register_val. reflexivity. Qed.

Lemma returns_then p h : returns (then_ p h : M pid).
Proof.
  apply returns_bind; [intros st; eexists; reflexivity|]. intros d.
  apply returns_bind; [apply returns_register|]. intros _. apply returns_ret.
Qed.

Lemma returns_Promise_allSettled xs : returns (Promise_allSettled xs : M pid).
Proof.
  apply returns_bind; [intros st; eexists; reflexivity|]. intros r.
  apply returns_bind; [intros st; eexists; reflexivity|]. intros a.
  apply returns_bind.
  { apply returns_array_map. intros x.
    apply returns_bind; [destruct x; intros st; eexists; reflexivity|]. intros p.
    apply returns_then. }
  intros _. apply returns_bind; [|intros _; apply returns_ret].
  destruct (_ =? 0); [apply returns_settle|apply returns_ret].
Qed.

Lemma array_map_cons {A B} (f : A -> M B) a l (st : state) :
  array_map f (a :: l) st =
  match f a st with
  | (Val b, st1) =>
      match array_map f l st1 with
      | (Val bs, st2) => (Val (b :: bs), st2)
      | (Thrown e, st2) => (Thrown e, st2)
      end
  | (Thrown e, st1) => (Thrown e, st1)
  end.
Proof.
  cbn [array_map]. unfold bind.
  destruct (f a st) as [[b|e] st1]; [|reflexivity].
  destruct (array_map f l st1) as [[bs|e] st2]; reflexivity.
Qed.

(** One call of a disposer: the call is logged, then the disposer returns,
    throws, or hands out a promise that the environment will settle. *)
Lemma invoke_disposer_eq d v (st : state) :
  let st1 := set_dispose_log (fun l => l ++ [(dname d, v)]) st in
  invoke_disposer d v st =
  match dbehaviour d v (length (filter (fun x => fst x = dname d) (dispose_log st))) with
  | DReturn => (Val (JVal VUndefined), st1)
  | DThrow e => (Thrown e, st1)
  | DAsync =>
      (Val (JPromise (length (promises st))),
       set_externals (fun l => length (promises st) :: l)
         (set_promises (fun h => h ++ [Pending []]) st1))
  end.
Proof.
  unfold invoke_disposer, bind, gets, modify. cbn [fst snd].
  destruct (dbehaviour d v _); reflexivity.
Qed.

Lemma quiet_cons log d ds k :
  (forall e, ~ throws_at log d e) ->
  quiet (log ++ [(dname (dispose_fn d), bound d)]) ds k ->
  quiet log (d :: ds) (S k).
Proof.
  intros Hd Hq i d' e Hi Hl. destruct i as [|i].
  - simpl in Hl. injection Hl as <-. simpl. rewrite app_nil_r. apply Hd.
  - simpl in Hl. simpl. intros Ht. apply (Hq i d' e); [lia|exact Hl|].
    rewrite <- app_assoc. exact Ht.
Qed.

(** What [this.disposers.map(fn => fn())] does: it calls the disposers in
    order and stops at the first that throws. *)
Lemma map_disposers ds : forall st : state,
  let m := array_map (fun fn => invoke_disposer (dispose_fn fn) (bound fn)) ds in
  exists k,
    k <= length ds /\
    dispose_log (m st).2 = dispose_log st ++ invoked (take k ds) /\
    containers (m st).2 = containers st /\
    match (m st).1 with
    | Val _ => k = length ds /\ quiet (dispose_log st) ds k
    | Thrown e =>
        exists d, 0 < k /\ ds !! (k - 1) = Some d /\
                  quiet (dispose_log st) ds (k - 1) /\
                  throws_at (dispose_log st ++ invoked (take (k - 1) ds)) d e
    end.
Proof.
  induction ds as [|d ds IH]; intros st m.
  - exists 0. simpl. rewrite app_nil_r. repeat split; auto.
    intros i d e Hi. lia.
  - subst m. rewrite array_map_cons, invoke_disposer_eq.
    assert (Hnext : forall st1 : state,
      dispose_log st1 = dispose_log st ++ [(dname (dispose_fn d), bound d)] ->
      containers st1 = containers st ->
      (forall e, ~ throws_at (dispose_log st) d e) ->
      let m := array_map (fun fn => invoke_disposer (dispose_fn fn) (bound fn)) ds in
      exists k, k <= length ds /\
        dispose_log (m st1).2 = dispose_log st ++ invoked (take (S k) (d :: ds)) /\
        containers (m st1).2 = containers st /\
        match (m st1).1 with
        | Val _ => k = length ds /\ quiet (dispose_log st) (d :: ds) (S k)
        | Thrown e =>
            exists d', 0 < k /\ (d :: ds) !! k = Some d' /\
                       quiet (dispose_log st) (d :: ds) k /\
                       throws_at (dispose_log st ++ invoked (take k (d :: ds))) d' e
        end).
    { intros st1 Hl Hc Hd m. destruct (IH st1) as (k & Hk & Hlog & Hc' & Hres).
      exists k. split; [exact Hk|]. fold m in Hlog, Hc', Hres.
      split; [rewrite Hlog, Hl; simpl; rewrite <- app_assoc; reflexivity|].
      split; [congruence|].
      destruct (m st1).1 as [xs|e].
      - destruct Hres as [Hlen Hq]. split; [exact Hlen|].
        apply quiet_cons; [exact Hd|]. rewrite <- Hl. exact Hq.
      - destruct Hres as (d' & Hpos & Hd' & Hq & Ht). exists d'. split; [exact Hpos|].
        destruct k as [|k]; [lia|]. simpl in *. rewrite Nat.sub_0_r in Hd', Ht, Hq.
        split; [exact Hd'|]. split.
        + apply quiet_cons; [exact Hd|]. rewrite <- Hl. exact Hq.
        + rewrite Hl, <- app_assoc in Ht. exact Ht. }
    destruct (dbehaviour (dispose_fn d) (bound d) _) as [|e|] eqn:Hb.
    + match goal with |- context [array_map _ ds ?s] => set (st1 := s) end.
      destruct (Hnext st1 eq_refl eq_refl) as (k & Hk & Hlog & Hc & Hres).
      { intros e Ht. unfold throws_at in Ht. rewrite Hb in Ht. discriminate. }
      exists (S k). cbv zeta in Hlog, Hc, Hres.
      destruct (array_map _ ds st1) as [[xs|e] st2]; cbn [fst snd] in *.
      * split; [simpl; lia|]. split; [exact Hlog|]. split; [exact Hc|].
        destruct Hres as [Hlen Hq]. split; [simpl; lia|exact Hq].
      * split; [simpl; lia|]. split; [exact Hlog|]. split; [exact Hc|].
        destruct Hres as (d' & Hpos & Hd' & Hq & Ht). exists d'. split; [lia|].
        replace (S k - 1) with k by lia. repeat split; assumption.
    + exists 1. cbn [fst snd]. split; [simpl; lia|].
      split; [reflexivity|]. split; [reflexivity|].
      exists d. split; [lia|]. split; [reflexivity|]. split.
      * intros i d' e' Hi. simpl in Hi. lia.
      * unfold throws_at. simpl. rewrite app_nil_r. exact Hb.
    + match goal with |- context [array_map _ ds ?s] => set (st1 := s) end.
      destruct (Hnext st1 eq_refl eq_refl) as (k & Hk & Hlog & Hc & Hres).
      { intros e Ht. unfold throws_at in Ht. rewrite Hb in Ht. discriminate. }
      exists (S k). cbv zeta in Hlog, Hc, Hres.
      destruct (array_map _ ds st1) as [[xs|e] st2]; cbn [fst snd] in *.
      * split; [simpl; lia|]. split; [exact Hlog|]. split; [exact Hc|].
        destruct Hres as [Hlen Hq]. split; [simpl; lia|exact Hq].
      * split; [simpl; lia|]. split; [exact Hlog|]. split; [exact Hc|].
        destruct Hres as (d' & Hpos & Hd' & Hq & Ht). exists d'. split; [lia|].
        replace (S k - 1) with k by lia. repeat split; assumption.
Qed.

Lemma disposeAll_body_cases c r (st : state) :
  match array_map (fun fn => invoke_disposer (dispose_fn fn) (bound fn))
          (disposers (this c st)) st with
  | (Thrown e, st_b) => disposeAll_body c r st = (Thrown e, st_b)
  | (Val xs, st_b) =>
      exists st_c, disposeAll_body c r st = (Val tt, st_c) /\ same_user st_b st_c
  end.
Proof.
  destruct (array_map _ (disposers (this c st)) st) as [[xs|e] st_b] eqn:Hm.
  - pose proof (internal_Promise_allSettled xs st_b) as Hi.
    destruct (returns_Promise_allSettled xs st_b) as [all Hall].
    destruct (Promise_allSettled xs st_b) as [[all'|e] st1] eqn:Hp; simpl in Hall;
      [|discriminate].
    simpl in Hi. exists (exec (register all' (rx (HDisposeResume c) r)) st1). split.
    + unfold disposeAll_body, bind, gets. cbv beta. rewrite Hm, Hp.
      unfold await_. apply register_val.
    + eapply same_user_trans; [exact Hi|]. apply internal_register.
  - unfold disposeAll_body, bind, gets. cbv beta. rewrite Hm. reflexivity.
Qed.

(** The call itself, in a state where nothing refers to promises that do
    not exist yet. *)
Lemma disposeAll_call c (st : state) :
  wf st ->
  let ds := disposers (this c st) in
  let r := length (promises st) in
  exists st' k,
    disposeAll c st = (Val r, st') /\
    k <= length ds /\
    dispose_log st' = dispose_log st ++ invoked (take k ds) /\
    containers st' = containers st /\
    ((k = length ds /\ quiet (dispose_log st) ds k /\ outcome_of st' r = None) \/
     (exists d e, 0 < k /\ ds !! (k - 1) = Some d /\
        quiet (dispose_log st) ds (k - 1) /\
        throws_at (dispose_log st ++ invoked (take (k - 1) ds)) d e /\
        outcome_of st' r = Some (Rej e))).
Proof.
  intros Hwf ds r.
  set (st_a := set_promises (fun h => h ++ [Pending []]) st).
  assert (Ha : owned c r st_a).
  { split.
    - exists []. unfold st_a. simpl. apply list_lookup_middle. reflexivity.
    - destruct (clean_weaken r nobody (resume c r) st (fun x (H : nobody x) => False_ind _ H)
                  (Hwf r (le_n _))) as [H1 H2 H3 H4].
      split; simpl; auto. apply Forall_app. split; [exact H2|].
      constructor; [constructor|constructor]. }
  pose proof (safe_disposeAll_body r (resume c r) (pending r) never
                (pending_other r) (pending_alloc r) (pending_write r) never_mono
                c r (fun _ => eq_refl) st_a Ha) as Hb.
  pose proof (disposeAll_body_cases c r st_a) as Hcases.
  destruct (map_disposers (disposers (this c st_a)) st_a) as (k & Hk & Hlog & Hc & Hres).
  cbv zeta in Hlog, Hc, Hres.
  change (disposers (this c st_a)) with ds in *.
  change (dispose_log st_a) with (dispose_log st) in *.
  change (containers st_a) with (containers st) in *.
  unfold disposeAll, async_fn.
  unfold bind at 1. unfold new_promise at 1. cbn [fst snd]. fold r st_a.
  unfold bind at 1. unfold try_catch.
  destruct (array_map _ ds st_a) as [[xs|e] st_b]; cbn [fst snd] in *.
  - destruct Hcases as (st_c & Hbody & Hsame). rewrite Hbody in *. simpl in Hb.
    destruct Hsame as (S1 & S2 & _ & _).
    exists st_c, k. split; [reflexivity|]. split; [exact Hk|].
    split; [congruence|]. split; [congruence|]. left.
    destruct Hres as [Hlen Hq]. split; [exact Hlen|]. split; [exact Hq|].
    destruct Hb as [[[[rs Hr] _] _]|[]]. unfold outcome_of. rewrite Hr. reflexivity.
  - rewrite Hcases in *. simpl in Hb. destruct Hb as [[[[rs Hr] _] _]|[]].
    rewrite (settle_pending _ _ _ _ Hr). cbn [fst snd]. unfold ret.
    eexists _, k. split; [reflexivity|]. split; [exact Hk|].
    split; [exact Hlog|]. split; [exact Hc|]. right.
    destruct Hres as (d & Hpos & Hd & Hq & Ht). exists d, e.
    repeat (split; [assumption|]).
    unfold outcome_of, settled. simpl.
    rewrite list_lookup_insert_eq; [reflexivity|]. eapply lookup_lt_Some, Hr.
Qed.

(** X5. In any reachable state, the call of [disposeAll] calls the listed
    disposers in order, from the first one up to the first one that throws
    in the call itself.  Either none of them throws at its turn, all have
    been called and the returned promise is pending; or position [k - 1]
    holds the first one that throws, exactly the first [k] have been
    called, and the returned promise is rejected with what was thrown.
    The containers are not changed in the call. *)
Theorem disposeAll_calls_disposers_in_order tr c :
  let st := run tr init in
  let ds := disposers (this c st) in
  let r := length (promises st) in
  exists st' k,
    disposeAll c st = (Val r, st') /\
    k <= length ds /\
    dispose_log st' = dispose_log st ++ invoked (take k ds) /\
    containers st' = containers st /\
    ((k = length ds /\ quiet (dispose_log st) ds k /\ outcome_of st' r = None) \/
     (exists d e, 0 < k /\ ds !! (k - 1) = Some d /\
        quiet (dispose_log st) ds (k - 1) /\
        throws_at (dispose_log st ++ invoked (take (k - 1) ds)) d e /\
        outcome_of st' r = Some (Rej e))).
Proof. apply disposeAll_call, wf_run, wf_init. Qed.

(** X6. The call of [disposeAll] leaves the disposer list in place until
    its later part runs: a second [disposeAll] that starts before a turn of
    the loop calls every disposer once more. *)
Theorem overlapping_disposeAll_calls_disposers_again tr c :
  let st := run tr init in
  let ds := disposers (this c st) in
  Forall never_throws ds ->
  let st1 := step (EDisposeAll c) st in
  let st2 := step (EDisposeAll c) st1 in
  dispose_log st1 = dispose_log st ++ invoked ds /\
  this c st1 = this c st /\
  dispose_log st2 = dispose_log st ++ invoked ds ++ invoked ds.
Proof.
  intros st ds Hnt st1 st2.
  assert (Hone : forall s : state, wf s -> disposers (this c s) = ds ->
    dispose_log (step (EDisposeAll c) s) = dispose_log s ++ invoked ds /\
    containers (step (EDisposeAll c) s) = containers s).
  { intros s Hwf Hds. destruct (disposeAll_call c s Hwf) as (s' & k & Hd & Hk & Hlog & Hc & Hcase).
    simpl. unfold exec. rewrite Hd. simpl. rewrite Hds in *. split; [|exact Hc].
    destruct Hcase as [[-> _]|(d & e & Hpos & Hd' & _ & Ht & _)].
    - rewrite firstn_all in Hlog. exact Hlog.
    - exfalso. rewrite Forall_forall in Hnt.
      apply (Hnt d (list_elem_of_lookup_2 _ _ _ Hd') _ e Ht). }
  assert (Hwf : wf st) by apply wf_run, wf_init.
  destruct (Hone st Hwf eq_refl) as [H1 Hc1]. fold st1 in H1, Hc1.
  assert (Hthis : this c st1 = this c st) by (unfold this; rewrite Hc1; reflexivity).
  destruct (Hone st1 (wf_step _ _ Hwf)) as [H2 _]; [rewrite Hthis; reflexivity|].
  fold st2 in H2. split; [exact H1|]. split; [exact Hthis|].
  rewrite H2, H1, <- app_assoc. reflexivity.
Qed.

Lemma overlapping_disposeAll_calls_disposers_again_witness :
  let st := run disposed_run init in
  let ds := disposers (this 0 st) in
  let st1 := step (EDisposeAll 0) st in
  let st2 := step (EDisposeAll 0) st1 in
  ds = [{| dispose_fn := close; bound := VNum 7 |}] /\
  dispose_log st1 = dispose_log st ++ invoked ds /\
  this 0 st1 = this 0 st /\
  dispose_log st2 = dispose_log st ++ invoked ds ++ invoked ds.
Proof.
  split; [vm_compute; reflexivity|].
  apply (overlapping_disposeAll_calls_disposers_again disposed_run 0).
  vm_compute. constructor; [|constructor]. intros n e. vm_compute. discriminate.
Defined.

(** [disposeAll] on a container without disposers: [allSettled] of the empty
    array is fulfilled at once, and the rest of the method is scheduled. *)
Lemma disposeAll_none (st : state) c :
  disposers (this c st) = [] ->
  let n := length (promises st) in
  disposeAll c st =
    (Val n,
     set_queue (fun q => q ++ [JReact (rx (HDisposeResume c) n) (Ful (VArray 0))])
       (set_aggs (fun l => l ++ [{| remaining := 0; total := 0; result := n + 1 |}])
          (set_promises (fun h => h ++ [Pending []; Settled (Ful (VArray 0))]) st))).
Proof.
  intros Hds n. subst n. destruct st as [h q cs ag ns ex fl dl co].
  unfold disposeAll, async_fn, disposeAll_body.
  unfold bind at 1. unfold new_promise at 1. st_simpl.
  unfold bind at 1. unfold try_catch at 1. unfold bind at 1. unfold gets at 1.
  unfold this in *. st_simpl. rewrite Hds. cbn [array_map].
  unfold bind at 1, ret at 1.
  unfold Promise_allSettled. unfold bind at 1, bind at 1, new_promise at 1. st_simpl.
  unfold bind at 1, new_agg at 1. st_simpl. cbn [length array_map].
  unfold bind at 1, ret at 1. cbn [Nat.eqb]. unfold bind at 1.
  erewrite settle_pending by (st_simpl; heap_norm; reflexivity).
  unfold settled, ret. st_norm. cbn [map app].
  unfold await_. erewrite register_settled by (st_simpl; heap_norm; reflexivity).
  st_norm. reflexivity.
Qed.

(** [createScope]: the new container is appended to the object heap with a
    copy of the parent's mapping. *)
Lemma createScope_eq (st : state) c :
  c < length (containers st) ->
  createScope c st =
    (Val (length (containers st)),
     set_containers
       (fun l => l ++ [{| singletons := singletons (this c st); disposers := [] |}]) st).
Proof.
  intros Hc. destruct st as [h q cs ag ns ex fl dl co]. st_simpl.
  unfold createScope, bind, gets, update, modify, ret, this. st_simpl.
  rewrite (lookup_app_l cs) by exact Hc.
  replace (length cs) with (length cs + 0) at 2 by lia.
  rewrite alter_app_r. reflexivity.
Qed.

(** X7. [disposeAll] on a scope that has just been created calls no
    disposer, is fulfilled one turn later, empties the scope and leaves
    every other container, the parent among them, as it was. *)
Theorem scope_disposal_leaves_parent (st : state) c :
  queue st = [] ->
  c < length (containers st) ->
  let child := length (containers st) in
  let st1 := run [ECreateScope c; EDisposeAll child; ETick] st in
  outcome_of st1 (length (promises st)) = Some (Ful VUndefined) /\
  dispose_log st1 = dispose_log st /\
  this child st1 = empty_container /\
  forall c', c' <> child -> this c' st1 = this c' st.
Proof.
  intros Hq Hc child st1.
  assert (Hfin : st1 =
    set_containers (fun l => alter (fun _ => empty_container) child
                      (l ++ [{| singletons := singletons (this c st); disposers := [] |}]))
      (set_queue (fun _ => [])
        (set_aggs (fun l => l ++ [{| remaining := 0; total := 0;
                                     result := length (promises st) + 1 |}])
          (set_promises (fun h => h ++ [Settled (Ful VUndefined); Settled (Ful (VArray 0))])
             st)))).
  { subst st1 child.
    rewrite run_cons. unfold step at 1, exec. rewrite (createScope_eq st c Hc). cbn [snd].
    destruct st as [h q cs ag ns ex fl dl co]. st_simpl. subst q.
    rewrite run_cons. unfold step at 1, exec.
    rewrite disposeAll_none
      by (unfold this; st_simpl; rewrite list_lookup_middle by reflexivity; reflexivity).
    st_norm.
    do_tick tick_resume_ful. settle_now. reflexivity. }
  rewrite Hfin. unfold outcome_of, this. st_simpl.
  split; [rewrite lookup_app_r, Nat.sub_diag by lia; reflexivity|].
  split; [reflexivity|]. split.
  - rewrite list_lookup_alter_eq, list_lookup_middle by reflexivity. reflexivity.
  - intros c' Hne. rewrite list_lookup_alter_ne by congruence.
    destruct (decide (c' < child)) as [Hlt|Hge].
    + rewrite lookup_app_l by exact Hlt. reflexivity.
    + rewrite !lookup_ge_None_2; [reflexivity|fold child; lia|].
      rewrite length_app. simpl. fold child. lia.
Qed.

Lemma scope_disposal_leaves_parent_witness :
  let st := run disposed_run init in
  let child := length (containers st) in
  let st1 := run [ECreateScope 0; EDisposeAll child; ETick] st in
  outcome_of st1 (length (promises st)) = Some (Ful VUndefined) /\
  dispose_log st1 = dispose_log st /\
  this child st1 = empty_container /\
  forall c', c' <> child -> this c' st1 = this c' st.
Proof.
  apply (scope_disposal_leaves_parent (run disposed_run init) 0);
    vm_compute; [reflexivity|lia].
Defined.



End MinimalFacts.

(** ** The container with registration *)

Module RegistryFacts.
Import Registry.

(** C10. In the version with registration, [resolve] of a token that has
    neither a cached instance nor a registration fails with the error
    [No registration found] (the promise it returns is rejected, [resolve]
    being an [async] function) and changes nothing in any container: cache,
    registrations and disposer list stay as they were, no callback is
    scheduled and no factory runs. *)
Theorem resolve_without_registration st c t :
  resolvedInstances (this c st) !! key t = None ->
  registrations (this c st) !! key t = None ->
  exists r st',
    resolve c t st = (Val r, st') /\
    outcome_of st' r = Some (Rej (VError (no_registration (key t)))) /\
    containers st' = containers st /\
    queue st' = queue st /\
    factory_log st' = factory_log st.
Proof.
  intros Hcache Hreg.
  exists (length (promises st)),
    (set_promises (fun h => h ++ [Settled (Rej (VError (no_registration (key t))))]) st).
  split.
  - unfold resolve, async_fn, bind, try_catch, gets, new_promise, throw, ret.
    unfold this in *. st_simpl. rewrite Hcache. st_simpl. rewrite Hreg.
    unfold settle. st_simpl.
    rewrite lookup_app_r by lia. rewrite Nat.sub_diag. simpl.
    rewrite insert_app_r_alt by lia. rewrite Nat.sub_diag. simpl.
    rewrite app_nil_r. reflexivity.
  - repeat split. unfold outcome_of. st_simpl.
    rewrite lookup_app_r by lia. rewrite Nat.sub_diag. reflexivity.
Qed.

Lemma resolve_without_registration_witness :
  exists r st',
    resolve 0 T0 init = (Val r, st') /\
    outcome_of st' r =
      Some (Rej (VError ("DI Container: No registration found for token " +:+
                         quote +:+ "db" +:+ quote +:+ "."))) /\
    containers st' = containers init /\
    queue st' = queue init /\
    factory_log st' = factory_log init.
Proof. apply (resolve_without_registration init 0 T0); reflexivity. Defined.

(** In this version a disposer that throws does not stop [disposeAll]: each
    disposer is called in a callback of its own, so both run, the promise of
    [disposeAll] is fulfilled, cache and disposer list are empty, and the
    next [resolve] runs the factory again. *)
Lemma registry_disposeAll_tolerates_throwing_disposer :
  let st1 := two_resolved Minimal.faulty Minimal.close Minimal.seven Minimal.one in
  let st2 := ticks run_handler 11 (exec (disposeAll 0) st1) in
  let st3 := ticks run_handler 5 (exec (resolve 0 NUMBER) st2) in
  length (disposers (this 0 st1)) = 2 /\
  dispose_log st2 = [(dname Minimal.faulty, VNum 7); (dname Minimal.close, VNum 1)] /\
  outcome_of st2 10 = Some (Ful VUndefined) /\
  resolvedInstances (this 0 st2) = ∅ /\
  disposers (this 0 st2) = [] /\
  factory_log st3 = [fname Minimal.seven; fname Minimal.one; fname Minimal.seven].
Proof. vm_compute. repeat split. Qed.

(** ** Registration, creation, scopes and disposal *)

Local Abbreviation tick := (Runtime.tick run_handler).

Lemma reg_settle_pending (st : state) p o rs :
  promises st !! p = Some (Pending rs) ->
  settle p o st = (Val tt, settled p o rs st).
Proof. intros Hp. unfold settle. rewrite Hp. reflexivity. Qed.

Lemma reg_settle_val (st : state) p o :
  settle p o st = (Val tt, exec (settle p o) st).
Proof.
  unfold exec, settle. destruct (promises st !! p) as [[rs|o']|]; reflexivity.
Qed.

Lemma reg_register_val (st : state) p r :
  Runtime.register p r st = (Val tt, exec (Runtime.register p r) st).
Proof.
  unfold exec, Runtime.register. destruct (promises st !! p) as [[rs|o']|]; reflexivity.
Qed.

Lemma reg_register_pending (st : state) p r rs :
  promises st !! p = Some (Pending rs) ->
  Runtime.register p r st = (Val tt, set_promises (fun h => <[p := Pending (rs ++ [r])]> h) st).
Proof. intros Hp. unfold Runtime.register. rewrite Hp. reflexivity. Qed.

Lemma reg_register_settled (st : state) p r o :
  promises st !! p = Some (Settled o) ->
  Runtime.register p r st = (Val tt, set_queue (fun q => q ++ [JReact r o]) st).
Proof. intros Hp. unfold Runtime.register. rewrite Hp. reflexivity. Qed.

Lemma reg_then_pending (st : state) p h rs :
  promises st !! p = Some (Pending rs) ->
  then_ p h st =
    (Val (length (promises st)),
     set_promises (fun l => <[p := Pending (rs ++ [{| Runtime.handler := h; target := length (promises st) |}])]> (l ++ [Pending []])) st).
Proof.
  intros Hp. unfold then_, bind, new_promise, ret.
  erewrite reg_register_pending.
  2:{ st_simpl. apply lookup_app_l_Some, Hp. }
  reflexivity.
Qed.

Lemma reg_then_settled (st : state) p h o :
  promises st !! p = Some (Settled o) ->
  then_ p h st =
    (Val (length (promises st)),
     set_queue (fun q => q ++ [JReact {| Runtime.handler := h; target := length (promises st) |} o])
       (set_promises (fun l => l ++ [Pending []]) st)).
Proof.
  intros Hp. unfold then_, bind, new_promise, ret.
  erewrite reg_register_settled.
  2:{ st_simpl. apply lookup_app_l_Some, Hp. }
  reflexivity.
Qed.

Lemma reg_exec_settle_pending (st : state) p o rs :
  promises st !! p = Some (Pending rs) ->
  exec (settle p o) st = settled p o rs st.
Proof. intros Hp. unfold exec. rewrite (reg_settle_pending _ _ _ rs Hp). reflexivity. Qed.

Lemma reg_exec_register_pending (st : state) p r rs :
  promises st !! p = Some (Pending rs) ->
  exec (Runtime.register p r) st = set_promises (fun h => <[p := Pending (rs ++ [r])]> h) st.
Proof. intros Hp. unfold exec. rewrite (reg_register_pending _ _ _ rs Hp). reflexivity. Qed.

Lemma reg_exec_register_settled (st : state) p r o :
  promises st !! p = Some (Settled o) ->
  exec (Runtime.register p r) st = set_queue (fun q => q ++ [JReact r o]) st.
Proof. intros Hp. unfold exec. rewrite (reg_register_settled _ _ _ o Hp). reflexivity. Qed.

Lemma reg_run_cons ev tr st : run (ev :: tr) st = run tr (step ev st).
Proof. reflexivity. Qed.

Ltac rnorm := st_simpl; MinimalFacts.heap_norm; MinimalFacts.list_compute.
Ltac rside := rnorm; first [reflexivity | eassumption].
Ltac rsettle :=
  erewrite reg_exec_settle_pending by rside; unfold settled, called, pop; rnorm.
Ltac rtick lem :=
  rewrite reg_run_cons; unfold step at 1;
  erewrite lem by rside; unfold called, pop; rnorm.

(** [resolve] of a token with a registration and no cached instance. *)
Lemma reg_resolve_miss (st : state) c t reg :
  cached st c (key t) = None ->
  registered st c (key t) = Some reg ->
  resolve c t st = (Val (length (promises st)), after_miss c (key t) reg st).
Proof.
  intros Hc Hr. unfold cached, registered in *.
  destruct st as [h q cs ag ns ex fl dl co].
  unfold resolve, async_fn.
  unfold bind at 1. unfold new_promise at 1. st_simpl.
  unfold bind at 1. unfold try_catch at 1. unfold bind at 1.
  unfold gets at 1. unfold this in *. st_simpl. rewrite Hc.
  unfold bind at 1, gets at 1. st_simpl. rewrite Hr.
  unfold Promise_resolve, bind at 1, new_promise at 1. st_simpl.
  unfold bind at 1.
  rewrite (reg_then_settled _ _ _ (Ful VUndefined)).
  2:{ st_simpl. MinimalFacts.heap_norm. reflexivity. }
  st_simpl. MinimalFacts.heap_norm.
  unfold bind at 1.
  rewrite (reg_then_pending _ _ _ []).
  2:{ st_simpl. MinimalFacts.heap_norm. reflexivity. }
  st_simpl. MinimalFacts.heap_norm.
  unfold bind at 1.
  rewrite (reg_then_pending _ _ _ []).
  2:{ st_simpl. MinimalFacts.heap_norm. reflexivity. }
  st_simpl. MinimalFacts.heap_norm.
  unfold after_miss, begun, dispose_of. st_simpl.
  destruct (isSingleton reg).
  - destruct (options reg) as [[[d|]]|];
      unfold bind, update, modify, ret, resolve_promise, enqueue, modify; st_simpl;
      rewrite ?list_alter_alter_eq; MinimalFacts.list_compute; cbn [app];
      rewrite <- ?app_assoc; reflexivity.
  - unfold bind, update, modify, ret, resolve_promise, enqueue, modify. st_simpl.
    MinimalFacts.list_compute. cbn [app]. rewrite <- ?app_assoc.
    rewrite list_alter_id by reflexivity. reflexivity.
Qed.

(** [resolve] of a token with a cached instance. *)
Lemma reg_resolve_hit (st : state) c t p :
  cached st c (key t) = Some p ->
  resolve c t st =
    (Val (length (promises st)),
     set_queue (fun q => q ++ [JThenable (length (promises st)) p])
       (set_promises (fun h => h ++ [Pending []]) st)).
Proof.
  intros Hc. unfold cached in Hc.
  destruct st as [h q cs ag ns ex fl dl co].
  unfold resolve, async_fn.
  unfold bind at 1. unfold new_promise at 1. st_simpl.
  unfold bind at 1. unfold try_catch at 1. unfold bind at 1.
  unfold gets at 1. unfold this in *. st_simpl. rewrite Hc.
  unfold resolve_promise, enqueue, modify, ret. st_simpl. reflexivity.
Qed.

(** **** Microtasks *)

Lemma reg_tick_thenable (st : state) r p q :
  queue st = JThenable r p :: q ->
  exec tick st = exec (Runtime.register p (adopt r)) (pop q st).
Proof. intros Hq. unfold exec, Runtime.tick. rewrite Hq. reflexivity. Qed.

Lemma reg_tick_adopt (st : state) r o q :
  queue st = JReact (adopt r) o :: q ->
  exec tick st = exec (settle r o) (pop q st).
Proof. intros Hq. unfold exec, Runtime.tick. rewrite Hq. reflexivity. Qed.

Ltac user_job Hq :=
  unfold exec, Runtime.tick; rewrite Hq;
  unfold run_job, run_reaction, try_catch, bind;
  cbn [Runtime.handler target rx run_handler call_factory].

Lemma reg_tick_factory_return (st : state) f d u q v :
  queue st = JReact (rx (HFactory (Given f)) d) (Ful u) :: q ->
  behaviour f (times_called f st) = FReturn v ->
  exec tick st = exec (settle d (Ful v)) (called f (pop q st)).
Proof.
  intros Hq Hb. user_job Hq.
  unfold invoke_factory, bind, gets, modify. unfold times_called in Hb.
  st_simpl. rewrite Hb. unfold ret, resolve_promise.
  rewrite reg_settle_val. reflexivity.
Qed.

Lemma reg_tick_factory_throw (st : state) f d u q e :
  queue st = JReact (rx (HFactory (Given f)) d) (Ful u) :: q ->
  behaviour f (times_called f st) = FThrow e ->
  exec tick st = exec (settle d (Rej e)) (called f (pop q st)).
Proof.
  intros Hq Hb. user_job Hq.
  unfold invoke_factory, bind, gets, modify. unfold times_called in Hb.
  st_simpl. rewrite Hb. unfold throw.
  rewrite reg_settle_val. reflexivity.
Qed.

Lemma reg_tick_factory_async (st : state) f d u q :
  queue st = JReact (rx (HFactory (Given f)) d) (Ful u) :: q ->
  behaviour f (times_called f st) = FAsync ->
  exec tick st =
    set_queue (fun _ => q ++ [JThenable d (length (promises st))])
      (set_externals (fun l => length (promises st) :: l)
        (set_promises (fun h => h ++ [Pending []]) (called f st))).
Proof.
  intros Hq Hb. user_job Hq.
  unfold invoke_factory, bind, gets, modify. unfold times_called in Hb.
  st_simpl. rewrite Hb. reflexivity.
Qed.

Lemma reg_tick_factory_constant (st : state) v d u q :
  queue st = JReact (rx (HFactory (Constant v)) d) (Ful u) :: q ->
  exec tick st = exec (settle d (Ful v)) (pop q st).
Proof.
  intros Hq. user_job Hq. unfold ret, resolve_promise.
  rewrite reg_settle_val. reflexivity.
Qed.

Lemma reg_tick_value (st : state) d o q :
  queue st = JReact (rx HValue d) o :: q ->
  exec tick st = exec (settle d o) (pop q st).
Proof.
  intros Hq. user_job Hq. destruct o as [v|e]; unfold ret, throw, resolve_promise;
    rewrite reg_settle_val; reflexivity.
Qed.

Lemma reg_tick_catch_ful (st : state) c k single d v q :
  queue st = JReact (rx (HCatch c k single) d) (Ful v) :: q ->
  exec tick st = exec (settle d (Ful v)) (pop q st).
Proof.
  intros Hq. user_job Hq. unfold ret, resolve_promise.
  rewrite reg_settle_val. reflexivity.
Qed.

Lemma reg_tick_catch_rej (st : state) c k single d e q :
  queue st = JReact (rx (HCatch c k single) d) (Rej e) :: q ->
  exec tick st =
    exec (settle d (Rej e)) (set_containers (alter (failed k single d) c) (pop q st)).
Proof.
  intros Hq. user_job Hq. unfold failed.
  destruct single; unfold update, modify, bind, ret, throw; st_simpl;
    rewrite ?list_alter_alter_eq; rewrite reg_settle_val; reflexivity.
Qed.

(** The rest of the [map] callback of [disposeAll], once the instance is
    there: the disposer is scheduled in a callback of its own. *)
Lemma reg_tick_await_ful (st : state) dfn d v q :
  queue st = JReact (rx (HAwaitInstance dfn) d) (Ful v) :: q ->
  exec tick st =
    let n := length (promises st) in
    set_queue (fun _ => q ++ [JReact (rx (HDispose dfn v) (n + 1)) (Ful VUndefined);
                              JThenable d (n + 1)])
      (set_promises (fun h => h ++ [Settled (Ful VUndefined); Pending []]) st).
Proof.
  intros Hq. user_job Hq.
  destruct st as [h q0 cs ag ns ex fl dl co]. st_simpl.
  unfold Promise_resolve, bind at 1, new_promise at 1. st_simpl.
  unfold bind at 1.
  rewrite (reg_then_settled _ _ _ (Ful VUndefined)).
  2:{ st_simpl. MinimalFacts.heap_norm. reflexivity. }
  st_simpl. MinimalFacts.heap_norm. unfold ret, resolve_promise, enqueue, modify. st_simpl.
  rewrite <- app_assoc. reflexivity.
Qed.

Lemma reg_tick_dispose (st : state) dfn v d u q :
  queue st = JReact (rx (HDispose dfn v) d) (Ful u) :: q ->
  exec tick st =
    let st1 := set_dispose_log (fun l => l ++ [(dname dfn, v)]) (pop q st) in
    match dbehaviour dfn v (length (filter (fun x => fst x = dname dfn) (dispose_log st))) with
    | DReturn => exec (settle d (Ful VUndefined)) st1
    | DThrow e => exec (settle d (Rej e)) st1
    | DAsync =>
        set_queue (fun q' => q' ++ [JThenable d (length (promises st))])
          (set_externals (fun l => length (promises st) :: l)
            (set_promises (fun h => h ++ [Pending []]) st1))
    end.
Proof.
  intros Hq. user_job Hq.
  unfold invoke_disposer, bind, gets, modify. st_simpl.
  destruct (dbehaviour dfn v _); unfold ret, throw, resolve_promise;
    rewrite ?reg_settle_val; reflexivity.
Qed.

Lemma reg_tick_settled_elem (st : state) a d o q g :
  queue st = JReact {| Runtime.handler := HSettledElem a; target := d |} o :: q ->
  aggs st !! a = Some g ->
  remaining g = 1 ->
  exec tick st =
    exec (settle d (Ful VUndefined))
      (exec (settle (result g) (Ful (VArray (total g))))
         (set_aggs (fun l => <[a := {| remaining := 0; total := total g; result := result g |}]> l)
            (pop q st))).
Proof.
  intros Hq Ha Hr. unfold exec, Runtime.tick. rewrite Hq.
  unfold run_job, run_reaction, bind; cbn [Runtime.handler target].
  unfold settled_elem. st_simpl. rewrite Ha, Hr. cbn [pred Nat.eqb remaining].
  rewrite reg_settle_val. cbn [fst snd]. reflexivity.
Qed.

Lemma reg_tick_resume (st : state) c p o d v q :
  queue st = JReact (rx (HDisposeResume c [p]) d) (Ful v) :: q ->
  promises st !! p = Some (Settled o) ->
  exec tick st =
    exec (settle d (Ful VUndefined))
      (set_containers (alter (set_resolvedInstances (fun _ => ∅)) c)
        (set_console (fun l => l ++ failures [o]) (pop q st))).
Proof.
  intros Hq Hp. user_job Hq.
  unfold report_failures. cbn [array_map].
  unfold update, modify, bind, ret, gets, resolve_promise. st_simpl.
  unfold pop in Hp |- *. destruct st as [h q0 cs ag ns ex fl dl co]. st_simpl.
  rewrite Hp. destruct o as [x|e]; unfold console_log, modify; st_simpl;
    rewrite ?app_nil_r, reg_settle_val; reflexivity.
Qed.

Ltac rbd := rewrite bool_decide_eq_true_2 by (apply list_elem_of_here).

(** A creation from the call of [resolve] to its end. *)
Lemma reg_attempt_single (st : state) w c t reg f o :
  queue st = [] ->
  cached st c (key t) = None ->
  registered st c (key t) = Some reg ->
  factory reg = Given f ->
  Minimal.completes w f (times_called f st) o ->
  run (EResolve c t :: attempt w (length (promises st) + 5) o 1) st =
  finished w c (key t) reg f o st.
Proof.
  intros Hq Hc Hr Hf Hb.
  rewrite reg_run_cons. unfold step at 1, exec.
  rewrite (reg_resolve_miss _ _ _ _ Hc Hr). cbn [snd].
  destruct st as [h q cs ag ns ex fl dl co]. unfold times_called in Hb. st_simpl. subst q.
  unfold finished, after_miss. rewrite Hf. rnorm.
  destruct w; cbn [attempt repeat app Nat.add Nat.mul].
  - destruct o as [v|e]; simpl in Hb.
    + rtick reg_tick_factory_return. rsettle.
      rtick reg_tick_thenable. erewrite reg_exec_register_pending by rside. rnorm.
      rtick reg_tick_value. rsettle.
      rtick reg_tick_catch_ful. rsettle.
      rtick reg_tick_adopt. rsettle.
      cbn [run fold_left]. reflexivity.
    + rtick reg_tick_factory_throw. rsettle.
      rtick reg_tick_thenable. erewrite reg_exec_register_pending by rside. rnorm.
      rtick reg_tick_value. rsettle.
      rtick reg_tick_catch_rej. rsettle.
      rtick reg_tick_adopt. rsettle.
      cbn [run fold_left]. rewrite list_alter_alter_eq. reflexivity.
  - simpl in Hb. assert (Hb' : behaviour f (count_occ Nat.eq_dec fl (fname f)) = FAsync)
      by (destruct o; exact Hb). clear Hb.
    rtick reg_tick_factory_async.
    rtick reg_tick_thenable. erewrite reg_exec_register_pending by rside. rnorm.
    rtick reg_tick_thenable. erewrite reg_exec_register_pending by rside. rnorm.
    rewrite reg_run_cons. unfold step at 1, exec, env_settle. rnorm. rbd.
    erewrite reg_settle_pending by rside. unfold settled. rnorm.
    rtick reg_tick_adopt. rsettle.
    destruct o as [v|e].
    + rtick reg_tick_value. rsettle.
      rtick reg_tick_catch_ful. rsettle.
      rtick reg_tick_adopt. rsettle.
      cbn [run fold_left]. reflexivity.
    + rtick reg_tick_value. rsettle.
      rtick reg_tick_catch_rej. rsettle.
      rtick reg_tick_adopt. rsettle.
      cbn [run fold_left]. rewrite list_alter_alter_eq. reflexivity.
Qed.

Lemma filter_all {A} (P : A -> Prop) `{forall x, Decision (P x)} (l : list A) :
  Forall P l -> filter P l = l.
Proof.
  induction 1 as [|x l Hx _ IH]; [reflexivity|].
  rewrite filter_cons_True by exact Hx. rewrite IH. reflexivity.
Qed.

(** The [catch] callback undoes what [resolve] did to the container. *)
Lemma failed_begun k reg p (x : Container) :
  isSingleton reg = true ->
  resolvedInstances x !! k = None ->
  Forall (fun d => instancePromise d <> p) (disposers x) ->
  failed k (isSingleton reg) p (begun k reg p x) = x.
Proof.
  intros Hs Hk Hd. unfold failed, begun. rewrite Hs. destruct x as [rg ri ds]. simpl in *.
  destruct (dispose_of (options reg)) as [d|]; unfold set_disposers, set_resolvedInstances; simpl.
  - rewrite filter_app, filter_all by exact Hd.
    rewrite filter_cons_False, filter_nil by (simpl; intros Hn; apply Hn; reflexivity).
    rewrite app_nil_r, delete_insert_id by exact Hk. reflexivity.
  - rewrite filter_all by exact Hd. rewrite delete_insert_id by exact Hk. reflexivity.
Qed.

Lemma this_alter (st : state) c g C :
  containers st !! c = Some C ->
  this c (set_containers (alter g c) st) = g C.
Proof.
  intros Hc. unfold this. simpl. rewrite list_lookup_alter_eq, Hc. reflexivity.
Qed.

(** X12. When the factory of a registration fails, [resolve] is rejected
    with the error and the container is exactly as before the call: the
    cache entry and the disposer listed for the attempt are gone.  A later
    [resolve] runs the factory again and has the outcome of that second
    invocation. *)
Theorem registry_failed_creation_is_rolled_back (st : state) w c C t reg f e :
  queue st = [] ->
  containers st !! c = Some C ->
  resolvedInstances C !! key t = None ->
  registrations C !! key t = Some reg ->
  factory reg = Given f ->
  isSingleton reg = true ->
  Forall (fun d => instancePromise d < length (promises st)) (disposers C) ->
  Minimal.completes w f (times_called f st) (Rej e) ->
  let n := length (promises st) in
  let st1 := run (EResolve c t :: attempt w (n + 5) (Rej e) 1) st in
  outcome_of st1 n = Some (Rej e) /\
  this c st1 = C /\
  factory_log st1 = factory_log st ++ [fname f] /\
  forall w' o,
    Minimal.completes w' f (times_called f st1) o ->
    let m := length (promises st1) in
    let st2 := run (EResolve c t :: attempt w' (m + 5) o 1) st1 in
    outcome_of st2 m = Some o /\
    factory_log st2 = factory_log st ++ [fname f; fname f].
Proof.
  intros Hq Hc Hk Hr Hf Hs Hd Hb n st1.
  assert (Hck : cached st c (key t) = None) by (unfold cached, this; rewrite Hc; exact Hk).
  assert (Hrk : registered st c (key t) = Some reg)
    by (unfold registered, this; rewrite Hc; exact Hr).
  assert (H1 : st1 = finished w c (key t) reg f (Rej e) st)
    by (apply reg_attempt_single; assumption).
  assert (Hthis : this c st1 = C).
  { rewrite H1. unfold finished, this. st_simpl. rewrite list_lookup_alter_eq, Hc. simpl.
    apply failed_begun; [exact Hs|exact Hk|].
    eapply Forall_impl; [exact Hd|]. simpl. intros d Hlt. fold n. lia. }
  split; [|split; [exact Hthis|split]].
  - rewrite H1. unfold outcome_of, finished. st_simpl.
    rewrite lookup_app_r by lia. rewrite Nat.sub_diag. reflexivity.
  - rewrite H1. reflexivity.
  - intros w' o Hb' m st2.
    assert (H2 : st2 = finished w' c (key t) reg f o st1).
    { apply reg_attempt_single.
      - rewrite H1. reflexivity.
      - unfold cached. rewrite Hthis. exact Hk.
      - unfold registered. rewrite Hthis. exact Hr.
      - exact Hf.
      - exact Hb'. }
    rewrite H2. split.
    + unfold outcome_of, finished. st_simpl.
      rewrite lookup_app_r by (fold m; lia). fold m. rewrite Nat.sub_diag. reflexivity.
    + unfold finished at 1. st_simpl. rewrite H1. unfold finished. st_simpl.
      rewrite <- app_assoc. reflexivity.
Qed.

Lemma registry_failed_creation_is_rolled_back_witness :
  let n := length (promises registered_once) in
  let st1 := run (EResolve 0 NUMBER :: attempt Minimal.Sync (n + 5) (Rej Minimal.boom) 1)
               registered_once in
  outcome_of st1 n = Some (Rej Minimal.boom) /\
  this 0 st1 = this 0 registered_once /\
  factory_log st1 = factory_log registered_once ++ [fname Minimal.fails_once] /\
  forall w' o,
    Minimal.completes w' Minimal.fails_once (times_called Minimal.fails_once st1) o ->
    let m := length (promises st1) in
    let st2 := run (EResolve 0 NUMBER :: attempt w' (m + 5) o 1) st1 in
    outcome_of st2 m = Some o /\
    factory_log st2 = factory_log registered_once ++
                      [fname Minimal.fails_once; fname Minimal.fails_once].
Proof.
  apply (registry_failed_creation_is_rolled_back registered_once Minimal.Sync 0
           (this 0 registered_once) NUMBER
           {| factory := Given Minimal.fails_once; options := disposing Minimal.close;
              isSingleton := true |} Minimal.fails_once Minimal.boom);
    try (vm_compute; reflexivity).
  constructor.
Defined.

(** A [resolve] that finds a cached instance which has settled: two turns
    later the caller has its outcome, and nothing else has changed. *)
Lemma reg_hit_settled (st : state) c t p o :
  queue st = [] ->
  cached st c (key t) = Some p ->
  outcome_of st p = Some o ->
  run [EResolve c t; ETick; ETick] st =
    set_promises (fun h => h ++ [Settled o]) st.
Proof.
  intros Hq Hc Ho.
  rewrite reg_run_cons. unfold step at 1, exec.
  rewrite (reg_resolve_hit _ _ _ _ Hc). cbn [snd].
  unfold outcome_of in Ho.
  destruct (promises st !! p) as [[rs|o']|] eqn:Hp; try discriminate.
  injection Ho as ->. clear Hc.
  destruct st as [h q cs ag ns ex fl dl co]. st_simpl. subst q.
  rtick reg_tick_thenable.
  erewrite reg_exec_register_settled by (st_simpl; apply lookup_app_l_Some, Hp). rnorm.
  rtick reg_tick_adopt. rsettle.
  cbn [run fold_left]. reflexivity.
Qed.

(** X11. A creation that ends with a value, falsy ones included, is cached:
    a second [resolve] of the token is fulfilled with the same value, the
    factory has run once and the container is not changed by the second
    call. *)
Theorem registry_instance_is_cached (st : state) w c C t reg f v :
  queue st = [] ->
  containers st !! c = Some C ->
  resolvedInstances C !! key t = None ->
  registrations C !! key t = Some reg ->
  factory reg = Given f ->
  isSingleton reg = true ->
  Minimal.completes w f (times_called f st) (Ful v) ->
  let n := length (promises st) in
  let st1 := run (EResolve c t :: attempt w (n + 5) (Ful v) 1) st in
  let st2 := run [EResolve c t; ETick; ETick] st1 in
  outcome_of st1 n = Some (Ful v) /\
  cached st1 c (key t) = Some (n + 4) /\
  outcome_of st2 (length (promises st1)) = Some (Ful v) /\
  factory_log st2 = factory_log st ++ [fname f] /\
  this c st2 = this c st1.
Proof.
  intros Hq Hc Hk Hr Hf Hs Hb n st1 st2.
  assert (Hck : cached st c (key t) = None) by (unfold cached, this; rewrite Hc; exact Hk).
  assert (Hrk : registered st c (key t) = Some reg)
    by (unfold registered, this; rewrite Hc; exact Hr).
  assert (H1 : st1 = finished w c (key t) reg f (Ful v) st)
    by (apply reg_attempt_single; assumption).
  assert (Hcached : cached st1 c (key t) = Some (n + 4)).
  { rewrite H1. unfold cached, finished, this. st_simpl.
    rewrite list_lookup_alter_eq, Hc. simpl. unfold begun. rewrite Hs.
    destruct (dispose_of (options reg)); simpl; apply lookup_insert_eq. }
  assert (Hp3 : outcome_of st1 (n + 4) = Some (Ful v)).
  { rewrite H1. unfold outcome_of, finished. st_simpl. fold n.
    rewrite lookup_app_r by lia.
    replace (n + 4 - length (promises st)) with 4 by (unfold n; lia). reflexivity. }
  assert (H2 : st2 = set_promises (fun h => h ++ [Settled (Ful v)]) st1).
  { apply reg_hit_settled with (p := n + 4); [rewrite H1; reflexivity|assumption..]. }
  split; [|split; [exact Hcached|split; [|split]]].
  - rewrite H1. unfold outcome_of, finished. st_simpl. fold n.
    rewrite lookup_app_r by lia. rewrite Nat.sub_diag. reflexivity.
  - rewrite H2. unfold outcome_of. simpl. rewrite list_lookup_middle by reflexivity.
    reflexivity.
  - rewrite H2. simpl. rewrite H1. reflexivity.
  - rewrite H2. reflexivity.
Qed.

Lemma registry_instance_is_cached_witness :
  let n := length (promises registered_zero) in
  let st1 := run (EResolve 0 NUMBER :: attempt Minimal.Sync (n + 5) (Ful (VNum 0)) 1)
               registered_zero in
  let st2 := run [EResolve 0 NUMBER; ETick; ETick] st1 in
  outcome_of st1 n = Some (Ful (VNum 0)) /\
  cached st1 0 (key NUMBER) = Some (n + 4) /\
  outcome_of st2 (length (promises st1)) = Some (Ful (VNum 0)) /\
  factory_log st2 = factory_log registered_zero ++ [fname Minimal.zero] /\
  this 0 st2 = this 0 st1.
Proof.
  apply (registry_instance_is_cached registered_zero Minimal.Sync 0
           (this 0 registered_zero) NUMBER
           {| factory := Given Minimal.zero; options := None; isSingleton := true |}
           Minimal.zero (VNum 0));
    vm_compute; reflexivity.
Defined.

Lemma register_eq (st : state) c C t f opts :
  containers st !! c = Some C ->
  exec (Registry.register c t f opts) st =
    set_containers
      (alter (fun x => set_resolvedInstances (delete (key t))
                (set_registrations (insert (key t)
                   {| factory := Given f; options := opts; isSingleton := true |}) x)) c)
      (set_console (fun l => l ++ warning C (key t)) st).
Proof.
  intros Hc. destruct st as [h q cs ag ns ex fl dl co]. st_simpl.
  unfold exec, Registry.register, warn_if_registered, warning.
  unfold bind at 1. unfold bind at 1, gets at 1. unfold this. st_simpl. rewrite Hc.
  cbn [default from_option id].
  destruct (registrations C !! key t);
    unfold console_log, ret, bind, update, modify; st_simpl;
    rewrite list_alter_alter_eq, ?app_nil_r; reflexivity.
Qed.

Lemma registerValue_eq (st : state) c C t v opts :
  containers st !! c = Some C ->
  exec (registerValue c t v opts) st =
    let n := length (promises st) in
    set_containers
      (alter (fun x => set_disposers (fun l => l ++ listed opts n)
                (set_resolvedInstances (insert (key t) n)
                  (set_registrations (insert (key t)
                     {| factory := Constant v; options := opts; isSingleton := true |}) x))) c)
      (set_promises (fun h => h ++ [Settled (Ful v)])
        (set_console (fun l => l ++ warning C (key t)) st)).
Proof.
  intros Hc. destruct st as [h q cs ag ns ex fl dl co]. st_simpl.
  unfold exec, registerValue, warn_if_registered, warning, listed, dispose_of.
  unfold bind at 1. unfold bind at 1, gets at 1. unfold this. st_simpl. rewrite Hc.
  cbn [default from_option id].
  destruct (registrations C !! key t);
    unfold console_log, ret, bind, update, modify, Promise_resolve, new_promise; st_simpl;
    destruct opts as [[[d|]]|]; unfold update, modify, ret; st_simpl;
    rewrite ?list_alter_alter_eq, ?app_nil_r;
    match goal with
    | |- ?L = ?R =>
        match L with
        | context [alter ?F c cs] =>
            match R with
            | context [alter ?G c cs] =>
                rewrite (list_alter_ext F G cs cs c);
                  [reflexivity
                  |intros [rg ri ds] _;
                   unfold compose, set_disposers, set_resolvedInstances, set_registrations;
                   simpl; rewrite ?app_nil_r; reflexivity
                  |reflexivity]
            end
        end
    end.
Qed.

(** X9. After [registerValue], [resolve] of the token is fulfilled with the
    value without any factory call; the cache holds the promise made by
    [registerValue], a disposer is listed exactly when the options name
    one, and the warning is written exactly when the token was registered
    already. *)
Theorem registerValue_then_resolve (st : state) c C t v opts :
  queue st = [] ->
  containers st !! c = Some C ->
  let n := length (promises st) in
  let st1 := run [ERegisterValue c t v opts; EResolve c t; ETick; ETick] st in
  outcome_of st1 (n + 1) = Some (Ful v) /\
  factory_log st1 = factory_log st /\
  cached st1 c (key t) = Some n /\
  disposers (this c st1) = disposers C ++ listed opts n /\
  console st1 = console st ++ warning C (key t).
Proof.
  intros Hq Hc n st1.
  set (st' := step (ERegisterValue c t v opts) st).
  assert (H' : st' = _) by (apply (registerValue_eq st c C t v opts Hc)).
  cbv zeta in H'. fold n in H'.
  assert (Hcached : cached st' c (key t) = Some n).
  { rewrite H'. unfold cached, this. st_simpl. rewrite list_lookup_alter_eq, Hc. simpl.
    apply lookup_insert_eq. }
  assert (Ho : outcome_of st' n = Some (Ful v)).
  { rewrite H'. unfold outcome_of. st_simpl. rewrite list_lookup_middle by reflexivity.
    reflexivity. }
  assert (H1 : st1 = set_promises (fun h => h ++ [Settled (Ful v)]) st').
  { unfold st1. rewrite reg_run_cons. fold st'.
    apply reg_hit_settled with (p := n); [rewrite H'; exact Hq|assumption..]. }
  rewrite H1. split; [|split; [|split; [|split]]].
  - unfold outcome_of. simpl. rewrite H'. st_simpl.
    rewrite lookup_app_r by (rewrite length_app; simpl; fold n; lia).
    rewrite length_app. simpl. fold n. replace (n + 1 - (n + 1)) with 0 by lia. reflexivity.
  - rewrite H'. reflexivity.
  - exact Hcached.
  - rewrite H'. unfold this. st_simpl. rewrite list_lookup_alter_eq, Hc. reflexivity.
  - rewrite H'. reflexivity.
Qed.

Lemma registerValue_then_resolve_witness :
  let n := length (promises init) in
  let st1 := run [ERegisterValue 0 NUMBER (VNum 0) (disposing Minimal.close);
                  EResolve 0 NUMBER; ETick; ETick] init in
  outcome_of st1 (n + 1) = Some (Ful (VNum 0)) /\
  factory_log st1 = factory_log init /\
  cached st1 0 (key NUMBER) = Some n /\
  disposers (this 0 st1) =
    disposers empty_container ++ listed (disposing Minimal.close) n /\
  console st1 = console init ++ warning empty_container (key NUMBER).
Proof.
  apply (registerValue_then_resolve init 0 empty_container NUMBER (VNum 0)
           (disposing Minimal.close)); reflexivity.
Defined.

(** X10. [register] drops the cached instance of the token: the next
    [resolve] runs the newly registered factory and caches its promise.
    The disposers listed before stay listed, and the warning is written
    exactly when the token was registered already. *)
Theorem reregistration_replaces_instance (st : state) w c C t f opts v :
  queue st = [] ->
  containers st !! c = Some C ->
  Minimal.completes w f (times_called f st) (Ful v) ->
  let n := length (promises st) in
  let st1 := run (ERegister c t f opts :: EResolve c t ::
                  attempt w (n + 5) (Ful v) 1) st in
  outcome_of st1 n = Some (Ful v) /\
  factory_log st1 = factory_log st ++ [fname f] /\
  cached st1 c (key t) = Some (n + 4) /\
  disposers (this c st1) = disposers C ++ listed opts (n + 4) /\
  console st1 = console st ++ warning C (key t).
Proof.
  intros Hq Hc Hb n st1.
  set (reg := {| factory := Given f; options := opts; isSingleton := true |}).
  set (st' := step (ERegister c t f opts) st).
  assert (H' : st' = _) by (apply (register_eq st c C t f opts Hc)).
  fold reg in H'.
  assert (H1 : st1 = finished w c (key t) reg f (Ful v) st').
  { unfold st1. rewrite reg_run_cons. fold st'.
    replace n with (length (promises st')) by (rewrite H'; reflexivity).
    apply reg_attempt_single.
    - rewrite H'. exact Hq.
    - rewrite H'. unfold cached, this. st_simpl. rewrite list_lookup_alter_eq, Hc. simpl.
      apply lookup_delete_eq.
    - rewrite H'. unfold registered, this. st_simpl. rewrite list_lookup_alter_eq, Hc. simpl.
      apply lookup_insert_eq.
    - reflexivity.
    - rewrite H'. exact Hb. }
  rewrite H1. unfold finished, outcome_of, cached, this. st_simpl.
  rewrite H'. st_simpl. fold n.
  rewrite list_alter_alter_eq, list_lookup_alter_eq, Hc. simpl.
  split; [rewrite lookup_app_r, Nat.sub_diag by lia; reflexivity|].
  split; [reflexivity|].
  unfold begun, listed. simpl. destruct (dispose_of opts); simpl.
  - split; [apply lookup_insert_eq|]. split; reflexivity.
  - split; [apply lookup_insert_eq|]. rewrite app_nil_r. split; reflexivity.
Qed.

Lemma reregistration_replaces_instance_witness :
  let st := run [ERegisterValue 0 NUMBER (VNum 7) (disposing Minimal.close)] init in
  let n := length (promises st) in
  let st1 := run (ERegister 0 NUMBER Minimal.one None :: EResolve 0 NUMBER ::
                  attempt Minimal.Sync (n + 5) (Ful (VNum 1)) 1) st in
  outcome_of st1 n = Some (Ful (VNum 1)) /\
  factory_log st1 = factory_log st ++ [fname Minimal.one] /\
  cached st1 0 (key NUMBER) = Some (n + 4) /\
  disposers (this 0 st1) = disposers (this 0 st) ++ listed None (n + 4) /\
  console st1 = console st ++ warning (this 0 st) (key NUMBER).
Proof.
  apply (reregistration_replaces_instance
           (run [ERegisterValue 0 NUMBER (VNum 7) (disposing Minimal.close)] init)
           Minimal.Sync 0
           (this 0 (run [ERegisterValue 0 NUMBER (VNum 7) (disposing Minimal.close)] init))
           NUMBER Minimal.one None (VNum 1));
    vm_compute; reflexivity.
Defined.

Lemma reg_createScope_eq (st : state) c :
  c < length (containers st) ->
  createScope c st =
    (Val (length (containers st)),
     set_containers (fun l => l ++ [scope_of (this c st)]) st).
Proof.
  intros Hc. destruct st as [h q cs ag ns ex fl dl co]. st_simpl.
  unfold createScope, bind, gets, update, modify, ret, this. st_simpl.
  rewrite (lookup_app_l cs) by exact Hc.
  rewrite list_alter_alter_eq.
  replace (length cs) with (length cs + 0) at 2 by lia.
  rewrite alter_app_r. reflexivity.
Qed.

Lemma this_appended (st : state) x c :
  c < length (containers st) ->
  this c (set_containers (fun l => l ++ [x]) st) = this c st.
Proof. intros Hc. unfold this. simpl. rewrite lookup_app_l by exact Hc. reflexivity. Qed.

Lemma this_new (st : state) x :
  this (length (containers st)) (set_containers (fun l => l ++ [x]) st) = x.
Proof. unfold this. simpl. rewrite list_lookup_middle by reflexivity. reflexivity. Qed.

(** X13. A scope created before the parent has resolved a token resolves
    it through the inherited registration and caches the instance for
    itself: the parent is unchanged, and a later [resolve] on the parent
    runs the factory a second time. *)
Theorem registry_scope_creates_its_own_instance (st : state) w w' c C t reg f v v' :
  queue st = [] ->
  containers st !! c = Some C ->
  resolvedInstances C !! key t = None ->
  registrations C !! key t = Some reg ->
  factory reg = Given f ->
  isSingleton reg = true ->
  Minimal.completes w f (times_called f st) (Ful v) ->
  Minimal.completes w' f (S (times_called f st)) (Ful v') ->
  let n := length (promises st) in
  let child := length (containers st) in
  let st1 := run (ECreateScope c :: EResolve child t :: attempt w (n + 5) (Ful v) 1) st in
  let m := length (promises st1) in
  let st2 := run (EResolve c t :: attempt w' (m + 5) (Ful v') 1) st1 in
  outcome_of st1 n = Some (Ful v) /\
  cached st1 child (key t) = Some (n + 4) /\
  this c st1 = C /\
  outcome_of st2 m = Some (Ful v') /\
  factory_log st2 = factory_log st ++ [fname f; fname f] /\
  this child st2 = this child st1.
Proof.
  intros Hq Hc Hk Hr Hf Hs Hb Hb' n child st1 m st2.
  assert (Hlt : c < length (containers st)) by (eapply lookup_lt_Some, Hc).
  assert (HC : this c st = C) by (unfold this; rewrite Hc; reflexivity).
  set (st' := set_containers (fun l => l ++ [scope_of C]) st).
  assert (H' : step (ECreateScope c) st = st').
  { simpl. unfold exec. rewrite (reg_createScope_eq st c Hlt), HC. reflexivity. }
  assert (Hchild : this child st' = scope_of C) by apply this_new.
  assert (Hparent : this c st' = C) by (unfold st'; rewrite this_appended, HC by exact Hlt; reflexivity).
  assert (H1 : st1 = finished w child (key t) reg f (Ful v) st').
  { unfold st1. rewrite reg_run_cons, H'.
    replace n with (length (promises st')) by reflexivity.
    apply reg_attempt_single.
    - exact Hq.
    - unfold cached. rewrite Hchild. exact Hk.
    - unfold registered. rewrite Hchild. exact Hr.
    - exact Hf.
    - exact Hb. }
  assert (Hne : c <> child) by (unfold child; lia).
  assert (Hp1 : this c st1 = C).
  { rewrite H1. unfold finished, this, st'. st_simpl.
    rewrite list_lookup_alter_ne by congruence.
    rewrite lookup_app_l by exact Hlt. rewrite Hc. reflexivity. }
  assert (H2 : st2 = finished w' c (key t) reg f (Ful v') st1).
  { unfold st2. apply reg_attempt_single.
    - rewrite H1. reflexivity.
    - unfold cached. rewrite Hp1. exact Hk.
    - unfold registered. rewrite Hp1. exact Hr.
    - exact Hf.
    - rewrite H1. unfold finished, times_called. st_simpl.
      rewrite count_occ_app. simpl. destruct (Nat.eq_dec (fname f) (fname f)); [|congruence].
      unfold times_called in Hb'. rewrite Nat.add_1_r. exact Hb'. }
  split; [|split; [|split; [exact Hp1|split; [|split]]]].
  - rewrite H1. unfold outcome_of, finished, st'. st_simpl. fold n.
    rewrite lookup_app_r by lia. rewrite Nat.sub_diag. reflexivity.
  - rewrite H1. unfold cached, finished, this, st'. st_simpl.
    rewrite list_lookup_alter_eq, list_lookup_middle by reflexivity. simpl.
    unfold begun. rewrite Hs. fold n.
    destruct (dispose_of (options reg)); simpl; apply lookup_insert_eq.
  - rewrite H2. unfold outcome_of, finished at 1. st_simpl. fold m.
    rewrite lookup_app_r by lia. rewrite Nat.sub_diag. reflexivity.
  - rewrite H2. unfold finished at 1. st_simpl. rewrite H1. unfold finished. st_simpl.
    rewrite <- app_assoc. reflexivity.
  - rewrite H2. unfold finished at 1, this. st_simpl.
    rewrite list_lookup_alter_ne by congruence. reflexivity.
Qed.

Lemma registry_scope_creates_its_own_instance_witness :
  let st := registered_seven in
  let n := length (promises st) in
  let child := length (containers st) in
  let st1 := run (ECreateScope 0 :: EResolve child NUMBER ::
                  attempt Minimal.Sync (n + 5) (Ful (VNum 7)) 1) st in
  let m := length (promises st1) in
  let st2 := run (EResolve 0 NUMBER :: attempt Minimal.Sync (m + 5) (Ful (VNum 7)) 1) st1 in
  outcome_of st1 n = Some (Ful (VNum 7)) /\
  cached st1 child (key NUMBER) = Some (n + 4) /\
  this 0 st1 = this 0 st /\
  outcome_of st2 m = Some (Ful (VNum 7)) /\
  factory_log st2 = factory_log st ++ [fname Minimal.seven; fname Minimal.seven] /\
  this child st2 = this child st1.
Proof.
  apply (registry_scope_creates_its_own_instance registered_seven Minimal.Sync Minimal.Sync
           0 (this 0 registered_seven) NUMBER
           {| factory := Given Minimal.seven; options := disposing Minimal.close;
              isSingleton := true |} Minimal.seven (VNum 7) (VNum 7));
    vm_compute; reflexivity.
Defined.

(** X14. A scope created after the parent has cached a promise for a token
    resolves the token to the outcome of that same promise, without any
    factory call; the scope lists no disposer for it and the parent is
    unchanged. *)
Theorem registry_scope_shares_cached_instance (st : state) c C t p o :
  queue st = [] ->
  containers st !! c = Some C ->
  resolvedInstances C !! key t = Some p ->
  outcome_of st p = Some o ->
  let child := length (containers st) in
  let st1 := run [ECreateScope c; EResolve child t; ETick; ETick] st in
  outcome_of st1 (length (promises st)) = Some o /\
  factory_log st1 = factory_log st /\
  cached st1 child (key t) = Some p /\
  disposers (this child st1) = [] /\
  this c st1 = C.
Proof.
  intros Hq Hc Hk Ho child st1.
  assert (Hlt : c < length (containers st)) by (eapply lookup_lt_Some, Hc).
  assert (HC : this c st = C) by (unfold this; rewrite Hc; reflexivity).
  set (st' := set_containers (fun l => l ++ [scope_of C]) st).
  assert (H' : step (ECreateScope c) st = st').
  { simpl. unfold exec. rewrite (reg_createScope_eq st c Hlt), HC. reflexivity. }
  assert (Hchild : this child st' = scope_of C) by apply this_new.
  assert (Hcached : cached st' child (key t) = Some p)
    by (unfold cached; rewrite Hchild; exact Hk).
  assert (H1 : st1 = set_promises (fun h => h ++ [Settled o]) st').
  { unfold st1. rewrite reg_run_cons, H'.
    apply reg_hit_settled with (p := p); [exact Hq|exact Hcached|exact Ho]. }
  rewrite H1. split; [|split; [reflexivity|split; [exact Hcached|split]]].
  - unfold outcome_of. simpl. rewrite list_lookup_middle by reflexivity. reflexivity.
  - change (disposers (this child st') = []). rewrite Hchild. reflexivity.
  - change (this c st' = C). unfold st'. rewrite this_appended by exact Hlt. exact HC.
Qed.

Lemma registry_scope_shares_cached_instance_witness :
  let st := run [ERegisterValue 0 NUMBER (VNum 0) None] init in
  let child := length (containers st) in
  let st1 := run [ECreateScope 0; EResolve child NUMBER; ETick; ETick] st in
  outcome_of st1 (length (promises st)) = Some (Ful (VNum 0)) /\
  factory_log st1 = factory_log st /\
  cached st1 child (key NUMBER) = Some 0 /\
  disposers (this child st1) = [] /\
  this 0 st1 = this 0 st.
Proof.
  apply (registry_scope_shares_cached_instance
           (run [ERegisterValue 0 NUMBER (VNum 0) None] init) 0
           (this 0 (run [ERegisterValue 0 NUMBER (VNum 0) None] init)) NUMBER 0
           (Ful (VNum 0))); vm_compute; reflexivity.
Defined.

(** The call of [disposeAll] on a container with one disposer whose
    instance has settled. *)
Lemma reg_disposeAll_one (st : state) c C p dfn o :
  containers st !! c = Some C ->
  disposers C = [{| instancePromise := p; disposeFn := dfn |}] ->
  promises st !! p = Some (Settled o) ->
  let n := length (promises st) in
  disposeAll c st =
    (Val n,
     set_queue (fun q => q ++ [JReact (rx (HAwaitInstance dfn) (n + 1)) o])
       (set_aggs (fun l => l ++ [{| remaining := 1; total := 1; result := n + 2 |}])
         (set_containers (alter (set_disposers (fun _ => [])) c)
           (set_promises (fun h => h ++ [Pending [];
                                         Pending [elem (length (aggs st)) (n + 3)];
                                         Pending [rx (HDisposeResume c [n + 1]) n];
                                         Pending []]) st)))).
Proof.
  intros Hc Hds Hp n. subst n. destruct st as [h q cs ag ns ex fl dl co]. st_simpl.
  unfold disposeAll, async_fn, Promise_allSettled, then_, await_, Promise_resolve,
    update, new_promise, new_agg, try_catch, bind, gets, modify, ret.
  unfold this. st_simpl. rewrite Hc. cbn [default from_option id]. rewrite Hds.
  cbn [array_map]. unfold bind, ret, new_promise, try_catch. cbv beta. st_simpl.
  cbn [instancePromise disposeFn length Nat.eqb].
  erewrite reg_register_settled
    by (st_simpl; rewrite <- app_assoc; apply lookup_app_l_Some, Hp).
  st_simpl. cbn [map length array_map]. unfold bind, ret. cbv beta iota. st_simpl.
  erewrite reg_register_pending by rside. rnorm. cbn [length Nat.eqb].
  erewrite reg_register_pending by rside. rnorm.
  reflexivity.
Qed.

(** X15. [disposeAll] on a container whose one listed disposer belongs to
    a fulfilled instance calls the disposer once with the instance and is
    fulfilled with [undefined] whether the disposer returns, throws, or
    returns a promise that is fulfilled or rejected; afterwards the cache
    and the disposer list are empty and the registrations are kept.  (The
    lines written to the console are not part of the statement.) *)
Theorem registry_disposeAll_disposes_instance (st : state) c C p dfn v b o :
  queue st = [] ->
  containers st !! c = Some C ->
  disposers C = [{| instancePromise := p; disposeFn := dfn |}] ->
  outcome_of st p = Some (Ful v) ->
  dbehaviour dfn v (times_disposed dfn st) = b ->
  let n := length (promises st) in
  let st1 := run (EDisposeAll c :: disposal b (n + 6) o) st in
  dispose_log st1 = dispose_log st ++ [(dname dfn, v)] /\
  outcome_of st1 n = Some (Ful VUndefined) /\
  this c st1 =
    {| registrations := registrations C; resolvedInstances := ∅; disposers := [] |} /\
  queue st1 = [].
Proof.
  intros Hq Hc Hds Ho Hb. cbv zeta.
  unfold outcome_of in Ho.
  destruct (promises st !! p) as [[rs|o']|] eqn:Hp; try discriminate.
  injection Ho as ->.
  destruct st as [h q cs ag ns ex fl dl co]. unfold times_disposed in Hb. st_simpl. subst q.
  match goal with |- context [run ?tr ?s] => set (st1 := run tr s) end.
  destruct b as [|e|].
  - eassert (H1 : st1 = _).
    { subst st1. cbn [disposal repeat app].
      rewrite reg_run_cons. unfold step at 1, exec.
      erewrite (reg_disposeAll_one _ c C p dfn (Ful v)); [|exact Hc|exact Hds|exact Hp].
      cbn [snd]. rnorm.
      rtick reg_tick_await_ful.
      rtick reg_tick_dispose. rewrite Hb. cbv beta iota zeta. rsettle.
      rtick reg_tick_thenable. erewrite reg_exec_register_settled by rside. rnorm.
      rtick reg_tick_adopt. rsettle.
      rewrite reg_run_cons. unfold step at 1.
      erewrite reg_tick_settled_elem; [|rside|rnorm; reflexivity|reflexivity].
      unfold pop. rnorm. cbn [total result].
      erewrite (reg_exec_settle_pending _ (length h + 2)) by rside.
      unfold settled. rnorm. rsettle.
      rtick reg_tick_resume. rsettle.
      cbn [run fold_left]. rewrite list_alter_alter_eq. reflexivity. }
    rewrite H1. unfold outcome_of, this. rnorm.
    rewrite list_lookup_alter_eq, Hc. repeat split.
  - eassert (H1 : st1 = _).
    { subst st1. cbn [disposal repeat app].
      rewrite reg_run_cons. unfold step at 1, exec.
      erewrite (reg_disposeAll_one _ c C p dfn (Ful v)); [|exact Hc|exact Hds|exact Hp].
      cbn [snd]. rnorm.
      rtick reg_tick_await_ful.
      rtick reg_tick_dispose. rewrite Hb. cbv beta iota zeta. rsettle.
      rtick reg_tick_thenable. erewrite reg_exec_register_settled by rside. rnorm.
      rtick reg_tick_adopt. rsettle.
      rewrite reg_run_cons. unfold step at 1.
      erewrite reg_tick_settled_elem; [|rside|rnorm; reflexivity|reflexivity].
      unfold pop. rnorm. cbn [total result].
      erewrite (reg_exec_settle_pending _ (length h + 2)) by rside.
      unfold settled. rnorm. rsettle.
      rtick reg_tick_resume. rsettle.
      cbn [run fold_left]. rewrite list_alter_alter_eq. reflexivity. }
    rewrite H1. unfold outcome_of, this. rnorm.
    rewrite list_lookup_alter_eq, Hc. repeat split.
  - eassert (H1 : st1 = _).
    { subst st1. cbn [disposal repeat app].
      rewrite reg_run_cons. unfold step at 1, exec.
      erewrite (reg_disposeAll_one _ c C p dfn (Ful v)); [|exact Hc|exact Hds|exact Hp].
      cbn [snd]. rnorm.
      rtick reg_tick_await_ful.
      rtick reg_tick_dispose. rewrite Hb. cbv beta iota zeta. rnorm.
      rtick reg_tick_thenable. erewrite reg_exec_register_pending by rside. rnorm.
      rtick reg_tick_thenable. erewrite reg_exec_register_pending by rside. rnorm.
      rewrite reg_run_cons. unfold step at 1, exec, env_settle. rnorm. rbd.
      erewrite reg_settle_pending by rside. unfold settled. rnorm.
      rtick reg_tick_adopt. rsettle.
      rtick reg_tick_adopt. rsettle.
      rewrite reg_run_cons. unfold step at 1.
      erewrite reg_tick_settled_elem; [|rside|rnorm; reflexivity|reflexivity].
      unfold pop. rnorm. cbn [total result].
      erewrite (reg_exec_settle_pending _ (length h + 2)) by rside.
      unfold settled. rnorm. rsettle.
      rtick reg_tick_resume. rsettle.
      cbn [run fold_left]. rewrite list_alter_alter_eq. reflexivity. }
    rewrite H1. unfold outcome_of, this. rnorm.
    rewrite list_lookup_alter_eq, Hc. repeat split.
Qed.

Lemma registry_disposeAll_disposes_instance_witness :
  let st := run [ERegisterValue 0 NUMBER (VNum 7) (disposing Minimal.faulty)] init in
  let n := length (promises st) in
  let st1 := run (EDisposeAll 0 :: disposal (DThrow Minimal.boom) (n + 6) (Ful VUndefined)) st in
  dispose_log st1 = dispose_log st ++ [(dname Minimal.faulty, VNum 7)] /\
  outcome_of st1 n = Some (Ful VUndefined) /\
  this 0 st1 =
    {| registrations := registrations (this 0 st); resolvedInstances := ∅;
       disposers := [] |} /\
  queue st1 = [].
Proof.
  apply (registry_disposeAll_disposes_instance
           (run [ERegisterValue 0 NUMBER (VNum 7) (disposing Minimal.faulty)] init) 0
           (this 0 (run [ERegisterValue 0 NUMBER (VNum 7) (disposing Minimal.faulty)] init))
           0 Minimal.faulty (VNum 7) (DThrow Minimal.boom) (Ful VUndefined));
    vm_compute; reflexivity.
Defined.

(** The call of [disposeAll] on a container with one disposer whose
    instance is still being created. *)
Lemma reg_disposeAll_one_pending (st : state) c C p dfn rs :
  containers st !! c = Some C ->
  disposers C = [{| instancePromise := p; disposeFn := dfn |}] ->
  promises st !! p = Some (Pending rs) ->
  let n := length (promises st) in
  disposeAll c st =
    (Val n,
     set_aggs (fun l => l ++ [{| remaining := 1; total := 1; result := n + 2 |}])
       (set_containers (alter (set_disposers (fun _ => [])) c)
         (set_promises (fun h => <[p := Pending (rs ++ [rx (HAwaitInstance dfn) (n + 1)])]> h ++
                                 [Pending [];
                                  Pending [elem (length (aggs st)) (n + 3)];
                                  Pending [rx (HDisposeResume c [n + 1]) n];
                                  Pending []]) st))).
Proof.
  intros Hc Hds Hp n. subst n. destruct st as [h q cs ag ns ex fl dl co]. st_simpl.
  assert (Hlt : p < length h) by (eapply lookup_lt_Some, Hp).
  unfold disposeAll, async_fn, Promise_allSettled, then_, await_, Promise_resolve,
    update, new_promise, new_agg, try_catch, bind, gets, modify, ret.
  unfold this. st_simpl. rewrite Hc. cbn [default from_option id]. rewrite Hds.
  cbn [array_map]. unfold bind, ret, new_promise, try_catch. cbv beta. st_simpl.
  cbn [instancePromise disposeFn length Nat.eqb].
  erewrite reg_register_pending
    by (st_simpl; rewrite <- app_assoc; apply lookup_app_l_Some, Hp).
  st_simpl. cbn [map length array_map]. unfold bind, ret. cbv beta iota. st_simpl.
  unfold rx. rewrite !length_app. cbn [length]. rewrite <- !app_assoc. cbn [app].
  rewrite !(insert_app_l h) by exact Hlt.
  set (h' := <[p := _]> h).
  assert (Hlen : length h = length h') by (symmetry; apply length_insert).
  rewrite !Hlen. rnorm.
  erewrite reg_register_pending by rside. rnorm. cbn [length Nat.eqb]. cbv beta iota.
  erewrite reg_register_pending by rside. rnorm.
  reflexivity.
Qed.

(** The [map] callback of [disposeAll] when the instance promise was
    rejected: the error is written to the console and passed on. *)
Lemma reg_tick_await_rej (st : state) dfn d e q :
  queue st = JReact (rx (HAwaitInstance dfn) d) (Rej e) :: q ->
  exec tick st =
    set_queue (fun _ => q ++ [JThenable d (length (promises st))])
      (set_promises (fun h => h ++ [Settled (Rej e)])
        (set_console (fun l => l ++ [(dispose_error, [e])]) st)).
Proof.
  intros Hq. user_job Hq.
  destruct st as [h q0 cs ag ns ex fl dl co]. st_simpl.
  unfold console_log, Promise_reject, new_promise, bind, modify, ret, resolve_promise,
    enqueue, modify. st_simpl. reflexivity.
Qed.

(** X16. [disposeAll] called while the creation of the one listed instance
    is waiting for its asynchronous factory waits for the instance.  If the
    creation succeeds, the disposer is called with the instance; if it
    fails, the disposer is not called.  In both cases [disposeAll] is
    fulfilled with [undefined], the caller of [resolve] has the outcome of
    the creation, and the cache and the disposer list end empty.  (The
    lines written to the console are not part of the statement.) *)
Theorem registry_disposeAll_awaits_creation (st : state) c C t reg f dfn o :
  queue st = [] ->
  containers st !! c = Some C ->
  resolvedInstances C !! key t = None ->
  registrations C !! key t = Some reg ->
  factory reg = Given f ->
  isSingleton reg = true ->
  dispose_of (options reg) = Some dfn ->
  disposers C = [] ->
  behaviour f (times_called f st) = FAsync ->
  (forall v, o = Ful v -> dbehaviour dfn v (times_disposed dfn st) <> DAsync) ->
  let n := length (promises st) in
  let st1 := run (EResolve c t :: repeat ETick 3 ++
                  EDisposeAll c :: ESettle (n + 5) o :: awaited o) st in
  outcome_of st1 n = Some o /\
  outcome_of st1 (n + 6) = Some (Ful VUndefined) /\
  dispose_log st1 =
    dispose_log st ++ match o with Ful v => [(dname dfn, v)] | Rej _ => [] end /\
  resolvedInstances (this c st1) = ∅ /\
  disposers (this c st1) = [] /\
  queue st1 = [].
Proof.
  intros Hq Hc Hk Hr Hf Hs Hd Hds Hb Hsync. cbv zeta.
  assert (Hck : cached st c (key t) = None) by (unfold cached, this; rewrite Hc; exact Hk).
  assert (Hrk : registered st c (key t) = Some reg)
    by (unfold registered, this; rewrite Hc; exact Hr).
  destruct st as [h q cs ag ns ex fl dl co].
  unfold times_called in Hb. unfold times_disposed in Hsync. st_simpl. subst q.
  match goal with |- context [run ?tr ?s] => set (st1 := run tr s) end.
  assert (Hbegun : disposers (begun (key t) reg (length h + 4) C) =
                   [{| instancePromise := length h + 4; disposeFn := dfn |}]).
  { unfold begun. rewrite Hs, Hd. simpl. rewrite Hds. reflexivity. }
  destruct o as [v|e].
  - specialize (Hsync v eq_refl).
    destruct (dbehaviour dfn v (length (filter (fun x : cid * value => x.1 = dname dfn) dl)))
      as [|e|] eqn:Hbd; [| |congruence].
    + eassert (H1 : st1 = _).
      { subst st1. cbn [awaited repeat app].
      rewrite reg_run_cons. unfold step at 1, exec.
      rewrite (reg_resolve_miss _ _ _ _ Hck Hrk). cbn [snd].
      unfold after_miss. rewrite Hf. rnorm.
      rtick reg_tick_factory_async.
      rtick reg_tick_thenable. erewrite reg_exec_register_pending by rside. rnorm.
      rtick reg_tick_thenable. erewrite reg_exec_register_pending by rside. rnorm.
      rewrite reg_run_cons. unfold step at 1, exec.
      erewrite (reg_disposeAll_one_pending _ c (begun (key t) reg (length h + 4) C)
                  (length h + 4) dfn);
        [|st_simpl; rewrite list_lookup_alter_eq, Hc; reflexivity|exact Hbegun|rside].
      cbn [snd]. rnorm.
      rewrite reg_run_cons. unfold step at 1, exec, env_settle. rnorm. rbd.
      erewrite reg_settle_pending by rside. unfold settled. rnorm.
      rtick reg_tick_adopt. rsettle.
      rtick reg_tick_value. rsettle.
      rtick reg_tick_catch_ful. rsettle.
      rtick reg_tick_adopt. rsettle.
      rtick reg_tick_await_ful.
      rtick reg_tick_dispose. rewrite Hbd. cbv beta iota zeta. rsettle.
      rtick reg_tick_thenable. erewrite reg_exec_register_settled by rside. rnorm.
      rtick reg_tick_adopt. rsettle.
      rewrite reg_run_cons. unfold step at 1.
      erewrite reg_tick_settled_elem; [|rside|rnorm; reflexivity|reflexivity].
      unfold pop. rnorm. cbn [total result].
      erewrite (reg_exec_settle_pending _ (length h + 8)) by rside.
      unfold settled. rnorm. rsettle.
      rtick reg_tick_resume. rsettle.
      cbn [run fold_left]. rewrite !list_alter_alter_eq. reflexivity. }
    rewrite H1. unfold outcome_of, this. rnorm.
    rewrite list_lookup_alter_eq, Hc. repeat split.
    + eassert (H1 : st1 = _).
      { subst st1. cbn [awaited repeat app].
      rewrite reg_run_cons. unfold step at 1, exec.
      rewrite (reg_resolve_miss _ _ _ _ Hck Hrk). cbn [snd].
      unfold after_miss. rewrite Hf. rnorm.
      rtick reg_tick_factory_async.
      rtick reg_tick_thenable. erewrite reg_exec_register_pending by rside. rnorm.
      rtick reg_tick_thenable. erewrite reg_exec_register_pending by rside. rnorm.
      rewrite reg_run_cons. unfold step at 1, exec.
      erewrite (reg_disposeAll_one_pending _ c (begun (key t) reg (length h + 4) C)
                  (length h + 4) dfn);
        [|st_simpl; rewrite list_lookup_alter_eq, Hc; reflexivity|exact Hbegun|rside].
      cbn [snd]. rnorm.
      rewrite reg_run_cons. unfold step at 1, exec, env_settle. rnorm. rbd.
      erewrite reg_settle_pending by rside. unfold settled. rnorm.
      rtick reg_tick_adopt. rsettle.
      rtick reg_tick_value. rsettle.
      rtick reg_tick_catch_ful. rsettle.
      rtick reg_tick_adopt. rsettle.
      rtick reg_tick_await_ful.
      rtick reg_tick_dispose. rewrite Hbd. cbv beta iota zeta. rsettle.
      rtick reg_tick_thenable. erewrite reg_exec_register_settled by rside. rnorm.
      rtick reg_tick_adopt. rsettle.
      rewrite reg_run_cons. unfold step at 1.
      erewrite reg_tick_settled_elem; [|rside|rnorm; reflexivity|reflexivity].
      unfold pop. rnorm. cbn [total result].
      erewrite (reg_exec_settle_pending _ (length h + 8)) by rside.
      unfold settled. rnorm. rsettle.
      rtick reg_tick_resume. rsettle.
      cbn [run fold_left]. rewrite !list_alter_alter_eq. reflexivity. }
    rewrite H1. unfold outcome_of, this. rnorm.
    rewrite list_lookup_alter_eq, Hc. repeat split.
  - eassert (H1 : st1 = _).
    { subst st1. cbn [awaited repeat app].
      rewrite reg_run_cons. unfold step at 1, exec.
      rewrite (reg_resolve_miss _ _ _ _ Hck Hrk). cbn [snd].
      unfold after_miss. rewrite Hf. rnorm.
      rtick reg_tick_factory_async.
      rtick reg_tick_thenable. erewrite reg_exec_register_pending by rside. rnorm.
      rtick reg_tick_thenable. erewrite reg_exec_register_pending by rside. rnorm.
      rewrite reg_run_cons. unfold step at 1, exec.
      erewrite (reg_disposeAll_one_pending _ c (begun (key t) reg (length h + 4) C)
                  (length h + 4) dfn);
        [|st_simpl; rewrite list_lookup_alter_eq, Hc; reflexivity|exact Hbegun|rside].
      cbn [snd]. rnorm.
      rewrite reg_run_cons. unfold step at 1, exec, env_settle. rnorm. rbd.
      erewrite reg_settle_pending by rside. unfold settled. rnorm.
      rtick reg_tick_adopt. rsettle.
      rtick reg_tick_value. rsettle.
      rtick reg_tick_catch_rej. rsettle.
      rtick reg_tick_adopt. rsettle.
      rtick reg_tick_await_rej.
      rtick reg_tick_thenable. erewrite reg_exec_register_settled by rside. rnorm.
      rtick reg_tick_adopt. rsettle.
      rewrite reg_run_cons. unfold step at 1.
      erewrite reg_tick_settled_elem; [|rside|rnorm; reflexivity|reflexivity].
      unfold pop. rnorm. cbn [total result].
      erewrite (reg_exec_settle_pending _ (length h + 8)) by rside.
      unfold settled. rnorm. rsettle.
      rtick reg_tick_resume. rsettle.
      cbn [run fold_left]. rewrite !list_alter_alter_eq. reflexivity. }
    rewrite H1. unfold outcome_of, this. rnorm.
    rewrite list_lookup_alter_eq, Hc. unfold failed, begun. rewrite Hs, Hd. cbn.
    rewrite app_nil_r. repeat split.
Qed.

Lemma registry_disposeAll_awaits_creation_witness :
  let st := registered_slow in
  let o := Ful (VNum 7) in
  let n := length (promises st) in
  let st1 := run (EResolve 0 NUMBER :: repeat ETick 3 ++
                  EDisposeAll 0 :: ESettle (n + 5) o :: awaited o) st in
  outcome_of st1 n = Some o /\
  outcome_of st1 (n + 6) = Some (Ful VUndefined) /\
  dispose_log st1 =
    dispose_log st ++ match o with Ful v => [(dname Minimal.close, v)] | Rej _ => [] end /\
  resolvedInstances (this 0 st1) = ∅ /\
  disposers (this 0 st1) = [] /\
  queue st1 = [].
Proof.
  eapply (registry_disposeAll_awaits_creation registered_slow 0 _ NUMBER _ Minimal.slow
            Minimal.close (Ful (VNum 7)));
    try (vm_compute; reflexivity).
  intros v Hv. vm_compute. discriminate.
Defined.


(** What [disposeAll] writes to the console.  When the creation that it
    waited for fails, the callback of [map] reports the error and the
    [forEach] after [allSettled] reports it again; when a disposer throws,
    [forEach] reports it. *)
Lemma registry_disposeAll_reports_failures :
  let st1 := run (ERegister 0 NUMBER Minimal.slow (disposing Minimal.close) ::
                  EResolve 0 NUMBER :: repeat ETick 3 ++
                  EDisposeAll 0 :: ESettle 5 (Rej Minimal.boom) :: repeat ETick 9) init in
  let st2 := run (ERegister 0 NUMBER Minimal.seven (disposing Minimal.faulty) ::
                  EResolve 0 NUMBER :: repeat ETick 5 ++
                  EDisposeAll 0 :: repeat ETick 6) init in
  (console st1 = [(dispose_error, [Minimal.boom]); (dispose_failed, [Minimal.boom])] /\
   dispose_log st1 = [] /\ outcome_of st1 6 = Some (Ful VUndefined)) /\
  (console st2 = [(dispose_failed, [Minimal.boom])] /\
   dispose_log st2 = [(dname Minimal.faulty, VNum 7)] /\
   outcome_of st2 5 = Some (Ful VUndefined)).
Proof. vm_compute. repeat split. Qed.

(** The calls that split two callers of the other version: a creation is
    left in flight by [disposeAll], a first caller starts a new creation,
    the earlier one completes with [9], and a second caller arrives.  Here
    the earlier creation writes nothing back, and both callers get the
    value [1] of the new creation. *)
Lemma registry_callers_share_despite_earlier_creation :
  let st1 := run (ERegister 0 NUMBER Minimal.slow None :: EResolve 0 NUMBER ::
                  EDisposeAll 0 :: repeat ETick 4) init in
  let st2 := run (EResolve 0 NUMBER :: repeat ETick 3) st1 in
  let st3 := run (ESettle 7 (Ful (VNum 9)) :: repeat ETick 4) st2 in
  let st4 := run (EResolve 0 NUMBER :: ESettle 13 (Ful (VNum 1)) :: repeat ETick 6) st3 in
  (outcome_of st1 5 = Some (Ful VUndefined) /\ cached st1 0 (key NUMBER) = None) /\
  cached st2 0 (key NUMBER) = Some 12 /\
  (outcome_of st3 0 = Some (Ful (VNum 9)) /\ cached st3 0 (key NUMBER) = Some 12) /\
  (outcome_of st4 8 = Some (Ful (VNum 1)) /\ outcome_of st4 14 = Some (Ful (VNum 1)) /\
   queue st4 = []).
Proof. vm_compute. repeat split. Qed.

(** A scope created while a creation is pending keeps the promise when the
    creation fails: [resolve] in the scope is rejected with the old error
    every time, and the registered factory is not called again. *)
Lemma registry_failed_creation_stays_in_scope :
  let st1 := run (ERegister 0 NUMBER Minimal.fails_once None :: EResolve 0 NUMBER ::
                  ECreateScope 0 :: repeat ETick 5) init in
  let st2 := run (EResolve 1 NUMBER :: repeat ETick 2) st1 in
  let st3 := run (EResolve 1 NUMBER :: repeat ETick 2) st2 in
  (outcome_of st1 0 = Some (Rej Minimal.boom) /\ cached st1 0 (key NUMBER) = None /\
   cached st1 1 (key NUMBER) = Some 4) /\
  (outcome_of st2 5 = Some (Rej Minimal.boom) /\ cached st2 1 (key NUMBER) = Some 4) /\
  (outcome_of st3 6 = Some (Rej Minimal.boom) /\ cached st3 1 (key NUMBER) = Some 4 /\
   factory_log st3 = [fname Minimal.fails_once] /\ queue st3 = []).
Proof. vm_compute. repeat split. Qed.

(** A [resolve] made while [disposeAll] is waiting lists its disposer in the
    list that [disposeAll] has emptied already: when [disposeAll] completes
    the cache is empty and that disposer is still listed. *)
Lemma registry_late_disposer_outlives_disposeAll :
  let st1 := run (ERegister 0 NUMBER Minimal.seven (disposing Minimal.close) ::
                  ERegister 0 OTHER Minimal.one (disposing Minimal.close) ::
                  EResolve 0 NUMBER :: repeat ETick 5) init in
  let st2 := run (EDisposeAll 0 :: EResolve 0 OTHER :: repeat ETick 11) st1 in
  outcome_of st2 5 = Some (Ful VUndefined) /\ queue st2 = [] /\
  outcome_of st2 9 = Some (Ful (VNum 1)) /\
  dispose_log st2 = [(dname Minimal.close, VNum 7)] /\
  cached st2 0 (key NUMBER) = None /\ cached st2 0 (key OTHER) = None /\
  disposers (this 0 st2) = [{| instancePromise := 13; disposeFn := Minimal.close |}].
Proof. vm_compute. repeat split. Qed.
End RegistryFacts.

(** ** The environment loader *)

Module LoadenvFacts.
Import Loadenv.


(** The four cases of the repository's tests on that schema: a complete
    mapping is returned, a missing variable and a variable of the wrong
    type fail, and the process environment is the default source. *)
Lemma loadenv_strings_cases :
  loadenv (strings FOO_BAR) (Some complete) ∅ = Val complete /\
  loadenv (strings FOO_BAR) (Some incomplete) complete = Thrown validation_error /\
  loadenv (strings FOO_BAR) (Some mistyped) complete = Thrown validation_error /\
  loadenv (strings FOO_BAR) None complete = Val complete.
Proof. vm_compute. repeat split. Qed.


End LoadenvFacts.
